(** * The 3D configuration rendering engine of the boat configurator

    A shallow embedding of [src/components/BoatViewer.tsx] (with
    [three/applyDepthMasks.ts] and the [softDeckColor] gate of [App.tsx]),
    and the properties of its visibility controller, material mapping
    engine, camera controller and motion animator.

    three.js objects are mutable and shared by reference.  The embedding
    keeps them in a heap: scene nodes and materials live in two stores
    addressed by reference, the parent/child structure of a scene is a tree
    of node references, and every effect of the component is a function from
    heap to heap. *)

From Stdlib Require Import ZArith QArith Qabs String Ascii List Bool Lia Reals Lra.
From Stdlib Require Floats.PrimFloat.
From stdpp Require Import base list.
Import ListNotations.

Local Open Scope string_scope.
Local Open Scope list_scope.

(* ================================================================== *)
(** * JavaScript string primitives used by the component *)
(* ================================================================== *)

(** The strings of the component are modelled as ASCII text (its tables,
    keys, model ids and node names are): [toLowerCase] and [toUpperCase]
    map the letters A-Z and a-z.  The Unicode case mappings JavaScript
    applies to other characters are outside the model. *)
Module JS.

Definition lowerChar (c : ascii) : ascii :=
  let n := N_of_ascii c in
  if ((65 <=? n) && (n <=? 90))%N then ascii_of_N (n + 32) else c.

Definition upperChar (c : ascii) : ascii :=
  let n := N_of_ascii c in
  if ((97 <=? n) && (n <=? 122))%N then ascii_of_N (n - 32) else c.

Fixpoint toLowerCase (s : string) : string :=
  match s with
  | EmptyString => EmptyString
  | String c r => String (lowerChar c) (toLowerCase r)
  end.

Fixpoint toUpperCase (s : string) : string :=
  match s with
  | EmptyString => EmptyString
  | String c r => String (upperChar c) (toUpperCase r)
  end.

(** [s.startsWith(p)] *)
Fixpoint startsWith (s p : string) : bool :=
  match p, s with
  | EmptyString, _ => true
  | String _ _, EmptyString => false
  | String b p', String a s' => Ascii.eqb a b && startsWith s' p'
  end.

(** [s.endsWith(p)] *)
Definition endsWith (s p : string) : bool :=
  let n := String.length s in
  let k := String.length p in
  (k <=? n)%nat && String.eqb (substring (n - k) k s) p.

(** [xs.includes(x)] on an array of strings *)
Definition includes (xs : list string) (x : string) : bool :=
  existsb (String.eqb x) xs.

(** Truthiness of a string: every string but the empty one. *)
Definition truthy (s : string) : bool :=
  match s with EmptyString => false | String _ _ => true end.

End JS.

(* ================================================================== *)
(** * THREE.Color *)
(* ================================================================== *)

(** A colour is kept as its 24-bit sRGB value, the number [Color.getHex]
    returns. *)
Record Color : Type := ColorHex { hex : N }.

Definition hexDigit (c : ascii) : option N :=
  let n := N_of_ascii c in
  if ((48 <=? n) && (n <=? 57))%N then Some (n - 48)%N
  else if ((65 <=? n) && (n <=? 70))%N then Some (n - 55)%N
  else if ((97 <=? n) && (n <=? 102))%N then Some (n - 87)%N
  else None.

Fixpoint hexDigits (s : string) : option (list N) :=
  match s with
  | EmptyString => Some []
  | String c r =>
      match hexDigit c, hexDigits r with
      | Some d, Some ds => Some (d :: ds)
      | _, _ => None
      end
  end.

(** The hexadecimal notations of [Color.setStyle]: [#rrggbb], and [#rgb]
    with every digit doubled. *)
Definition parseHexStyle (style : string) : option Color :=
  match style with
  | String "#" body =>
      match hexDigits body with
      | Some [r1; r0; g1; g0; b1; b0] =>
          Some (ColorHex (((((r1 * 16 + r0) * 16 + g1) * 16 + g0) * 16 + b1) * 16 + b0))
      | Some [r; g; b] =>
          Some (ColorHex (((((r * 16 + r) * 16 + g) * 16 + g) * 16 + b) * 16 + b))
      | _ => None
      end
  | _ => None
  end.

(** [c.set(style)] for a string argument.  three.js leaves the colour as it
    is (and warns) when it does not recognise the string.  The component
    only passes hexadecimal strings (its literals and the value of a colour
    input); CSS colour names and functional notation are not modelled. *)
Definition Color_set (style : string) (c : Color) : Color :=
  match parseHexStyle style with
  | Some c' => c'
  | None => c
  end.

(** [new THREE.Color(style)]: a white colour, then [set(style)]. *)
Definition Color_new (style : string) : Color :=
  Color_set style (ColorHex 16777215).

(* ================================================================== *)
(** * Model identifiers and the per-model tables *)
(* ================================================================== *)

Definition DEFAULT_MODEL_IDS : list string := ["2.9"; "2.9E"; "3.3"; "3.3E"].

(** [modelId.replace(/E$/, '')]: one trailing [E] is removed. *)
Fixpoint getBaseModelId (modelId : string) : string :=
  match modelId with
  | EmptyString => EmptyString
  | String c EmptyString => if Ascii.eqb c "E" then EmptyString else modelId
  | String c r => String c (getBaseModelId r)
  end.

(** A [Record<string, readonly string[]>] table is an association list;
    a model id that is not a key reads as [undefined]. *)
Fixpoint tableLookup (tbl : list (string * list string)) (k : string)
  : option (list string) :=
  match tbl with
  | [] => None
  | (k', v) :: r => if String.eqb k' k then Some v else tableLookup r k
  end.

Definition MATERIAL_MESHES_29 : list string :=
  ["mesh1700"; "mesh1677"; "mesh1676"; "mesh1675"; "mesh1674"; "mesh1701";
   "mesh1673"; "mesh1672"; "mesh1702"; "mesh1671"; "mesh1670"].
Definition MATERIAL_MESHES_33 : list string :=
  ["mesh98"; "mesh105"; "mesh1023"; "mesh134"; "mesh135"; "mesh32";
   "mesh34"; "mesh35"; "mesh20"; "mesh36"; "mesh37"].

Definition MATERIAL_MESHES_BY_MODEL : list (string * list string) :=
  [("2.9", MATERIAL_MESHES_29); ("2.9E", MATERIAL_MESHES_29);
   ("3.3", MATERIAL_MESHES_33); ("3.3E", MATERIAL_MESHES_33)].

Definition SOFT_DECK_MESHES_29 : list string :=
  ["mesh304"; "mesh305"; "mesh1712"; "mesh16"; "mesh293"; "mesh1709";
   "mesh6"; "mesh5"; "mesh1710"; "mesh8"; "mesh7"].
Definition SOFT_DECK_MESHES_33 : list string :=
  ["mesh983"; "mesh984"; "mesh1042"; "mesh1040"; "mesh1043"; "mesh1044";
   "mesh1057"; "mesh1055"; "mesh1056"; "mesh1054"; "mesh1053"].

Definition SOFT_DECK_MESHES_BY_MODEL : list (string * list string) :=
  [("2.9", SOFT_DECK_MESHES_29); ("2.9E", SOFT_DECK_MESHES_29);
   ("3.3", SOFT_DECK_MESHES_33); ("3.3E", SOFT_DECK_MESHES_33)].

Definition STRIP_MESHES_29 : list string :=
  ["mesh0"; "mesh1"; "mesh1711"; "mesh2"; "mesh3"; "mesh9"; "mesh14";
   "mesh13"; "mesh1713"; "mesh12"; "mesh11"].
Definition STRIP_MESHES_33 : list string :=
  ["mesh1051"; "mesh1050"; "mesh1049"; "mesh1048"; "mesh1047"; "mesh1052";
   "mesh1058"; "mesh1059"; "mesh1060"; "mesh1061"; "mesh1062"].

Definition STRIP_MESHES_BY_MODEL : list (string * list string) :=
  [("2.9", STRIP_MESHES_29); ("2.9E", STRIP_MESHES_29);
   ("3.3", STRIP_MESHES_33); ("3.3E", STRIP_MESHES_33)].

(** [TABLE[modelId] || []] *)
Definition tableOrEmpty (tbl : list (string * list string)) (modelId : string)
  : list string :=
  match tableLookup tbl modelId with
  | Some l => l
  | None => []
  end.


(* ================================================================== *)
(** * The heap of three.js objects *)
(* ================================================================== *)

(** A reference to a scene node or to a material: its index in the store. *)
Abbreviation ref := nat (only parsing).

(** [mesh.material] is one material or an array of materials. *)
Inductive MaterialSlot : Type :=
| SingleMaterial (m : ref)
| MaterialArray (ms : list ref).

(** [Array.isArray(child.material) ? child.material : [child.material]] *)
Definition materialsOf (slot : MaterialSlot) : list ref :=
  match slot with
  | SingleMaterial m => [m]
  | MaterialArray ms => ms
  end.

(** The value of [userData.depthMask], as far as the code tells values
    apart ([=== 1], [=== true]). *)
Inductive DepthMaskData : Type :=
| DepthMaskUnset
| DepthMaskOne
| DepthMaskTrue
| DepthMaskOther.

(** The fields of a scene node (THREE.Object3D, THREE.Mesh) the component
    reads or writes.  The children are in the scene tree below. *)
Record Object3D : Type := mkObject3D {
  name : string;
  isMesh : bool;
  visible : bool;
  castShadow : bool;
  receiveShadow : bool;
  material : MaterialSlot;
  userDataDepthMask : DepthMaskData;
  renderOrder : Z;
  frustumCulled : bool
}.

Inductive MaterialClass : Type :=
| MeshStandardMaterial   (* [instanceof THREE.MeshStandardMaterial] holds *)
| MeshBasicMaterial
| OtherMaterial.

(** The fields of a material the component reads or writes.  Assigning
    [needsUpdate = true] increments [version]. *)
Record Material : Type := mkMaterial {
  materialClass : MaterialClass;
  materialName : string;                (* the field [name] *)
  color : Color;
  metalness : Q;
  roughness : Q;
  opacity : Q;
  transparent : bool;
  colorWrite : bool;
  depthWrite : bool;
  depthTest : bool;
  doubleSide : bool;
  polygonOffset : bool;
  polygonOffsetFactor : Z;
  polygonOffsetUnits : Z;
  version : nat
}.

Record Heap : Type := mkHeap {
  objects : list Object3D;
  materials : list Material
}.

(** The parent/child structure of a scene: a node and its [children]. *)
#[local] Unset Elimination Schemes.
Inductive Tree : Type :=
| TNode (self : ref) (children : list Tree).
#[local] Set Elimination Schemes.

Definition self (t : Tree) : ref := match t with TNode i _ => i end.
Definition children (t : Tree) : list Tree := match t with TNode _ cs => cs end.

(** [object.traverse(callback)]: the callback on the node, then the
    traversal of each child in order.  The callback receives the node (with
    its subtree) and acts on the state it is given. *)
Fixpoint traverse {St : Type} (callback : Tree -> St -> St) (t : Tree) (s : St) : St :=
  match t with
  | TNode _ cs => fold_left (fun s' c => traverse callback c s') cs (callback t s)
  end.

(** ** Field assignments *)

Definition set_visible (v : bool) (o : Object3D) : Object3D :=
  mkObject3D (name o) (isMesh o) v (castShadow o) (receiveShadow o)
             (material o) (userDataDepthMask o) (renderOrder o) (frustumCulled o).

Definition set_castShadow (v : bool) (o : Object3D) : Object3D :=
  mkObject3D (name o) (isMesh o) (visible o) v (receiveShadow o)
             (material o) (userDataDepthMask o) (renderOrder o) (frustumCulled o).

Definition set_receiveShadow (v : bool) (o : Object3D) : Object3D :=
  mkObject3D (name o) (isMesh o) (visible o) (castShadow o) v
             (material o) (userDataDepthMask o) (renderOrder o) (frustumCulled o).

Definition set_material (m : MaterialSlot) (o : Object3D) : Object3D :=
  mkObject3D (name o) (isMesh o) (visible o) (castShadow o) (receiveShadow o)
             m (userDataDepthMask o) (renderOrder o) (frustumCulled o).

Definition set_renderOrder (n : Z) (o : Object3D) : Object3D :=
  mkObject3D (name o) (isMesh o) (visible o) (castShadow o) (receiveShadow o)
             (material o) (userDataDepthMask o) n (frustumCulled o).

Definition set_frustumCulled (v : bool) (o : Object3D) : Object3D :=
  mkObject3D (name o) (isMesh o) (visible o) (castShadow o) (receiveShadow o)
             (material o) (userDataDepthMask o) (renderOrder o) v.

Definition set_color (c : Color) (m : Material) : Material :=
  mkMaterial (materialClass m) (materialName m) c (metalness m) (roughness m)
             (opacity m) (transparent m) (colorWrite m) (depthWrite m)
             (depthTest m) (doubleSide m) (polygonOffset m)
             (polygonOffsetFactor m) (polygonOffsetUnits m) (version m).

Definition set_metalness (x : Q) (m : Material) : Material :=
  mkMaterial (materialClass m) (materialName m) (color m) x (roughness m)
             (opacity m) (transparent m) (colorWrite m) (depthWrite m)
             (depthTest m) (doubleSide m) (polygonOffset m)
             (polygonOffsetFactor m) (polygonOffsetUnits m) (version m).

Definition set_roughness (x : Q) (m : Material) : Material :=
  mkMaterial (materialClass m) (materialName m) (color m) (metalness m) x
             (opacity m) (transparent m) (colorWrite m) (depthWrite m)
             (depthTest m) (doubleSide m) (polygonOffset m)
             (polygonOffsetFactor m) (polygonOffsetUnits m) (version m).

Definition set_opacity (x : Q) (m : Material) : Material :=
  mkMaterial (materialClass m) (materialName m) (color m) (metalness m)
             (roughness m) x (transparent m) (colorWrite m) (depthWrite m)
             (depthTest m) (doubleSide m) (polygonOffset m)
             (polygonOffsetFactor m) (polygonOffsetUnits m) (version m).

Definition set_transparent (v : bool) (m : Material) : Material :=
  mkMaterial (materialClass m) (materialName m) (color m) (metalness m)
             (roughness m) (opacity m) v (colorWrite m) (depthWrite m)
             (depthTest m) (doubleSide m) (polygonOffset m)
             (polygonOffsetFactor m) (polygonOffsetUnits m) (version m).

(** [mat.needsUpdate = true] *)
Definition set_needsUpdate (m : Material) : Material :=
  mkMaterial (materialClass m) (materialName m) (color m) (metalness m)
             (roughness m) (opacity m) (transparent m) (colorWrite m)
             (depthWrite m) (depthTest m) (doubleSide m) (polygonOffset m)
             (polygonOffsetFactor m) (polygonOffsetUnits m) (S (version m)).

(** An assignment to the fields of the node [i] of the heap. *)
Definition updateObject (i : ref) (f : Object3D -> Object3D) (h : Heap) : Heap :=
  mkHeap (alter f i (objects h)) (materials h).

(** [mats.forEach(f)] where [f] assigns to fields of each material: the
    materials are visited in order, through their references. *)
Definition forEachMaterial (f : Material -> Material) (mats : list ref)
    (store : list Material) : list Material :=
  fold_left (fun st m => alter f m st) mats store.

Definition isStandard (m : Material) : bool :=
  match materialClass m with
  | MeshStandardMaterial => true
  | _ => false
  end.

(* ================================================================== *)
(** * The properties of BoatModel *)
(* ================================================================== *)

(** ['fiberglass' | 'fullCarbon'] and ['white' | 'grey'] *)
Inductive MaterialType : Type := fiberglass | fullCarbon.
Inductive HullColorMode : Type := white | grey.

Record GroupVisibilityMapping : Type := mkMapping {
  groupName : string;
  mappingModelId : string;              (* the field [modelId] *)
  hiddenByDefault : bool;
  linkedOptionId : option string
}.

Record BoatModelProps : Type := mkProps {
  modelId : string;
  hullColor : string;                   (* the prop [color] *)
  materialType : MaterialType;
  useCustomColor : bool;
  hullColorMode : HullColorMode;
  softDeckColor : option string;
  groupVisibilityMappings : list GroupVisibilityMapping;
  selectedOptions : list string
}.

(** [const isElectricModel = modelId.endsWith('E')] *)
Definition isElectricModel (modelId : string) : bool := JS.endsWith modelId "E".

(* ================================================================== *)
(** * Visibility controller (the group visibility effect) *)
(* ================================================================== *)

(** The depth-mask test of [setGroupVisibility] and [applyDepthMasks]. *)
Definition isDepthMask (mesh : Object3D) : bool :=
  match userDataDepthMask mesh with
  | DepthMaskOne | DepthMaskTrue => true
  | _ => JS.startsWith (JS.toUpperCase (name mesh)) "WATER_OCCLUDER"
  end.

(** The body of the callback of [object.traverse] in [setGroupVisibility]. *)
Definition setVisibilityOfChild (v : bool) (child : Object3D) : Object3D :=
  let child1 := set_visible v child in
  if isMesh child1 then
    if isDepthMask child1 then child1 else set_castShadow v child1
  else child1.

Definition setGroupVisibility (object : Tree) (v : bool) (h : Heap) : Heap :=
  let h1 := updateObject (self object) (set_visible v) h in
  traverse (fun child h' => updateObject (self child) (setVisibilityOfChild v) h')
           object h1.

(** The mapping found for a node:
    [groupVisibilityMappings.find(m => m.groupName === childName && m.modelId === baseModel)]. *)
Definition findMapping (mappings : list GroupVisibilityMapping)
    (childName baseModel : string) : option GroupVisibilityMapping :=
  List.find (fun m => String.eqb (groupName m) childName
                      && String.eqb (mappingModelId m) baseModel) mappings.

(** The branches of the callback of [scene.traverse] in the effect: the
    value the callback passes to [setGroupVisibility] for a node of this
    name, [None] on the paths on which it calls nothing (an unnamed node, a
    node without mapping). *)
Definition resolveVisibility (p : BoatModelProps) (childName : string) : option bool :=
  if negb (JS.truthy childName) then None
  else if String.eqb childName "el_motor" then Some (isElectricModel (modelId p))
  else if String.eqb childName "battary_V_4_new" then Some (isElectricModel (modelId p))
  else
    let baseModel := getBaseModelId (modelId p) in
    match findMapping (groupVisibilityMappings p) childName baseModel with
    | Some mapping =>
        if hiddenByDefault mapping then
          match linkedOptionId mapping with
          | Some optionId =>
              if JS.truthy optionId
              then Some (JS.includes (selectedOptions p) optionId)
              else Some false
          | None => Some false
          end
        else Some true
    | None => None
    end.

Definition groupVisibilityCallback (p : BoatModelProps) (child : Tree) (h : Heap) : Heap :=
  match objects h !! self child with
  | Some o =>
      match resolveVisibility p (name o) with
      | Some v => setGroupVisibility child v h
      | None => h
      end
  | None => h
  end.

(** The effect "Apply group visibility settings". *)
Definition applyGroupVisibility (p : BoatModelProps) (scene : Tree) (h : Heap) : Heap :=
  traverse (groupVisibilityCallback p) scene h.

(* ================================================================== *)
(** * Scene loading: clone, depth masks, shadows *)
(* ================================================================== *)

(** [new THREE.Object3D()], the node copied when a reference is dangling. *)
Definition emptyObject3D : Object3D :=
  mkObject3D EmptyString false true false false (MaterialArray []) DepthMaskUnset 0 true.

(** [object.clone(true)] of three.js: a new node for every node of the
    subtree, with the fields of the source copied.  [Mesh.copy] assigns
    [this.material = source.material] (an array is sliced): the clone
    refers to the Material objects of the source, no material is copied. *)
Fixpoint Object3D_clone (t : Tree) (h : Heap) : Tree * Heap :=
  match t with
  | TNode i cs =>
      let source := default emptyObject3D (objects h !! i) in
      let i' := length (objects h) in
      let h1 := mkHeap (objects h ++ [source]) (materials h) in
      let fix cloneChildren (cs : list Tree) (h : Heap) : list Tree * Heap :=
        match cs with
        | [] => ([], h)
        | c :: r =>
            let '(c', h') := Object3D_clone c h in
            let '(r', h'') := cloneChildren r h' in
            (c' :: r', h'')
        end in
      let '(cs', h2) := cloneChildren cs h1 in
      (TNode i' cs', h2)
  end.

Definition MASK_RENDER_ORDER : Z := 50.

(** [new THREE.MeshBasicMaterial({ colorWrite: false, depthWrite: true,
    depthTest: true, side: THREE.DoubleSide, polygonOffset: true,
    polygonOffsetFactor: -1, polygonOffsetUnits: -1 })] *)
Definition depthMaskMaterial : Material :=
  mkMaterial MeshBasicMaterial EmptyString (ColorHex 16777215) 0 0 1 false
             false true true true true (-1) (-1) 0.

Definition applyDepthMasks (root : Tree) (h : Heap) : Heap :=
  traverse (fun obj h' =>
    match objects h' !! self obj with
    | Some mesh =>
        if negb (isMesh mesh) then h'
        else if negb (isDepthMask mesh) then h'
        else
          let m := length (materials h') in
          mkHeap (alter (fun o => set_frustumCulled false
                                    (set_renderOrder MASK_RENDER_ORDER
                                       (set_material (SingleMaterial m) o)))
                        (self obj) (objects h'))
                 (materials h' ++ [depthMaskMaterial])
    | None => h'
    end) root h.

(** The second half of the [useMemo] after the clone: shadows off. *)
Definition disableShadows (scene : Tree) (h : Heap) : Heap :=
  traverse (fun child h' =>
    match objects h' !! self child with
    | Some o =>
        if negb (isMesh o) then h'
        else updateObject (self child)
               (fun o' => set_receiveShadow false (set_castShadow false o')) h'
    | None => h'
    end) scene h.

(** What BoatModel does with the cached scene of [useGLTF] when the model
    is loaded: the scene it works on, and the heap after it. *)
Definition loadScene (originalScene : Tree) (h : Heap) : Tree * Heap :=
  let '(scene, h1) := Object3D_clone originalScene h in
  (scene, disableShadows scene (applyDepthMasks scene h1)).

(* ================================================================== *)
(** * Material mapping engine (the colour effects) *)
(* ================================================================== *)

(** [originalColors.current]: the hull colours found when the scene was
    loaded, [None] for a colour that was not found. *)
Record OriginalColors : Type := mkOriginalColors {
  originalWhite : option Color;
  originalGrey : option Color
}.

(** [!originalColors.current.white]: a Color object is truthy. *)
Definition notCaptured (c : option Color) : bool :=
  match c with
  | Some _ => false
  | None => true
  end.

(** The effect "Collect original hull colors once when scene loads": the
    body of [materials.forEach] on one material. *)
Definition captureMaterial (mat : Material) (oc : OriginalColors) : OriginalColors :=
  if negb (isStandard mat) then oc
  else
    let matName := JS.toLowerCase (materialName mat) in
    if String.eqb matName "hull_white" && notCaptured (originalWhite oc)
    then mkOriginalColors (Some (color mat)) (originalGrey oc)
    else if String.eqb matName "hull_grey" && notCaptured (originalGrey oc)
    then mkOriginalColors (originalWhite oc) (Some (color mat))
    else oc.

Definition captureOriginalColors (scene : Tree) (h : Heap) : OriginalColors :=
  traverse (fun child oc =>
    match objects h !! self child with
    | Some o =>
        if negb (isMesh o) then oc
        else
          fold_left (fun oc' m =>
                       match materials h !! m with
                       | Some mat => captureMaterial mat oc'
                       | None => oc'
                       end)
                    (materialsOf (material o)) oc
    | None => oc
    end) scene (mkOriginalColors None None).

Definition isHullSlot (matName : string) : bool :=
  String.eqb matName "hull_white" || String.eqb matName "hull_grey".

(** "Apply hull colors": the body of the first [materials.forEach] of the
    effect "Apply colors and materials". *)
Definition hullColorRule (p : BoatModelProps) (oc : OriginalColors)
    (mat : Material) : Material :=
  if negb (isStandard mat) then mat
  else
    let matName := JS.toLowerCase (materialName mat) in
    if isHullSlot matName then
      let mat1 :=
        if useCustomColor p then set_color (Color_set (hullColor p) (color mat)) mat
        else
          let whiteColor := default (Color_new "#ECECE8") (originalWhite oc) in
          let greyColor := default (Color_new "#9EA0A1") (originalGrey oc) in
          match hullColorMode p with
          | white => set_color whiteColor mat
          | grey => set_color greyColor mat
          end in
      set_needsUpdate mat1
    else mat.

Definition materialTypeHex (mt : MaterialType) : string :=
  match mt with
  | fullCarbon => "#0A0C10"
  | fiberglass => "#C7C7C7"
  end.

(** "Apply material type color to specific meshes": the body of the
    [materials.forEach]. *)
Definition materialTypeRule (p : BoatModelProps) (mat : Material) : Material :=
  if negb (isStandard mat) then mat
  else
    let mat1 := set_color (Color_set (materialTypeHex (materialType p)) (color mat)) mat in
    set_needsUpdate
      (set_transparent false (set_opacity 1 (set_roughness (1 # 2) (set_metalness (1 # 2) mat1)))).

(** The (soft deck, strip) pair of hex strings selected by the key. *)
Definition softDeckPalette (softDeckColor : string) : string * string :=
  let sel := JS.toUpperCase softDeckColor in
  if String.eqb sel "#9D622BFF" then ("#9D622B", "#FFFDFC")
  else if String.eqb sel "#BCBCBCFF" then ("#939393", "#FFFDFC")
  else if String.eqb sel "#95070BFF" then ("#939393", "#95070B")
  else ("#9D622B", "#FFFDFC").

(** The body of the [materials.forEach] of the soft deck meshes and of the
    strip meshes, for the hex string to apply. *)
Definition accentRule (accentHex : string) (mat : Material) : Material :=
  if negb (isStandard mat) then mat
  else
    let mat1 := set_color (Color_set accentHex (color mat)) mat in
    set_needsUpdate
      (set_transparent false (set_opacity 1 (set_roughness 1 (set_metalness 0 mat1)))).

Definition softDeckMeshes (modelId : string) : list string :=
  map JS.toLowerCase (tableOrEmpty SOFT_DECK_MESHES_BY_MODEL modelId).

Definition stripMeshes (modelId : string) : list string :=
  map JS.toLowerCase (tableOrEmpty STRIP_MESHES_BY_MODEL modelId).

Definition materialMeshes (modelId : string) : list string :=
  tableOrEmpty MATERIAL_MESHES_BY_MODEL modelId.

(** The guard of the material-type rule. *)
Definition isMaterialTypeMesh (modelId meshName : string) : bool :=
  JS.includes (materialMeshes modelId) meshName
  && negb (JS.includes (softDeckMeshes modelId) meshName)
  && negb (JS.includes (stripMeshes modelId) meshName).

(** "Apply soft deck and strip colors explicitly based on selection": the
    block guarded by [if (softDeckColor)]. *)
Definition applySoftDeck (p : BoatModelProps) (meshName : string)
    (mats : list ref) (store : list Material) : list Material :=
  match softDeckColor p with
  | Some key =>
      if JS.truthy key then
        let '(softDeckHex, stripHex) := softDeckPalette key in
        let store1 :=
          if JS.includes (softDeckMeshes (modelId p)) meshName
          then forEachMaterial (accentRule softDeckHex) mats store
          else store in
        if JS.includes (stripMeshes (modelId p)) meshName
        then forEachMaterial (accentRule stripHex) mats store1
        else store1
      else store
  | None => store
  end.

(** The three rules on the materials of one mesh, in the order of the
    callback. *)
Definition colorMesh (p : BoatModelProps) (oc : OriginalColors)
    (mesh : Object3D) (store : list Material) : list Material :=
  let meshName := JS.toLowerCase (name mesh) in
  let mats := materialsOf (material mesh) in
  let store1 := forEachMaterial (hullColorRule p oc) mats store in
  let store2 :=
    if isMaterialTypeMesh (modelId p) meshName
    then forEachMaterial (materialTypeRule p) mats store1
    else store1 in
  applySoftDeck p meshName mats store2.

(** The callback of [scene.traverse] in the effect "Apply colors and
    materials". *)
Definition colorCallback (p : BoatModelProps) (oc : OriginalColors)
    (child : Tree) (h : Heap) : Heap :=
  match objects h !! self child with
  | Some o =>
      if negb (isMesh o) then h
      else mkHeap (objects h) (colorMesh p oc o (materials h))
  | None => h
  end.

Definition applyColors (p : BoatModelProps) (oc : OriginalColors)
    (scene : Tree) (h : Heap) : Heap :=
  traverse (colorCallback p oc) scene h.

(** The [softDeckColor] property the configurator passes to the viewer:
    [configuration.optionIds.includes('soft-deck') ? softDeckColor : undefined]. *)
Definition softDeckColorProp (optionIds : list string)
    (softDeckColorState : option string) : option string :=
  if JS.includes optionIds "soft-deck" then softDeckColorState else None.

(* ================================================================== *)
(** * Camera / interaction controller (OrbitControlsWrapper) *)
(* ================================================================== *)

Module Camera.
Local Open Scope Q_scope.

(** The fields of the OrbitControls instance the wrapper assigns. *)
Record OrbitControls : Type := mkControls {
  enableRotate : bool;
  enableZoom : bool;
  enablePan : bool;
  targetX : Q;
  targetY : Q;
  targetZ : Q
}.

Record State : Type := mkState {
  controls : option OrbitControls;   (* [controlsRef.current] *)
  rmbActive : bool;                  (* [rmbActiveRef.current] *)
  initialCameraY : option Q;         (* [initialCameraYRef.current] *)
  cameraY : Q;                       (* [camera.position.y] *)
  targetCenter : Q * Q               (* [targetCenterRef.current] *)
}.

(** [const targetY = 0.3] *)
Definition targetYConst : Q := 3 # 10.

(** [Math.abs(a - b) > 1e-6] *)
Definition differs (a b : Q) : bool :=
  negb (Qle_bool (Qabs (a - b)) (1 # 1000000)).

(** [onDown], registered for [mousedown] and [pointerdown]. *)
Definition onDown (button : Z) (s : State) : State :=
  if (button =? 1)%Z then s
  else if (button =? 2)%Z then
    let controls1 :=
      match controls s with
      | Some c => Some (mkControls false false true (targetX c) (targetY c) (targetZ c))
      | None => None
      end in
    let initial1 :=
      match initialCameraY s with
      | None => Some (cameraY s)
      | Some y => Some y
      end in
    mkState controls1 true initial1 (cameraY s) (targetCenter s)
  else s.

(** [onUp], registered for [mouseup] and [pointerup]. *)
Definition onUp (button : Z) (s : State) : State :=
  if (button =? 2)%Z then
    let controls1 :=
      match controls s with
      | Some c => Some (mkControls true true (enablePan c) (targetX c) (targetY c) (targetZ c))
      | None => None
      end in
    mkState controls1 false (initialCameraY s) (cameraY s) (targetCenter s)
  else s.

(** The callback of [useFrame], up to its last statement
    [controls.update()], which belongs to three.js (see [ControlsMove]). *)
Definition onFrame (s : State) : State :=
  match controls s with
  | None => s
  | Some c =>
      let ty := if differs (targetY c) targetYConst then targetYConst else targetY c in
      let c1 := mkControls (enableRotate c) (enableZoom c) (enablePan c)
                           (fst (targetCenter s)) ty (snd (targetCenter s)) in
      let y1 :=
        match initialCameraY s with
        | Some y0 =>
            if rmbActive s && differs (cameraY s) y0 then y0 else cameraY s
        | None => cameraY s
        end in
      mkState (Some c1) (rmbActive s) (initialCameraY s) y1 (targetCenter s)
  end.

Inductive Event : Type :=
| Down (button : Z)
| Up (button : Z)
| Frame
| ControlsMove (y : Q).   (* OrbitControls moves the camera to height [y] *)

Definition step (s : State) (e : Event) : State :=
  match e with
  | Down b => onDown b s
  | Up b => onUp b s
  | Frame => onFrame s
  | ControlsMove y =>
      mkState (controls s) (rmbActive s) (initialCameraY s) y (targetCenter s)
  end.

Definition run (es : list Event) (s : State) : State := fold_left step es s.

(** The state after mount: the OrbitControls element as rendered
    ([enablePan], [enableZoom] and the default [enableRotate] are true,
    target [0, targetY, 0]) and the camera at [4, 2.5, 4]. *)
Definition initial : State :=
  mkState (Some (mkControls true true true 0 targetYConst 0)) false None (5 # 2) (0, 0).

End Camera.

(* ================================================================== *)
(** * Motion animator (BoatWithRocking) and the water surface gate *)
(* ================================================================== *)

Module Animator.
Local Open Scope R_scope.

(** ['ocean' | 'dry-dock'] *)
Inductive WaveMode : Type := ocean | dryDock.

(** The fields of the two groups the frame callback assigns. *)
Record Pose : Type := mkPose {
  boatRotationX : R;
  boatRotationY : R;
  boatRotationZ : R;
  boatPositionY : R;
  pitchRotationX : R;
  pitchRotationY : R;
  pitchRotationZ : R
}.

(** [const pitchOffset = useMemo(() => 0, [])] *)
Definition pitchOffset : R := 0.

(** The callback of [useFrame] at elapsed time [t]; [None] while a group
    is not mounted (the callback returns at once).  [Math.sin] and
    [Math.cos] are the real functions. *)
Definition rockingFrame (waveMode : WaveMode) (t : R) (groups : option Pose)
  : option Pose :=
  match groups with
  | None => None
  | Some _ =>
      match waveMode with
      | ocean =>
          Some (mkPose 0 0 (cos (t * 1.1) * 0.00625) 0.32
                       (pitchOffset + sin (t * 1.2) * 0.0075) 0 0)
      | dryDock =>
          Some (mkPose 0 0 0 0.34 pitchOffset 0 0)
      end
  end.

(** [{waveMode === 'ocean' && <OceanWater ... />}] *)
Definition rendersOceanWater (waveMode : WaveMode) : bool :=
  match waveMode with
  | ocean => true
  | dryDock => false
  end.

End Animator.

(* ================================================================== *)
(** * Notions used to state the properties *)
(* ================================================================== *)

(** ** Scenes *)

(** The nodes of a scene in the order [traverse] visits them. *)
Fixpoint preorder (t : Tree) : list Tree :=
  match t with
  | TNode _ cs => t :: flat_map preorder cs
  end.

Definition nodes (t : Tree) : list ref := map self (preorder t).

(** A scene graph is a tree: no node occurs twice in it. *)
Definition wellFormed (scene : Tree) : Prop := NoDup (nodes scene).

(** Induction on a scene, the property given for the children of a node. *)
Section TreeInduction.
Variable P : Tree -> Prop.
Hypothesis node_case : forall i cs, Forall P cs -> P (TNode i cs).

Fixpoint Tree_ind (t : Tree) : P t :=
  match t with
  | TNode i cs =>
      node_case i cs
        ((fix all (l : list Tree) : Forall P l :=
            match l with
            | [] => List.Forall_nil P
            | c :: r => List.Forall_cons P c r (Tree_ind c) (all r)
            end) cs)
  end.
End TreeInduction.

(** ** Visibility *)

Definition withModelId (m : string) (p : BoatModelProps) : BoatModelProps :=
  mkProps m (hullColor p) (materialType p) (useCustomColor p) (hullColorMode p)
          (softDeckColor p) (groupVisibilityMappings p) (selectedOptions p).

(** The two names the effect manages by itself. *)
Definition autoManaged (childName : string) : bool :=
  String.eqb childName "el_motor" || String.eqb childName "battary_V_4_new".

(** The resolution of a node by itself: what the callback of the
    visibility effect passes to [setGroupVisibility] at this node. *)
Definition ownResolution (p : BoatModelProps) (h : Heap) (i : ref) : option bool :=
  match objects h !! i with
  | Some o => resolveVisibility p (name o)
  | None => None
  end.

(** The resolution in force at each node of a scene: the node's own when it
    has one, otherwise the one in force at its parent ([inherited], above
    the root). *)
Fixpoint inForce (own : ref -> option bool) (inherited : option bool) (t : Tree)
  : list (ref * option bool) :=
  match t with
  | TNode i cs =>
      let r := match own i with Some v => Some v | None => inherited end in
      (i, r) :: flat_map (inForce own r) cs
  end.

(** The nodes [ns] already show the inherited resolution. *)
Definition inheritedApplied (inherited : option bool) (ns : list ref) (h : Heap) : Prop :=
  forall v j o, inherited = Some v -> j ∈ ns -> objects h !! j = Some o -> visible o = v.

(** What a traversal of the visibility effect over the nodes [ns] does to a
    heap: names are kept, the nodes outside [ns] are left alone, and every
    node of [ns] shows the resolution in force at it ([rs]), or its old
    visibility when none is in force. *)
Definition visibilityApplied (ns : list ref) (rs : list (ref * option bool))
    (h h' : Heap) : Prop :=
  (forall j, name <$> objects h' !! j = name <$> objects h !! j) /\
  (forall j, j ∉ ns -> objects h' !! j = objects h !! j) /\
  (forall j r o, (j, r) ∈ rs -> objects h !! j = Some o ->
     exists o', objects h' !! j = Some o' /\ visible o' = default (visible o) r).

(** ** Materials *)

(** [x] is in the list [l] up to the case of letters. *)
Definition caseInsensitiveMember (x : string) (l : list string) : Prop :=
  exists y, In y l /\ JS.toLowerCase x = JS.toLowerCase y.

(** A hull slot: a MeshStandardMaterial named [hull_white] or [hull_grey]. *)
Definition isHullMaterial (mat : Material) : bool :=
  isStandard mat && isHullSlot (JS.toLowerCase (materialName mat)).

(** The soft deck block on one material bound [k] times to the mesh. *)
Definition softDeckOn (p : BoatModelProps) (meshName : string) (k : nat)
    (mat : Material) : Material :=
  match softDeckColor p with
  | Some key =>
      if JS.truthy key then
        let '(softDeckHex, stripHex) := softDeckPalette key in
        let mat1 :=
          if JS.includes (softDeckMeshes (modelId p)) meshName
          then Nat.iter k (accentRule softDeckHex) mat
          else mat in
        if JS.includes (stripMeshes (modelId p)) meshName
        then Nat.iter k (accentRule stripHex) mat1
        else mat1
      else mat
  | None => mat
  end.

(** The three rules of [colorMesh] on one material bound [k] times to the
    mesh. *)
Definition colorMaterialOn (p : BoatModelProps) (oc : OriginalColors)
    (meshName : string) (k : nat) (mat : Material) : Material :=
  let mat1 := Nat.iter k (hullColorRule p oc) mat in
  let mat2 :=
    if isMaterialTypeMesh (modelId p) meshName
    then Nat.iter k (materialTypeRule p) mat1
    else mat1 in
  softDeckOn p meshName k mat2.

(** The callback of the colour effect at the node [n], on the material [m]. *)
Definition colorNodeOn (p : BoatModelProps) (oc : OriginalColors)
    (objs : list Object3D) (n : Tree) (m : ref) (mat : Material) : Material :=
  match objs !! self n with
  | Some o =>
      if negb (isMesh o) then mat
      else colorMaterialOn p oc (JS.toLowerCase (name o))
             (count_occ Nat.eq_dec (materialsOf (material o)) m) mat
  | None => mat
  end.

(** The colour effect over the nodes [ns], on the material [m]. *)
Definition colorPassOn (p : BoatModelProps) (oc : OriginalColors)
    (objs : list Object3D) (ns : list Tree) (m : ref) (mat : Material) : Material :=
  fold_left (fun x n => colorNodeOn p oc objs n m x) ns mat.

(** Two materials of the same class and name: the rules select them
    alike. *)
Definition sameSlot (x y : Material) : Prop :=
  materialClass x = materialClass y /\ materialName x = materialName y.

(** On the materials of the slot of [mat0], [f] keeps the slot, and either
    gives one colour whatever the colour was, or keeps the colour. *)
Definition colorSettled (mat0 : Material) (f : Material -> Material) : Prop :=
  (forall x, sameSlot x mat0 -> sameSlot (f x) mat0) /\
  ((forall x x', sameSlot x mat0 -> sameSlot x' mat0 -> color (f x) = color (f x')) \/
   (forall x, sameSlot x mat0 -> color (f x) = color x)).

(** Two property sets that differ at most in the hull settings (and in what
    the colour effect does not read). *)
Definition sameButHull (p p' : BoatModelProps) : Prop :=
  modelId p = modelId p' /\ materialType p = materialType p' /\
  softDeckColor p = softDeckColor p'.

(** Two property sets that differ at most in the material type. *)
Definition sameButMaterialType (p p' : BoatModelProps) : Prop :=
  modelId p = modelId p' /\ hullColor p = hullColor p' /\
  useCustomColor p = useCustomColor p' /\ hullColorMode p = hullColorMode p' /\
  softDeckColor p = softDeckColor p'.

(** No mesh of the material-type list carries a hull slot. *)
Definition hullSlotsApart (modelId : string) (scene : Tree) (h : Heap) : Prop :=
  forall n o m mat,
    n ∈ nodes scene -> objects h !! n = Some o -> isMesh o = true ->
    isMaterialTypeMesh modelId (JS.toLowerCase (name o)) = true ->
    m ∈ materialsOf (material o) -> materials h !! m = Some mat ->
    isHullMaterial mat = false.

(** ** Scenes and properties of the examples *)

Definition group (n : string) : Object3D :=
  mkObject3D n false true false false (MaterialArray []) DepthMaskUnset 0 true.

Definition meshOf (n : string) (slot : MaterialSlot) : Object3D :=
  mkObject3D n true true true true slot DepthMaskUnset 0 true.

Definition standardMaterial (n : string) (c : N) : Material :=
  mkMaterial MeshStandardMaterial n (ColorHex c) 0 (1 # 2) 1 false
             true true true false false 0 0 0.

(** A root group, below it the group [seats] with the mesh [cushion], and
    the group [el_motor] with the mesh [motor_body]. *)
Definition deckScene : Tree :=
  TNode 0 [TNode 1 [TNode 2 []]; TNode 3 [TNode 4 []]].

Definition deckHeap : Heap :=
  mkHeap [group "Scene"; group "seats"; meshOf "cushion" (SingleMaterial 0);
          group "el_motor"; meshOf "motor_body" (SingleMaterial 1)]
         [standardMaterial "fabric" 0x808080; standardMaterial "steel" 0x404040].

(** [seats] is hidden by default and linked to no option. *)
Definition seatsHidden : BoatModelProps :=
  mkProps "2.9" "#FFFFFF" fiberglass false white None
          [mkMapping "seats" "2.9" true None] [].

(** The soft deck option selected, with the grey deck key in lower case. *)
Definition greyDeck : BoatModelProps :=
  mkProps "2.9" "#FFFFFF" fiberglass false white (Some "#bcbcbcff") [] ["soft-deck"].

(** A cached scene: a root group with the hull mesh, whose material is the
    hull slot [hull_white]. *)
Definition cachedScene : Tree := TNode 0 [TNode 1 []].

Definition cachedHeap : Heap :=
  mkHeap [group "Scene"; meshOf "hull" (SingleMaterial 0)]
         [standardMaterial "hull_white" 0xECECE8].

(** The custom hull colour #FF6B00. *)
Definition customOrange : BoatModelProps :=
  mkProps "2.9" "#FF6B00" fiberglass true white None [] [].

(** A scene in which a mesh of the material-type list of the model 2.9
    carries the hull slot [hull_white]. *)
Definition leakScene : Tree := TNode 0 [TNode 1 []].

Definition leakHeap : Heap :=
  mkHeap [group "Scene"; meshOf "mesh1700" (SingleMaterial 0)]
         [standardMaterial "hull_white" 0xECECE8].

Definition whiteFiberglass : BoatModelProps :=
  mkProps "2.9" "#FFFFFF" fiberglass false white None [] [].

Definition whiteCarbon : BoatModelProps :=
  mkProps "2.9" "#FFFFFF" fullCarbon false white None [] [].

(** A scene that keeps them apart: the hull mesh carries the hull slot, the
    mesh of the material-type list its own material. *)
Definition apartScene : Tree := TNode 0 [TNode 1 []; TNode 2 []].

Definition apartHeap : Heap :=
  mkHeap [group "Scene"; meshOf "hull" (SingleMaterial 0);
          meshOf "mesh1700" (SingleMaterial 1)]
         [standardMaterial "hull_white" 0xECECE8; standardMaterial "trim" 0x202020].


(* ================================================================== *)
(** * Further parts of the viewer and of the configurator *)
(* ================================================================== *)

(** ** The asset of a model *)

(** [resolveModelPath(modelId, basePath)] *)
Definition resolveModelPath (modelId basePath : string) : string :=
  let fileName := if JS.startsWith modelId "2.9" then "29" else "33" in
  basePath ++ "models/" ++ fileName ++ ".glb".

(** ** Notions for the scene effects *)

(** [o'] is [o] but for its visibility, and for its shadow casting when it
    is a mesh that is no depth mask. *)
Definition sameButVisibility (o o' : Object3D) : Prop :=
  name o' = name o /\ isMesh o' = isMesh o /\
  receiveShadow o' = receiveShadow o /\ material o' = material o /\
  userDataDepthMask o' = userDataDepthMask o /\
  renderOrder o' = renderOrder o /\ frustumCulled o' = frustumCulled o /\
  (isMesh o && negb (isDepthMask o) = false -> castShadow o' = castShadow o).

(** The assignments of [disableShadows] to a mesh. *)
Definition shadowsOff (o : Object3D) : Object3D :=
  set_receiveShadow false (set_castShadow false o).

(** The effect of [applyDepthMasks] on a depth-mask mesh bound to the
    material [m]. *)
Definition masked (m : ref) (o : Object3D) : Object3D :=
  set_frustumCulled false (set_renderOrder MASK_RENDER_ORDER
                             (set_material (SingleMaterial m) o)).

(** A node the depth-mask pass changes. *)
Definition isMaskMesh (o : Object3D) : bool := isMesh o && isDepthMask o.

(** [renderOrder={100}] of the water surface *)
Definition WATER_RENDER_ORDER : Z := 100.

(** The materials the colour snapshot looks at, in the order it does: the
    materials of each mesh, mesh after mesh in pre-order. *)
Definition visitedMaterials (scene : Tree) (h : Heap) : list Material :=
  flat_map (fun n =>
              match objects h !! self n with
              | Some o =>
                  if negb (isMesh o) then []
                  else flat_map (fun m => match materials h !! m with
                                          | Some mat => [mat]
                                          | None => []
                                          end)
                                (materialsOf (material o))
              | None => []
              end)
           (preorder scene).

Definition namedStandard (slot : string) (mat : Material) : bool :=
  isStandard mat && String.eqb (JS.toLowerCase (materialName mat)) slot.

(** The visibility effect run once for each property set of [ps], in order
    (the effect runs again whenever its dependencies change). *)
Definition visibilityRuns (ps : list BoatModelProps) (scene : Tree) (h : Heap) : Heap :=
  fold_left (fun h' p => applyGroupVisibility p scene h') ps h.

(** Every node of the scene is in the heap. *)
Definition allocated (scene : Tree) (h : Heap) : Prop :=
  forall j, j ∈ nodes scene -> (j < length (objects h))%nat.

(** The callback of [root.traverse] in [applyDepthMasks], on one node. *)
Definition maskStep (obj : Tree) (h' : Heap) : Heap :=
  match objects h' !! self obj with
  | Some mesh =>
      if negb (isMesh mesh) then h'
      else if negb (isDepthMask mesh) then h'
      else
        let m := length (materials h') in
        mkHeap (alter (fun o => set_frustumCulled false
                                  (set_renderOrder MASK_RENDER_ORDER
                                     (set_material (SingleMaterial m) o)))
                      (self obj) (objects h'))
               (materials h' ++ [depthMaskMaterial])
  | None => h'
  end.

(** [materials.forEach] of the colour snapshot, over the materials
    themselves. *)
Definition captureAll (mats : list Material) (oc : OriginalColors) : OriginalColors :=
  fold_left (fun oc' mat => captureMaterial mat oc') mats oc.

(** [mat'] is [mat] but for the fields the colour rules assign (colour,
    metalness, roughness, opacity, transparency) and for its version, which
    is not lower; a material that is no MeshStandardMaterial is as it was. *)
Definition colourFieldsOnly (mat mat' : Material) : Prop :=
  materialClass mat' = materialClass mat /\ materialName mat' = materialName mat /\
  colorWrite mat' = colorWrite mat /\ depthWrite mat' = depthWrite mat /\
  depthTest mat' = depthTest mat /\ doubleSide mat' = doubleSide mat /\
  polygonOffset mat' = polygonOffset mat /\
  polygonOffsetFactor mat' = polygonOffsetFactor mat /\
  polygonOffsetUnits mat' = polygonOffsetUnits mat /\
  (version mat <= version mat')%nat /\
  (isStandard mat = false -> mat' = mat).

(** ** The frame callback of the camera wrapper, whole *)

(** The callback of [useFrame] in [OrbitControlsWrapper] with its last
    statement: it returns at once while the controls are not mounted;
    otherwise it makes the assignments of [Camera.onFrame] and then calls
    [controls.update()].  OrbitControls is three.js code: what its [update]
    does to the camera and to the target is the parameter [update]. *)
Definition useFrameCallback (update : Camera.State -> Camera.State)
    (s : Camera.State) : Camera.State :=
  match Camera.controls s with
  | None => s
  | Some _ => update (Camera.onFrame s)
  end.

(* ================================================================== *)
(** * The configurator around the viewer *)
(* ================================================================== *)

(** [contexts/ConfigurationContext.tsx], [utils/priceCalculator.ts], the
    look-ups of [utils/catalogLoader.ts], and the properties
    [ConfiguratorContent] of [App.tsx] passes to the viewer.  Amounts are
    JavaScript numbers, that is IEEE 754 binary64 values with their own
    addition: they are the primitive floats here. *)
Module Configurator.
Import PrimFloat.

Inductive ColourType : Type := palette | custom.

Record Colour : Type := mkColour {
  colourType : ColourType;      (* [type] *)
  value : string
}.

(** The fields of [Configuration] the code below reads. *)
Record Configuration : Type := mkConfiguration {
  modelId : string;
  materialId : MaterialType;
  colour : Colour;
  optionIds : list string;
  waveMode : Animator.WaveMode
}.

Record BasePrice : Type := mkBasePrice {
  priceModelId : string;        (* [modelId] *)
  priceMaterialId : MaterialType;  (* [materialId] *)
  amountUsd : float;
  tradePrice : option float
}.

Record Option : Type := mkOption {
  id : string;
  priceUsd : float
}.

(** The fields of [Catalog] the code below reads; [customColorPriceUsd] is
    [customColor.priceUsd]. *)
Record Catalog : Type := mkCatalog {
  basePrices : list BasePrice;
  options : list Option;
  customColorPriceUsd : float
}.

Record PriceBreakdown : Type := mkPriceBreakdown {
  basePrice : float;
  optionsTotal : float;
  customColorPrice : float;
  total : float
}.

(** [a === b] on material ids *)
Definition sameMaterial (a b : MaterialType) : bool :=
  match a, b with
  | fiberglass, fiberglass | fullCarbon, fullCarbon => true
  | _, _ => false
  end.

(** [getBasePrice]: [priceEntry?.tradePrice ?? priceEntry?.amountUsd] *)
Definition getBasePrice (catalog : Catalog) (modelId : string)
    (materialId : MaterialType) : option float :=
  match List.find (fun price => String.eqb (priceModelId price) modelId
                                && sameMaterial (priceMaterialId price) materialId)
                  (basePrices catalog) with
  | Some priceEntry =>
      match tradePrice priceEntry with
      | Some t => Some t
      | None => Some (amountUsd priceEntry)
      end
  | None => None
  end.

Definition getOption (catalog : Catalog) (optionId : string) : option Option :=
  List.find (fun option => String.eqb (id option) optionId) (options catalog).

(** [x || 0] on a number that may be undefined: [0], [-0] and [NaN] are
    falsy. *)
Definition orZero (x : option float) : float :=
  match x with
  | Some q => if (q =? 0)%float || is_nan q then 0%float else q
  | None => 0%float
  end.

(** The loop [for (const optionId of configuration.optionIds)] of
    [calculatePrice], from the running total [acc]. *)
Definition addOptions (catalog : Catalog) (optionIds : list string) (acc : float) : float :=
  fold_left (fun optionsTotal optionId =>
               match getOption catalog optionId with
               | Some option => (optionsTotal + priceUsd option)%float
               | None => optionsTotal
               end)
            optionIds acc.

Definition calculatePrice (catalog : Catalog) (configuration : Configuration)
  : PriceBreakdown :=
  let basePrice :=
    orZero (getBasePrice catalog (modelId configuration) (materialId configuration)) in
  let optionsTotal := addOptions catalog (optionIds configuration) 0%float in
  let customColorPrice :=
    match colourType (colour configuration) with
    | custom => customColorPriceUsd catalog
    | palette => 0%float
    end in
  let optionsTotal :=
    match colourType (colour configuration) with
    | custom => (optionsTotal + customColorPrice)%float
    | palette => optionsTotal
    end in
  mkPriceBreakdown basePrice optionsTotal customColorPrice
                   (basePrice + optionsTotal)%float.

(** [DEFAULT_CONFIG] *)
Definition DEFAULT_CONFIG : Configuration :=
  mkConfiguration "2.9" fiberglass (mkColour palette "white-grey") ["soft-deck"]
                  Animator.ocean.

(** The updater of [toggleOption]. *)
Definition toggleOption (optionId : string) (prev : Configuration) : Configuration :=
  let optionIds :=
    if JS.includes (optionIds prev) optionId
    then List.filter (fun id => negb (String.eqb id optionId)) (optionIds prev)
    else optionIds prev ++ [optionId] in
  mkConfiguration (modelId prev) (materialId prev) (colour prev) optionIds (waveMode prev).

Definition setModel (modelId : string) (prev : Configuration) : Configuration :=
  mkConfiguration modelId (materialId prev) (colour prev) (optionIds prev) (waveMode prev).

Definition setMaterial (materialId : MaterialType) (prev : Configuration) : Configuration :=
  mkConfiguration (modelId prev) materialId (colour prev) (optionIds prev) (waveMode prev).

Definition setColour (type : ColourType) (value : string) (prev : Configuration)
  : Configuration :=
  mkConfiguration (modelId prev) (materialId prev) (mkColour type value)
                  (optionIds prev) (waveMode prev).

Definition setWaveMode (mode : Animator.WaveMode) (prev : Configuration) : Configuration :=
  mkConfiguration (modelId prev) (materialId prev) (colour prev) (optionIds prev) mode.

(** The actions of the context on the fields above ([loadConfiguration],
    which installs the configuration it is given, is not among them). *)
Inductive Action : Type :=
| ToggleOption (optionId : string)
| SetModel (modelId : string)
| SetMaterial (materialId : MaterialType)
| SetColour (type : ColourType) (value : string)
| SetWaveMode (mode : Animator.WaveMode)
| ResetConfiguration.

Definition dispatch (prev : Configuration) (a : Action) : Configuration :=
  match a with
  | ToggleOption optionId => toggleOption optionId prev
  | SetModel modelId => setModel modelId prev
  | SetMaterial materialId => setMaterial materialId prev
  | SetColour type value => setColour type value prev
  | SetWaveMode mode => setWaveMode mode prev
  | ResetConfiguration => DEFAULT_CONFIG
  end.

(** The state of [ConfiguratorContent] the viewer and the price read. *)
Record AppState : Type := mkAppState {
  configuration : Configuration;
  groupVisibilityMappings : list GroupVisibilityMapping;
  useCustomHullColor : bool;
  hullColorMode : HullColorMode;
  customHullColor : string;
  softDeckColor : option string
}.

(** The properties [ConfiguratorContent] passes to [BoatViewer], which
    hands them to [BoatModel]. *)
Definition viewerProps (app : AppState) : BoatModelProps :=
  mkProps (modelId (configuration app))
          (if useCustomHullColor app then customHullColor app else "#FFFFFF")
          (materialId (configuration app))
          (useCustomHullColor app)
          (hullColorMode app)
          (softDeckColorProp (optionIds (configuration app)) (softDeckColor app))
          (groupVisibilityMappings app)
          (optionIds (configuration app)).

Definition withConfiguration (c : Configuration) (app : AppState) : AppState :=
  mkAppState c (groupVisibilityMappings app) (useCustomHullColor app)
             (hullColorMode app) (customHullColor app) (softDeckColor app).

End Configurator.

(** The configuration after the options of [ts] were toggled, in order. *)
Definition toggleAll (ts : list string) (c : Configurator.Configuration)
  : Configurator.Configuration :=
  fold_left (fun c' optionId => Configurator.toggleOption optionId c') ts c.

(** [x] is [o] after visibility changes that kept shadows in step with the
    visibility: a depth mask casts no shadow, and a node that casts a
    shadow is visible. *)
Definition shadowsInStep (o x : Object3D) : Prop :=
  sameButVisibility o x /\
  (isDepthMask o = true -> castShadow x = false) /\
  (castShadow x = true -> visible x = true).

(** The parent/child structure of a scene, without the identity of its
    nodes. *)
Fixpoint skeleton (t : Tree) : Tree :=
  match t with
  | TNode _ cs => TNode 0 (map skeleton cs)
  end.

(** The node with its shadow casting shown as its visibility, when it is a
    mesh that is no depth mask: the visibility effect assigns the two
    fields of such a mesh together. *)
Definition shadowAsVisible (o : Object3D) : Object3D :=
  if isMesh o && negb (isDepthMask o) then set_visible (castShadow o) o else o.

Definition shadowsAsVisible (h : Heap) : Heap :=
  mkHeap (shadowAsVisible <$> objects h) (materials h).
(* ================================================================== *)
(** * Properties *)
(* ================================================================== *)

(** ** Traversals *)

Lemma nodes_TNode (i : ref) (cs : list Tree) :
  nodes (TNode i cs) = i :: flat_map nodes cs.
Proof.
  unfold nodes. cbn [preorder map self]. f_equal.
  induction cs as [| c r IH]; [reflexivity |].
  cbn [flat_map]. now rewrite map_app, IH.
Qed.

Lemma self_in_nodes (t : Tree) : self t ∈ nodes t.
Proof. destruct t as [i cs]. rewrite nodes_TNode. cbn. left. Qed.

(** [traverse] runs the callback over the nodes in pre-order. *)
Lemma traverse_preorder {St : Type} (callback : Tree -> St -> St) (t : Tree) :
  forall s, traverse callback t s = fold_left (fun s' n => callback n s') (preorder t) s.
Proof.
  induction t as [i cs IH] using Tree_ind. intros s.
  cbn [traverse preorder fold_left].
  generalize (callback (TNode i cs) s). clear s.
  induction IH as [| c r Hc _ IHr]; intros s; [reflexivity |].
  cbn [fold_left flat_map]. rewrite fold_left_app, Hc. apply IHr.
Qed.

(** A sequence of assignments through references: each reference is
    assigned once per occurrence. *)
Lemma fold_alter_lookup {A : Type} (f : A -> A) (ms : list ref) :
  forall (store : list A) (j : ref),
    fold_left (fun st m => alter f m st) ms store !! j
    = Nat.iter (count_occ Nat.eq_dec ms j) f <$> store !! j.
Proof.
  induction ms as [| m r IH]; intros store j.
  - cbn. now destruct (store !! j).
  - cbn [fold_left count_occ]. rewrite IH.
    destruct (Nat.eq_dec m j) as [-> | Hne].
    + rewrite list_lookup_alter_eq, <- option_fmap_compose.
      apply option_fmap_ext. intros x. unfold compose.
      now rewrite Nat.iter_swap.
    + now rewrite list_lookup_alter_ne.
Qed.

Lemma count_occ_elem_of (ms : list ref) (j : ref) :
  j ∈ ms <-> (0 < count_occ Nat.eq_dec ms j)%nat.
Proof. rewrite list_elem_of_In. apply count_occ_In. Qed.

Lemma iter_property {A : Type} (f : A -> A) (Q : A -> Prop) (k : nat) (x : A) :
  (forall y, Q (f y)) -> (0 < k)%nat -> Q (Nat.iter k f x).
Proof. intros Hf Hk. destruct k; [lia |]. cbn. apply Hf. Qed.

Lemma iter_invariant {A : Type} (f : A -> A) (Q : A -> Prop) (k : nat) (x : A) :
  (forall y, Q y -> Q (f y)) -> Q x -> Q (Nat.iter k f x).
Proof. intros Hf Hx. induction k; [exact Hx |]. cbn. now apply Hf. Qed.

(** ** Visibility controller *)

Lemma setVisibilityOfChild_visible (v : bool) (o : Object3D) :
  visible (setVisibilityOfChild v o) = v.
Proof.
  unfold setVisibilityOfChild.
  destruct (isMesh (set_visible v o)); [| reflexivity].
  destruct (isDepthMask (set_visible v o)); reflexivity.
Qed.

Lemma setVisibilityOfChild_name (v : bool) (o : Object3D) :
  name (setVisibilityOfChild v o) = name o.
Proof.
  unfold setVisibilityOfChild.
  destruct (isMesh (set_visible v o)); [| reflexivity].
  destruct (isDepthMask (set_visible v o)); reflexivity.
Qed.

Lemma setGroupVisibility_materials (t : Tree) (v : bool) (h : Heap) :
  materials (setGroupVisibility t v h) = materials h.
Proof.
  unfold setGroupVisibility. rewrite traverse_preorder.
  change (materials h) with (materials (updateObject (self t) (set_visible v) h)).
  generalize (updateObject (self t) (set_visible v) h).
  induction (preorder t) as [| n l IH]; intros h1; [reflexivity |].
  cbn [fold_left]. now rewrite IH.
Qed.

Lemma setGroupVisibility_objects (t : Tree) (v : bool) (h : Heap) :
  objects (setGroupVisibility t v h)
  = fold_left (fun st m => alter (setVisibilityOfChild v) m st) (nodes t)
              (alter (set_visible v) (self t) (objects h)).
Proof.
  unfold setGroupVisibility, nodes. rewrite traverse_preorder.
  change (alter (set_visible v) (self t) (objects h))
    with (objects (updateObject (self t) (set_visible v) h)).
  generalize (updateObject (self t) (set_visible v) h).
  induction (preorder t) as [| n l IH]; intros h1; [reflexivity |].
  cbn [fold_left map]. now rewrite IH.
Qed.

Lemma setGroupVisibility_lookup (t : Tree) (v : bool) (h : Heap) (j : ref) :
  objects (setGroupVisibility t v h) !! j
  = Nat.iter (count_occ Nat.eq_dec (nodes t) j) (setVisibilityOfChild v)
      <$> (alter (set_visible v) (self t) (objects h) !! j).
Proof. rewrite setGroupVisibility_objects. apply fold_alter_lookup. Qed.

Lemma setGroupVisibility_outside (t : Tree) (v : bool) (h : Heap) (j : ref) :
  j ∉ nodes t -> objects (setGroupVisibility t v h) !! j = objects h !! j.
Proof.
  intros Hj. rewrite setGroupVisibility_lookup.
  assert (Hne : self t <> j) by (intros <-; apply Hj, self_in_nodes).
  rewrite list_lookup_alter_ne by exact Hne.
  rewrite list_elem_of_In in Hj. apply (count_occ_not_In Nat.eq_dec) in Hj.
  rewrite Hj. now destruct (objects h !! j).
Qed.

Lemma setGroupVisibility_inside (t : Tree) (v : bool) (h : Heap) (j : ref) (o : Object3D) :
  j ∈ nodes t -> objects h !! j = Some o ->
  exists o', objects (setGroupVisibility t v h) !! j = Some o' /\ visible o' = v.
Proof.
  intros Hj Ho. rewrite setGroupVisibility_lookup.
  apply count_occ_elem_of in Hj.
  destruct (alter (set_visible v) (self t) (objects h) !! j) as [o1 |] eqn:Ho1.
  - eexists. split; [reflexivity |].
    apply (iter_property _ (fun x => visible x = v)); [| exact Hj].
    apply setVisibilityOfChild_visible.
  - rewrite list_lookup_alter in Ho1.
    destruct (decide (self t = j)) as [<- |]; rewrite Ho in Ho1; discriminate.
Qed.

Lemma setGroupVisibility_names (t : Tree) (v : bool) (h : Heap) (j : ref) :
  name <$> objects (setGroupVisibility t v h) !! j = name <$> objects h !! j.
Proof.
  rewrite setGroupVisibility_lookup, <- option_fmap_compose.
  rewrite list_lookup_alter.
  destruct (decide (self t = j)) as [<- | _].
  - rewrite <- option_fmap_compose. apply option_fmap_ext. intros o. unfold compose.
    apply (iter_invariant _ (fun x => name x = name o)); [| reflexivity].
    intros y Hy. now rewrite setVisibilityOfChild_name.
  - apply option_fmap_ext. intros o. unfold compose.
    apply (iter_invariant _ (fun x => name x = name o)); [| reflexivity].
    intros y Hy. now rewrite setVisibilityOfChild_name.
Qed.

Lemma ownResolution_names (p : BoatModelProps) (h h' : Heap) (j : ref) :
  name <$> objects h' !! j = name <$> objects h !! j ->
  ownResolution p h' j = ownResolution p h j.
Proof.
  unfold ownResolution. intros H.
  destruct (objects h' !! j), (objects h !! j); cbn in H; try discriminate; [| reflexivity].
  now injection H as ->.
Qed.

Lemma inForce_nodes (own : ref -> option bool) (t : Tree) :
  forall inh, map fst (inForce own inh t) = nodes t.
Proof.
  induction t as [i cs IH] using Tree_ind. intros inh.
  rewrite nodes_TNode. cbn [inForce map fst]. f_equal.
  generalize (match own i with Some v => Some v | None => inh end).
  induction IH as [| c r Hc _ IHr]; intros g; [reflexivity |].
  cbn [flat_map]. now rewrite map_app, Hc, IHr.
Qed.

Lemma inForce_elem_nodes (own : ref -> option bool) (t : Tree) (inh r : option bool) (j : ref) :
  (j, r) ∈ inForce own inh t -> j ∈ nodes t.
Proof.
  intros H. rewrite <- (inForce_nodes own t inh).
  apply list_elem_of_fmap. now exists (j, r).
Qed.

Lemma inForce_none (own : ref -> option bool) (t : Tree) :
  forall inh j, (j, None) ∈ inForce own inh t -> inh = None.
Proof.
  induction t as [i cs IH] using Tree_ind. intros inh j.
  cbn [inForce]. rewrite elem_of_cons. intros [Heq | Hin].
  - injection Heq as _ Hr. destruct (own i); [discriminate | congruence].
  - rewrite list_elem_of_In in Hin. apply in_flat_map in Hin as (c & Hc & Hin).
    rewrite Forall_forall in IH.
    rewrite <- list_elem_of_In in Hc. rewrite <- list_elem_of_In in Hin.
    specialize (IH c Hc _ _ Hin). destruct (own i); [discriminate | exact IH].
Qed.

Lemma groupVisibilityCallback_cases (p : BoatModelProps) (t : Tree) (h : Heap) :
  groupVisibilityCallback p t h
  = match ownResolution p h (self t) with
    | Some v => setGroupVisibility t v h
    | None => h
    end.
Proof.
  unfold groupVisibilityCallback, ownResolution.
  now destruct (objects h !! self t).
Qed.

Lemma groupVisibilityCallback_names (p : BoatModelProps) (t : Tree) (h : Heap) (j : ref) :
  name <$> objects (groupVisibilityCallback p t h) !! j = name <$> objects h !! j.
Proof.
  rewrite groupVisibilityCallback_cases.
  destruct (ownResolution p h (self t)); [apply setGroupVisibility_names | reflexivity].
Qed.

Lemma groupVisibilityCallback_outside (p : BoatModelProps) (t : Tree) (h : Heap) (j : ref) :
  j ∉ nodes t -> objects (groupVisibilityCallback p t h) !! j = objects h !! j.
Proof.
  intros Hj. rewrite groupVisibilityCallback_cases.
  destruct (ownResolution p h (self t)); [now apply setGroupVisibility_outside | reflexivity].
Qed.

Lemma elem_of_flat_map_nodes (own : ref -> option bool) (inh r : option bool)
    (cs : list Tree) (j : ref) :
  (j, r) ∈ flat_map (inForce own inh) cs -> j ∈ flat_map nodes cs.
Proof.
  rewrite !list_elem_of_In, !in_flat_map. intros (c & Hc & Hin).
  exists c. split; [exact Hc |].
  rewrite <- list_elem_of_In in Hin. rewrite <- list_elem_of_In.
  eapply inForce_elem_nodes, Hin.
Qed.

(** The traversal of the children of a node, given the property for each
    child. *)
Lemma visibility_children (p : BoatModelProps) (cs : list Tree) :
  Forall (fun t =>
            forall own inh h,
              NoDup (nodes t) ->
              (forall j, ownResolution p h j = own j) ->
              inheritedApplied inh (nodes t) h ->
              visibilityApplied (nodes t) (inForce own inh t) h
                (traverse (groupVisibilityCallback p) t h)) cs ->
  forall own inh h,
    NoDup (flat_map nodes cs) ->
    (forall j, ownResolution p h j = own j) ->
    inheritedApplied inh (flat_map nodes cs) h ->
    visibilityApplied (flat_map nodes cs) (flat_map (inForce own inh) cs) h
      (fold_left (fun s c => traverse (groupVisibilityCallback p) c s) cs h).
Proof.
  induction 1 as [| c r Hc _ IHr]; intros own inh h Hnd Hown Hpre.
  - cbn. repeat split; try reflexivity.
    intros j r o Hin. inversion Hin.
  - cbn [flat_map fold_left] in *.
    apply NoDup_app in Hnd as (Hndc & Hdisj & Hndr).
    set (h2 := traverse (groupVisibilityCallback p) c h).
    destruct (Hc own inh h Hndc Hown) as (Hn2 & Hout2 & Hin2).
    { intros v j o Hv Hj. apply (Hpre v j o Hv). apply elem_of_app. now left. }
    fold h2 in Hn2, Hout2, Hin2.
    assert (Hsep : forall j, j ∈ flat_map nodes r -> j ∉ nodes c).
    { intros j Hj Hjc. exact (Hdisj j Hjc Hj). }
    destruct (IHr own inh h2 Hndr) as (Hn3 & Hout3 & Hin3).
    { intros j. rewrite <- Hown. apply ownResolution_names, Hn2. }
    { intros v j o Hv Hj Ho. rewrite (Hout2 j (Hsep j Hj)) in Ho.
      apply (Hpre v j o Hv); [| exact Ho]. apply elem_of_app. now right. }
    split; [| split].
    + intros j. now rewrite Hn3, Hn2.
    + intros j Hj. rewrite not_elem_of_app in Hj. destruct Hj as [Hjc Hjr].
      now rewrite (Hout3 j Hjr), (Hout2 j Hjc).
    + intros j g o Hjg Ho. apply elem_of_app in Hjg as [Hjg | Hjg].
      * destruct (Hin2 j g o Hjg Ho) as (o2 & Ho2 & Hv2).
        exists o2. split; [| exact Hv2].
        rewrite Hout3; [exact Ho2 |].
        intros Hjr. apply (Hdisj j); [| exact Hjr].
        eapply inForce_elem_nodes, Hjg.
      * assert (Hjr : j ∈ flat_map nodes r) by (eapply elem_of_flat_map_nodes, Hjg).
        apply (Hin3 j g o Hjg). now rewrite (Hout2 j (Hsep j Hjr)).
Qed.

(** The visibility effect on a well-formed scene: every node ends with the
    resolution in force at it. *)
Lemma visibility_traverse (p : BoatModelProps) (t : Tree) :
  forall own inh h,
    NoDup (nodes t) ->
    (forall j, ownResolution p h j = own j) ->
    inheritedApplied inh (nodes t) h ->
    visibilityApplied (nodes t) (inForce own inh t) h
      (traverse (groupVisibilityCallback p) t h).
Proof.
  induction t as [i cs IH] using Tree_ind. intros own inh h Hnd Hown Hpre.
  cbn [traverse inForce].
  set (r := match own i with Some v => Some v | None => inh end).
  set (h1 := groupVisibilityCallback p (TNode i cs) h).
  assert (Hn1 : forall j, name <$> objects h1 !! j = name <$> objects h !! j)
    by (intros j; apply groupVisibilityCallback_names).
  assert (Hout1 : forall j, j ∉ nodes (TNode i cs) -> objects h1 !! j = objects h !! j)
    by (intros j; apply groupVisibilityCallback_outside).
  assert (Hin1 : forall j o, j ∈ nodes (TNode i cs) -> objects h !! j = Some o ->
                   exists o1, objects h1 !! j = Some o1 /\ visible o1 = default (visible o) r).
  { intros j o Hj Ho. unfold h1. rewrite groupVisibilityCallback_cases, Hown.
    cbn [self]. subst r. destruct (own i) as [v |].
    - now apply setGroupVisibility_inside with (o := o).
    - exists o. split; [exact Ho |].
      destruct inh as [v |]; cbn; [| reflexivity].
      now apply (Hpre v j o). }
  rewrite nodes_TNode in *. apply NoDup_cons in Hnd as [Hi Hndcs].
  destruct (visibility_children p cs IH own r h1 Hndcs) as (Hn2 & Hout2 & Hin2).
  { intros j. rewrite <- Hown. apply ownResolution_names, Hn1. }
  { intros v j o1 Hv Hj Ho1.
    assert (Hjn : j ∈ i :: flat_map nodes cs) by (right; exact Hj).
    destruct (objects h !! j) as [o |] eqn:Ho.
    - destruct (Hin1 j o Hjn Ho) as (o1' & Ho1' & Hvis).
      rewrite Ho1 in Ho1'. injection Ho1' as <-. now rewrite Hvis, Hv.
    - specialize (Hn1 j). rewrite Ho1, Ho in Hn1. discriminate. }
  split; [| split].
  - intros j. now rewrite Hn2, Hn1.
  - intros j Hj. rewrite not_elem_of_cons in Hj. destruct Hj as [Hji Hjcs].
    rewrite (Hout2 j Hjcs). apply Hout1. rewrite not_elem_of_cons. now split.
  - intros j g o Hjg Ho. apply elem_of_cons in Hjg as [Heq | Hjg].
    + injection Heq as -> ->.
      destruct (Hin1 i o) as (o1 & Ho1 & Hv1); [left | exact Ho |].
      exists o1. split; [| exact Hv1]. now rewrite (Hout2 i Hi).
    + assert (Hjcs : j ∈ flat_map nodes cs) by (eapply elem_of_flat_map_nodes, Hjg).
      destruct (Hin1 j o) as (o1 & Ho1 & Hv1); [now right | exact Ho |].
      destruct (Hin2 j g o1 Hjg Ho1) as (o2 & Ho2 & Hv2).
      exists o2. split; [exact Ho2 |]. rewrite Hv2.
      destruct g as [v |]; [reflexivity |]. cbn.
      rewrite Hv1.
      assert (Hr : r = None).
      { rewrite list_elem_of_In in Hjg. apply in_flat_map in Hjg as (c & _ & Hc).
        rewrite <- list_elem_of_In in Hc. eapply inForce_none, Hc. }
      now rewrite Hr.
Qed.

(** *** Resolution of a node by itself *)


Lemma resolveVisibility_mapped (p : BoatModelProps) (childName : string) :
  autoManaged childName = false ->
  resolveVisibility p childName =
    if negb (JS.truthy childName) then None
    else
      match findMapping (groupVisibilityMappings p) childName
                        (getBaseModelId (modelId p)) with
      | Some mapping =>
          if hiddenByDefault mapping then
            match linkedOptionId mapping with
            | Some optionId =>
                if JS.truthy optionId
                then Some (JS.includes (selectedOptions p) optionId)
                else Some false
            | None => Some false
            end
          else Some true
      | None => None
      end.
Proof.
  unfold autoManaged, resolveVisibility. intros Hauto.
  apply orb_false_elim in Hauto as [-> ->]. reflexivity.
Qed.

(** C3. For each base/electric pair of the supported set (2.9 with 2.9E, 3.3
    with 3.3E), whatever the mapping table and the selected options, a node
    that is not auto-managed resolves to the same visibility under the base
    model id and under its electric variant. *)
Theorem variant_sharing (p : BoatModelProps) (childName base electric : string) :
  In (base, electric) [("2.9", "2.9E"); ("3.3", "3.3E")] ->
  autoManaged childName = false ->
  getBaseModelId base = getBaseModelId electric /\
  resolveVisibility (withModelId base p) childName
  = resolveVisibility (withModelId electric p) childName.
Proof.
  intros Hpair Hauto.
  assert (Hbase : getBaseModelId base = getBaseModelId electric).
  { destruct Hpair as [[= <- <-] | [[= <- <-] | []]]; reflexivity. }
  split; [exact Hbase |].
  rewrite !resolveVisibility_mapped by exact Hauto.
  cbn [withModelId modelId groupVisibilityMappings selectedOptions].
  now rewrite Hbase.
Qed.

Lemma variant_sharing_witness :
  resolveVisibility
    (withModelId "2.9"
       (mkProps EmptyString "#FFFFFF" fiberglass false white None
                [mkMapping "sun_roof" "2.9" true (Some "roof")] ["roof"]))
    "sun_roof"
  = resolveVisibility
      (withModelId "2.9E"
         (mkProps EmptyString "#FFFFFF" fiberglass false white None
                  [mkMapping "sun_roof" "2.9" true (Some "roof")] ["roof"]))
      "sun_roof".
Proof.
  apply (variant_sharing _ "sun_roof" "2.9" "2.9E").
  - simpl. left. reflexivity.
  - reflexivity.
Defined.

Lemma inForce_own (own : ref -> option bool) (t : Tree) :
  forall inh j r v, (j, r) ∈ inForce own inh t -> own j = Some v -> r = Some v.
Proof.
  induction t as [i cs IH] using Tree_ind. intros inh j r v.
  cbn [inForce]. rewrite elem_of_cons. intros [Heq | Hin] Hv.
  - injection Heq as -> ->. now rewrite Hv.
  - rewrite list_elem_of_In in Hin. apply in_flat_map in Hin as (c & Hc & Hin).
    rewrite Forall_forall in IH.
    rewrite <- list_elem_of_In in Hc. rewrite <- list_elem_of_In in Hin.
    exact (IH c Hc _ _ _ _ Hin Hv).
Qed.

Lemma nodes_inForce (own : ref -> option bool) (inh : option bool) (t : Tree) (j : ref) :
  j ∈ nodes t -> exists r, (j, r) ∈ inForce own inh t.
Proof.
  rewrite <- (inForce_nodes own t inh). intros Hj.
  apply list_elem_of_fmap in Hj as ([j' r] & -> & Hin). now exists r.
Qed.

(** The effect on a well-formed scene, from the heap it starts with. *)
Lemma applyGroupVisibility_in_force (p : BoatModelProps) (scene : Tree) (h : Heap)
    (j : ref) (r : option bool) (o : Object3D) :
  wellFormed scene ->
  (j, r) ∈ inForce (ownResolution p h) None scene ->
  objects h !! j = Some o ->
  exists o', objects (applyGroupVisibility p scene h) !! j = Some o' /\
             name o' = name o /\
             visible o' = default (visible o) r.
Proof.
  intros Hwf Hin Ho.
  destruct (visibility_traverse p scene (ownResolution p h) None h Hwf)
    as (Hn & _ & Hv).
  - reflexivity.
  - intros v j' o' Hv. discriminate.
  - destruct (Hv j r o Hin Ho) as (o' & Ho' & Hvis).
    exists o'. repeat split; [exact Ho' | | exact Hvis].
    specialize (Hn j). unfold applyGroupVisibility in Hn |- *.
    rewrite Ho', Ho in Hn. now injection Hn.
Qed.

(** C1 (amended). In a well-formed scene, for a named node that is not
    auto-managed, with the mapping found for (its name, the model id without
    the electric suffix): no mapping leaves the node with the resolution in
    force at it, the one of its nearest resolved ancestor, or with its old
    visibility when there is none; [hiddenByDefault = false] makes it
    visible; [hiddenByDefault = true] with a linked option makes it visible
    exactly when the option is selected; [hiddenByDefault = true] without
    linked option hides it.  A resolution reaches the descendants of its
    node that have none of their own. *)
Theorem group_visibility_resolved (p : BoatModelProps) (scene : Tree) (h : Heap)
    (j : ref) (r : option bool) (o : Object3D) :
  wellFormed scene ->
  (j, r) ∈ inForce (ownResolution p h) None scene ->
  objects h !! j = Some o ->
  JS.truthy (name o) = true ->
  autoManaged (name o) = false ->
  exists o',
    objects (applyGroupVisibility p scene h) !! j = Some o' /\
    match findMapping (groupVisibilityMappings p) (name o)
                      (getBaseModelId (modelId p)) with
    | None => visible o' = default (visible o) r
    | Some mapping =>
        if hiddenByDefault mapping then
          match linkedOptionId mapping with
          | Some optionId =>
              if JS.truthy optionId
              then visible o' = JS.includes (selectedOptions p) optionId
              else visible o' = false
          | None => visible o' = false
          end
        else visible o' = true
    end.
Proof.
  intros Hwf Hin Ho Hnamed Hauto.
  destruct (applyGroupVisibility_in_force p scene h j r o Hwf Hin Ho)
    as (o' & Ho' & _ & Hvis).
  exists o'. split; [exact Ho' |].
  assert (Hown : ownResolution p h j = resolveVisibility p (name o))
    by (unfold ownResolution; now rewrite Ho).
  rewrite (resolveVisibility_mapped p (name o) Hauto), Hnamed in Hown.
  cbn [negb] in Hown.
  destruct (findMapping (groupVisibilityMappings p) (name o)
                        (getBaseModelId (modelId p))) as [mapping |];
    [| exact Hvis].
  assert (Hr : forall v, ownResolution p h j = Some v -> visible o' = v).
  { intros v Hv. rewrite (inForce_own _ _ _ _ _ _ Hin Hv) in Hvis. exact Hvis. }
  destruct (hiddenByDefault mapping); [| now apply Hr].
  destruct (linkedOptionId mapping) as [optionId |]; [| now apply Hr].
  destruct (JS.truthy optionId); now apply Hr.
Qed.

Lemma group_visibility_resolved_witness :
  exists o',
    objects (applyGroupVisibility seatsHidden deckScene deckHeap) !! 1 = Some o' /\
    visible o' = false.
Proof.
  destruct (group_visibility_resolved seatsHidden deckScene deckHeap 1 (Some false)
              (group "seats")) as (o' & Ho' & Hv).
  - unfold wellFormed. apply (bool_decide_unpack _). vm_compute. exact I.
  - apply (bool_decide_unpack _). vm_compute. exact I.
  - reflexivity.
  - reflexivity.
  - reflexivity.
  - exists o'. split; [exact Ho' | exact Hv].
Defined.

(** C1, as stated, fails: the mesh [cushion] is named, not auto-managed and
    has no mapping, and the effect leaves it hidden, below the hidden group
    [seats]. *)
Lemma unmapped_node_hidden_below_hidden_group :
  (name <$> objects deckHeap !! 2) = Some "cushion" /\
  (visible <$> objects deckHeap !! 2) = Some true /\
  autoManaged "cushion" = false /\
  findMapping (groupVisibilityMappings seatsHidden) "cushion"
              (getBaseModelId (modelId seatsHidden)) = None /\
  (visible <$> objects (applyGroupVisibility seatsHidden deckScene deckHeap) !! 2)
  = Some false.
Proof. vm_compute. repeat split; reflexivity. Qed.

(** C2. In a well-formed scene the nodes named [el_motor] and
    [battary_V_4_new] end visible exactly when the model id ends with [E],
    whatever the mapping table and the selected options; on the supported
    model ids that is for 2.9E and 3.3E. *)
Theorem auto_managed_visibility (p : BoatModelProps) (scene : Tree) (h : Heap)
    (j : ref) (o : Object3D) :
  wellFormed scene ->
  j ∈ nodes scene ->
  objects h !! j = Some o ->
  name o = "el_motor" \/ name o = "battary_V_4_new" ->
  exists o',
    objects (applyGroupVisibility p scene h) !! j = Some o' /\
    visible o' = JS.endsWith (modelId p) "E" /\
    (In (modelId p) DEFAULT_MODEL_IDS ->
     (visible o' = true <-> modelId p = "2.9E" \/ modelId p = "3.3E")).
Proof.
  intros Hwf Hj Ho Hname.
  destruct (nodes_inForce (ownResolution p h) None scene j Hj) as (r & Hin).
  destruct (applyGroupVisibility_in_force p scene h j r o Hwf Hin Ho)
    as (o' & Ho' & _ & Hvis).
  assert (Hown : ownResolution p h j = Some (JS.endsWith (modelId p) "E")).
  { unfold ownResolution. rewrite Ho.
    destruct Hname as [-> | ->]; reflexivity. }
  rewrite (inForce_own _ _ _ _ _ _ Hin Hown) in Hvis. cbn in Hvis.
  exists o'. split; [exact Ho' |]. split; [exact Hvis |].
  rewrite Hvis. intros Hm. cbn in Hm.
  destruct Hm as [<- | [<- | [<- | [<- | []]]]].
  - split; [discriminate | intros [H | H]; discriminate].
  - split; [now left | reflexivity].
  - split; [discriminate | intros [H | H]; discriminate].
  - split; [now right | reflexivity].
Qed.

Lemma auto_managed_visibility_witness :
  exists o',
    objects (applyGroupVisibility (withModelId "2.9E" seatsHidden) deckScene deckHeap) !! 3
    = Some o' /\
    visible o' = true.
Proof.
  destruct (auto_managed_visibility (withModelId "2.9E" seatsHidden) deckScene deckHeap 3
              (group "el_motor")) as (o' & Ho' & Hv & _).
  - unfold wellFormed. apply (bool_decide_unpack _). vm_compute. exact I.
  - apply (bool_decide_unpack _). vm_compute. exact I.
  - reflexivity.
  - left. reflexivity.
  - exists o'. split; [exact Ho' | exact Hv].
Defined.

(** ** Material mapping engine *)

Lemma forEachMaterial_lookup (f : Material -> Material) (mats : list ref)
    (store : list Material) (m : ref) :
  forEachMaterial f mats store !! m
  = Nat.iter (count_occ Nat.eq_dec mats m) f <$> store !! m.
Proof. apply fold_alter_lookup. Qed.

Lemma applySoftDeck_lookup (p : BoatModelProps) (meshName : string)
    (mats : list ref) (store : list Material) (m : ref) :
  applySoftDeck p meshName mats store !! m
  = softDeckOn p meshName (count_occ Nat.eq_dec mats m) <$> store !! m.
Proof.
  unfold applySoftDeck, softDeckOn.
  destruct (softDeckColor p) as [key |]; [| now destruct (store !! m)].
  destruct (JS.truthy key); [| now destruct (store !! m)].
  destruct (softDeckPalette key) as [softDeckHex stripHex].
  destruct (JS.includes (softDeckMeshes (modelId p)) meshName),
           (JS.includes (stripMeshes (modelId p)) meshName);
    rewrite ?forEachMaterial_lookup, <- ?option_fmap_compose;
    now destruct (store !! m).
Qed.

Lemma colorMesh_lookup (p : BoatModelProps) (oc : OriginalColors) (mesh : Object3D)
    (store : list Material) (m : ref) :
  colorMesh p oc mesh store !! m
  = colorMaterialOn p oc (JS.toLowerCase (name mesh))
      (count_occ Nat.eq_dec (materialsOf (material mesh)) m) <$> store !! m.
Proof.
  unfold colorMesh, colorMaterialOn. rewrite applySoftDeck_lookup.
  destruct (isMaterialTypeMesh (modelId p) (JS.toLowerCase (name mesh)));
    rewrite ?forEachMaterial_lookup, <- ?option_fmap_compose;
    now destruct (store !! m).
Qed.

(** *** The rules on one material *)

Lemma Color_set_parsed (style : string) (c x : Color) :
  parseHexStyle style = Some c -> Color_set style x = c.
Proof. unfold Color_set. now intros ->. Qed.

Lemma hullColorRule_other (p : BoatModelProps) (oc : OriginalColors) (mat : Material) :
  isHullMaterial mat = false -> hullColorRule p oc mat = mat.
Proof.
  unfold isHullMaterial, hullColorRule.
  destruct (isStandard mat); cbn; [| reflexivity]. now intros ->.
Qed.

Lemma hullColorRule_slot (p : BoatModelProps) (oc : OriginalColors) (mat : Material) :
  materialClass (hullColorRule p oc mat) = materialClass mat /\
  materialName (hullColorRule p oc mat) = materialName mat /\
  metalness (hullColorRule p oc mat) = metalness mat /\
  roughness (hullColorRule p oc mat) = roughness mat /\
  opacity (hullColorRule p oc mat) = opacity mat /\
  transparent (hullColorRule p oc mat) = transparent mat.
Proof.
  unfold hullColorRule.
  destruct (isStandard mat); cbn; [| now repeat split].
  destruct (isHullSlot (JS.toLowerCase (materialName mat))); [| now repeat split].
  destruct (useCustomColor p); [now repeat split |].
  destruct (hullColorMode p); now repeat split.
Qed.

Lemma materialTypeRule_slot (p : BoatModelProps) (mat : Material) :
  materialClass (materialTypeRule p mat) = materialClass mat /\
  materialName (materialTypeRule p mat) = materialName mat.
Proof. unfold materialTypeRule. destruct (isStandard mat); now split. Qed.

Lemma accentRule_slot (accentHex : string) (mat : Material) :
  materialClass (accentRule accentHex mat) = materialClass mat /\
  materialName (accentRule accentHex mat) = materialName mat.
Proof. unfold accentRule. destruct (isStandard mat); now split. Qed.

Lemma isHullMaterial_slot (a b : Material) :
  materialClass a = materialClass b -> materialName a = materialName b ->
  isHullMaterial a = isHullMaterial b.
Proof. unfold isHullMaterial, isStandard. now intros -> ->. Qed.

Lemma iter_slot (f : Material -> Material) (k : nat) (mat : Material) :
  (forall x, materialClass (f x) = materialClass x /\ materialName (f x) = materialName x) ->
  materialClass (Nat.iter k f mat) = materialClass mat /\
  materialName (Nat.iter k f mat) = materialName mat.
Proof.
  intros Hf.
  apply (iter_invariant f (fun x => materialClass x = materialClass mat /\
                                    materialName x = materialName mat)).
  - intros y [Hc Hn]. destruct (Hf y) as [-> ->]. now split.
  - now split.
Qed.

Lemma hullColorRule_iter_slot (p : BoatModelProps) (oc : OriginalColors) (k : nat)
    (mat : Material) :
  materialClass (Nat.iter k (hullColorRule p oc) mat) = materialClass mat /\
  materialName (Nat.iter k (hullColorRule p oc) mat) = materialName mat.
Proof.
  apply iter_slot. intros x. destruct (hullColorRule_slot p oc x) as (? & ? & _).
  now split.
Qed.

Lemma softDeckOn_slot (p : BoatModelProps) (meshName : string) (k : nat) (mat : Material) :
  materialClass (softDeckOn p meshName k mat) = materialClass mat /\
  materialName (softDeckOn p meshName k mat) = materialName mat.
Proof.
  unfold softDeckOn.
  destruct (softDeckColor p) as [key |]; [| now split].
  destruct (JS.truthy key); [| now split].
  destruct (softDeckPalette key) as [d s].
  destruct (JS.includes (softDeckMeshes (modelId p)) meshName),
           (JS.includes (stripMeshes (modelId p)) meshName); try now split.
  - destruct (iter_slot (accentRule s) k (Nat.iter k (accentRule d) mat)
                        (accentRule_slot s)) as [-> ->].
    apply iter_slot, accentRule_slot.
  - apply iter_slot, accentRule_slot.
  - apply iter_slot, accentRule_slot.
Qed.

Lemma colorMaterialOn_slot (p : BoatModelProps) (oc : OriginalColors)
    (meshName : string) (k : nat) (mat : Material) :
  materialClass (colorMaterialOn p oc meshName k mat) = materialClass mat /\
  materialName (colorMaterialOn p oc meshName k mat) = materialName mat.
Proof.
  unfold colorMaterialOn.
  destruct (softDeckOn_slot p meshName k
              (if isMaterialTypeMesh (modelId p) meshName
               then Nat.iter k (materialTypeRule p) (Nat.iter k (hullColorRule p oc) mat)
               else Nat.iter k (hullColorRule p oc) mat)) as [-> ->].
  destruct (isMaterialTypeMesh (modelId p) meshName).
  - destruct (iter_slot (materialTypeRule p) k (Nat.iter k (hullColorRule p oc) mat)
                        (materialTypeRule_slot p)) as [-> ->].
    apply hullColorRule_iter_slot.
  - apply hullColorRule_iter_slot.
Qed.

(** *** The mesh lists *)

Lemma includes_elem (l : list string) (x : string) :
  JS.includes l x = true <-> In x l.
Proof.
  unfold JS.includes. rewrite existsb_exists. split.
  - intros (y & Hy & Heq). apply String.eqb_eq in Heq. now subst.
  - intros Hx. exists x. split; [exact Hx | apply String.eqb_refl].
Qed.

Lemma includes_caseInsensitive (x : string) (l : list string) :
  caseInsensitiveMember x l ->
  JS.includes (map JS.toLowerCase l) (JS.toLowerCase x) = true.
Proof.
  intros (y & Hy & Heq). apply includes_elem. rewrite Heq. now apply in_map.
Qed.

Lemma mesh_tables (modelId : string) :
  (softDeckMeshes modelId = map JS.toLowerCase SOFT_DECK_MESHES_29 /\
   stripMeshes modelId = map JS.toLowerCase STRIP_MESHES_29) \/
  (softDeckMeshes modelId = map JS.toLowerCase SOFT_DECK_MESHES_33 /\
   stripMeshes modelId = map JS.toLowerCase STRIP_MESHES_33) \/
  (softDeckMeshes modelId = [] /\ stripMeshes modelId = []).
Proof.
  unfold softDeckMeshes, stripMeshes, tableOrEmpty,
    SOFT_DECK_MESHES_BY_MODEL, STRIP_MESHES_BY_MODEL.
  cbn [tableLookup].
  destruct (String.eqb "2.9" modelId); [now left |].
  destruct (String.eqb "2.9E" modelId); [now left |].
  destruct (String.eqb "3.3" modelId); [now right; left |].
  destruct (String.eqb "3.3E" modelId); [now right; left |].
  now right; right.
Qed.

(** The soft deck list and the strip list of a model have no name in
    common. *)
Lemma deck_strip_disjoint (modelId meshName : string) :
  JS.includes (softDeckMeshes modelId) meshName = true ->
  JS.includes (stripMeshes modelId) meshName = false.
Proof.
  destruct (mesh_tables modelId) as [[-> ->] | [[-> ->] | [-> ->]]];
    [| | discriminate];
    rewrite includes_elem; intros Hin; vm_compute in Hin;
    repeat (destruct Hin as [<- | Hin]; [reflexivity |]); destruct Hin.
Qed.

Lemma hullColorRule_color (p : BoatModelProps) (oc : OriginalColors) (mat : Material) :
  isHullMaterial mat = true ->
  color (hullColorRule p oc mat)
  = if useCustomColor p then Color_set (hullColor p) (color mat)
    else match hullColorMode p with
         | white => default (Color_new "#ECECE8") (originalWhite oc)
         | grey => default (Color_new "#9EA0A1") (originalGrey oc)
         end.
Proof.
  unfold isHullMaterial, hullColorRule. intros H.
  apply andb_true_iff in H as [-> ->]. cbn [negb].
  destruct (useCustomColor p); [reflexivity |].
  now destruct (hullColorMode p).
Qed.

Lemma hull_iter_is_hull (p : BoatModelProps) (oc : OriginalColors) (k : nat) (mat : Material) :
  isHullMaterial (Nat.iter k (hullColorRule p oc) mat) = isHullMaterial mat.
Proof.
  destruct (hullColorRule_iter_slot p oc k mat) as [Hc Hn].
  now apply isHullMaterial_slot.
Qed.

Lemma capture_keeps (mat : Material) (oc : OriginalColors) :
  (forall c, originalWhite oc = Some c -> originalWhite (captureMaterial mat oc) = Some c) /\
  (forall c, originalGrey oc = Some c -> originalGrey (captureMaterial mat oc) = Some c).
Proof.
  unfold captureMaterial. split; intros c Hc.
  - destruct (isStandard mat); cbn [negb]; [| exact Hc].
    rewrite Hc. cbn [notCaptured]. rewrite andb_false_r.
    now destruct (_ && _).
  - destruct (isStandard mat); cbn [negb]; [| exact Hc].
    rewrite Hc. cbn [notCaptured]. rewrite andb_false_r.
    now destruct (_ && _).
Qed.

(** *** The colour snapshot *)

Lemma captureAll_white (mats : list Material) :
  forall oc,
    originalWhite (captureAll mats oc)
    = match originalWhite oc with
      | Some c => Some c
      | None => color <$> List.find (namedStandard "hull_white") mats
      end.
Proof.
  unfold captureAll.
  induction mats as [| mat mats IH]; intros oc; cbn [fold_left List.find].
  - now destruct (originalWhite oc).
  - rewrite IH. unfold captureMaterial, namedStandard.
    destruct (isStandard mat); cbn [negb andb]; [| reflexivity].
    destruct (String.eqb (JS.toLowerCase (materialName mat)) "hull_white") eqn:Ew;
      cbn [andb].
    + destruct (originalWhite oc) as [c |] eqn:Eo; cbn [notCaptured originalWhite].
      * apply String.eqb_eq in Ew. rewrite Ew. cbn [String.eqb Ascii.eqb Bool.eqb andb].
        now rewrite Eo.
      * reflexivity.
    + destruct (_ && _); cbn [originalWhite]; reflexivity.
Qed.

Lemma captureAll_grey (mats : list Material) :
  forall oc,
    originalGrey (captureAll mats oc)
    = match originalGrey oc with
      | Some c => Some c
      | None => color <$> List.find (namedStandard "hull_grey") mats
      end.
Proof.
  unfold captureAll.
  induction mats as [| mat mats IH]; intros oc; cbn [fold_left List.find].
  - now destruct (originalGrey oc).
  - rewrite IH. unfold captureMaterial, namedStandard.
    destruct (isStandard mat); cbn [negb andb]; [| reflexivity].
    destruct (String.eqb (JS.toLowerCase (materialName mat)) "hull_white") eqn:Ew;
      cbn [andb].
    + apply String.eqb_eq in Ew. rewrite Ew.
      cbn [String.eqb Ascii.eqb Bool.eqb andb].
      destruct (notCaptured (originalWhite oc)); cbn [originalGrey]; reflexivity.
    + destruct (String.eqb (JS.toLowerCase (materialName mat)) "hull_grey") eqn:Eg;
        cbn [andb]; [| reflexivity].
      destruct (originalGrey oc) as [c |] eqn:Eo; cbn [notCaptured originalGrey].
      * now rewrite Eo.
      * reflexivity.
Qed.

Lemma captureOriginalColors_captureAll (scene : Tree) (h : Heap) :
  captureOriginalColors scene h
  = captureAll (visitedMaterials scene h) (mkOriginalColors None None).
Proof.
  unfold captureOriginalColors, visitedMaterials, captureAll.
  rewrite traverse_preorder.
  generalize (mkOriginalColors None None).
  induction (preorder scene) as [| n ns IH]; intros oc; [reflexivity |].
  cbn [fold_left flat_map]. rewrite fold_left_app, IH. f_equal.
  destruct (objects h !! self n) as [o |]; [| reflexivity].
  destruct (isMesh o); cbn [negb]; [| reflexivity].
  generalize oc. clear.
  induction (materialsOf (material o)) as [| m ms IHm]; intros oc; [reflexivity |].
  cbn [fold_left flat_map]. rewrite fold_left_app, IHm.
  now destruct (materials h !! m).
Qed.

(** C4. The snapshot of the original colours taken when the scene was
    loaded holds, for each of the two hull slots, the colour of the first
    standard material of that name (in any case of letters) among the
    materials of the meshes of the scene, and nothing when there is none;
    a captured colour is never captured again.  When the hull colour rule
    then runs over the materials of a mesh, every hull slot among them (a
    standard material named hull_white or hull_grey) gets the override
    colour if the custom override is active; otherwise the white colour of
    the snapshot in white mode and its grey colour in grey mode, or #ECECE8
    and #9EA0A1 when the snapshot has no such colour. *)
Theorem hull_color_rule (p : BoatModelProps) (scene : Tree) (loaded : Heap)
    (mats : list ref) (store : list Material) (m : ref) (mat : Material) :
  m ∈ mats ->
  store !! m = Some mat ->
  isHullMaterial mat = true ->
  let oc := captureOriginalColors scene loaded in
  let firstWhite := List.find (namedStandard "hull_white") (visitedMaterials scene loaded) in
  let firstGrey := List.find (namedStandard "hull_grey") (visitedMaterials scene loaded) in
  originalWhite oc = color <$> firstWhite /\
  originalGrey oc = color <$> firstGrey /\
  (exists mat',
      forEachMaterial (hullColorRule p oc) mats store !! m = Some mat' /\
      (useCustomColor p = true ->
       forall c, parseHexStyle (hullColor p) = Some c -> color mat' = c) /\
      (useCustomColor p = false -> hullColorMode p = white ->
       color mat' = default (ColorHex 0xECECE8) (color <$> firstWhite)) /\
      (useCustomColor p = false -> hullColorMode p = grey ->
       color mat' = default (ColorHex 0x9EA0A1) (color <$> firstGrey))) /\
  (forall other c, originalWhite oc = Some c ->
                   originalWhite (captureMaterial other oc) = Some c) /\
  (forall other c, originalGrey oc = Some c ->
                   originalGrey (captureMaterial other oc) = Some c).
Proof.
  intros Hm Hmat Hhull. cbn zeta.
  assert (Hwhite : originalWhite (captureOriginalColors scene loaded)
                   = color <$> List.find (namedStandard "hull_white")
                                 (visitedMaterials scene loaded)).
  { now rewrite captureOriginalColors_captureAll, captureAll_white. }
  assert (Hgrey : originalGrey (captureOriginalColors scene loaded)
                  = color <$> List.find (namedStandard "hull_grey")
                                (visitedMaterials scene loaded)).
  { now rewrite captureOriginalColors_captureAll, captureAll_grey. }
  split; [exact Hwhite |]. split; [exact Hgrey |].
  split; [| split; intros other; apply capture_keeps].
  rewrite forEachMaterial_lookup, Hmat. cbn [fmap option_fmap option_map].
  apply count_occ_elem_of in Hm.
  destruct (count_occ Nat.eq_dec mats m) as [| k]; [lia |]. clear Hm.
  eexists. split; [reflexivity |].
  cbn [Nat.iter nat_rect].
  change (nat_rect (fun _ => Material) mat
            (fun _ => hullColorRule p (captureOriginalColors scene loaded)) k)
    with (Nat.iter k (hullColorRule p (captureOriginalColors scene loaded)) mat).
  rewrite hullColorRule_color by (now rewrite hull_iter_is_hull).
  rewrite Hwhite, Hgrey.
  split; [| split].
  - intros -> c Hc. now apply Color_set_parsed.
  - intros -> ->. reflexivity.
  - intros -> ->. reflexivity.
Qed.

Lemma hull_color_rule_witness :
  exists mat',
    forEachMaterial
      (hullColorRule seatsHidden
         (captureOriginalColors cachedScene
            (mkHeap [group "Scene"; meshOf "hull" (SingleMaterial 0)]
                    [standardMaterial "Hull_White" 0x112233])))
      [0] [standardMaterial "Hull_White" 0xFF6B00] !! 0 = Some mat' /\
    color mat' = ColorHex 0x112233.
Proof.
  destruct (hull_color_rule seatsHidden cachedScene
              (mkHeap [group "Scene"; meshOf "hull" (SingleMaterial 0)]
                      [standardMaterial "Hull_White" 0x112233])
              [0] [standardMaterial "Hull_White" 0xFF6B00] 0
              (standardMaterial "Hull_White" 0xFF6B00))
    as (_ & _ & (mat' & Hmat' & _ & Hwhite & _) & _).
  - apply (bool_decide_unpack _). vm_compute. exact I.
  - reflexivity.
  - reflexivity.
  - exists mat'. split; [exact Hmat' |]. now apply Hwhite.
Defined.

(** *** Soft deck and strip colours *)

Lemma softDeckPalette_valid (key : string) :
  exists cd cs,
    parseHexStyle (fst (softDeckPalette key)) = Some cd /\
    parseHexStyle (snd (softDeckPalette key)) = Some cs.
Proof.
  unfold softDeckPalette.
  destruct (String.eqb (JS.toUpperCase key) "#9D622BFF"); [now eexists _, _ |].
  destruct (String.eqb (JS.toUpperCase key) "#BCBCBCFF"); [now eexists _, _ |].
  destruct (String.eqb (JS.toUpperCase key) "#95070BFF"); now eexists _, _.
Qed.

Lemma accentRule_iter_color (accentHex : string) (c : Color) (k : nat) (mat : Material) :
  parseHexStyle accentHex = Some c ->
  isStandard mat = true ->
  color (Nat.iter (S k) (accentRule accentHex) mat) = c.
Proof.
  intros Hc Hstd. cbn [Nat.iter nat_rect].
  change (nat_rect (fun _ => Material) mat (fun _ => accentRule accentHex) k)
    with (Nat.iter k (accentRule accentHex) mat).
  destruct (iter_slot (accentRule accentHex) k mat (accentRule_slot accentHex))
    as [Hclass _].
  unfold accentRule at 1. unfold isStandard in *. rewrite Hclass, Hstd.
  cbn. now apply Color_set_parsed.
Qed.

Lemma colorMaterialOn_standard (p : BoatModelProps) (oc : OriginalColors)
    (meshName : string) (k : nat) (mat : Material) :
  isStandard mat = true ->
  isStandard (if isMaterialTypeMesh (modelId p) meshName
              then Nat.iter k (materialTypeRule p) (Nat.iter k (hullColorRule p oc) mat)
              else Nat.iter k (hullColorRule p oc) mat) = true.
Proof.
  intros Hstd. unfold isStandard in *.
  destruct (isMaterialTypeMesh (modelId p) meshName).
  - destruct (iter_slot (materialTypeRule p) k (Nat.iter k (hullColorRule p oc) mat)
                        (materialTypeRule_slot p)) as [-> _].
    destruct (hullColorRule_iter_slot p oc k mat) as [-> _]. exact Hstd.
  - destruct (hullColorRule_iter_slot p oc k mat) as [-> _]. exact Hstd.
Qed.

(** C7. A provided key is compared in upper case with the three keys:
    #9D622BFF gives (#9D622B, #FFFDFC), #BCBCBCFF gives (#939393, #FFFDFC),
    #95070BFF gives (#939393, #95070B), any other key the first pair.  After
    the rules ran on a mesh whose name is, up to case, in the soft deck list
    of the model, its standard materials have the deck colour; for a name
    in the strip list, the strip colour. *)
Theorem soft_deck_palette_applied (p : BoatModelProps) (oc : OriginalColors)
    (key : string) (mesh : Object3D) (store : list Material) :
  softDeckColor p = Some key ->
  JS.truthy key = true ->
  (JS.toUpperCase key = "#9D622BFF" -> softDeckPalette key = ("#9D622B", "#FFFDFC")) /\
  (JS.toUpperCase key = "#BCBCBCFF" -> softDeckPalette key = ("#939393", "#FFFDFC")) /\
  (JS.toUpperCase key = "#95070BFF" -> softDeckPalette key = ("#939393", "#95070B")) /\
  (JS.toUpperCase key <> "#9D622BFF" -> JS.toUpperCase key <> "#BCBCBCFF" ->
   JS.toUpperCase key <> "#95070BFF" -> softDeckPalette key = ("#9D622B", "#FFFDFC")) /\
  (forall m mat,
      m ∈ materialsOf (material mesh) -> store !! m = Some mat -> isStandard mat = true ->
      (caseInsensitiveMember (name mesh)
         (tableOrEmpty SOFT_DECK_MESHES_BY_MODEL (modelId p)) ->
       exists mat', colorMesh p oc mesh store !! m = Some mat' /\
                    Some (color mat') = parseHexStyle (fst (softDeckPalette key))) /\
      (caseInsensitiveMember (name mesh)
         (tableOrEmpty STRIP_MESHES_BY_MODEL (modelId p)) ->
       exists mat', colorMesh p oc mesh store !! m = Some mat' /\
                    Some (color mat') = parseHexStyle (snd (softDeckPalette key)))).
Proof.
  intros Hkey Htruthy.
  split; [| split; [| split; [| split]]].
  - unfold softDeckPalette. now intros ->.
  - unfold softDeckPalette. now intros ->.
  - unfold softDeckPalette. now intros ->.
  - unfold softDeckPalette. intros H1 H2 H3.
    apply String.eqb_neq in H1, H2, H3. now rewrite H1, H2, H3.
  - intros m mat Hm Hmat Hstd.
    apply count_occ_elem_of in Hm.
    destruct (count_occ Nat.eq_dec (materialsOf (material mesh)) m) as [| k] eqn:Hk;
      [lia |]. clear Hm.
    destruct (softDeckPalette_valid key) as (cd & cs & Hcd & Hcs).
    pose proof (colorMaterialOn_standard p oc (JS.toLowerCase (name mesh)) (S k) mat Hstd)
      as Hstd2.
    split; intros Hmember; apply includes_caseInsensitive in Hmember;
      rewrite colorMesh_lookup, Hk, Hmat; cbn [fmap option_fmap option_map];
      eexists; (split; [reflexivity |]);
      unfold colorMaterialOn, softDeckOn; rewrite Hkey, Htruthy;
      destruct (softDeckPalette key) as [d s]; cbn [fst snd] in *;
      set (mat2 := if isMaterialTypeMesh _ _ then _ else _) in *.
    + fold (softDeckMeshes (modelId p)) in Hmember.
      rewrite Hmember, (deck_strip_disjoint _ _ Hmember).
      now rewrite (accentRule_iter_color d cd k _ Hcd Hstd2).
    + fold (stripMeshes (modelId p)) in Hmember. rewrite Hmember.
      rewrite (accentRule_iter_color s cs k _ Hcs); [now rewrite Hcs |].
      destruct (JS.includes (softDeckMeshes (modelId p)) (JS.toLowerCase (name mesh)));
        [| exact Hstd2].
      unfold isStandard in *.
      now destruct (iter_slot (accentRule d) (S k) mat2 (accentRule_slot d)) as [-> _].
Qed.

Lemma soft_deck_palette_applied_witness :
  exists mat',
    colorMesh greyDeck (mkOriginalColors None None)
              (meshOf "Mesh304" (SingleMaterial 0))
              [standardMaterial "deck" 0x112233] !! 0 = Some mat' /\
    Some (color mat') = Some (ColorHex 0x939393).
Proof.
  destruct (soft_deck_palette_applied greyDeck (mkOriginalColors None None)
              "#bcbcbcff" (meshOf "Mesh304" (SingleMaterial 0))
              [standardMaterial "deck" 0x112233] eq_refl eq_refl)
    as (_ & _ & _ & _ & Hmesh).
  destruct (Hmesh 0 (standardMaterial "deck" 0x112233)) as [Hdeck _].
  - apply (bool_decide_unpack _). vm_compute. exact I.
  - reflexivity.
  - reflexivity.
  - apply Hdeck. exists "mesh304". split; [| reflexivity].
    vm_compute. left. reflexivity.
Defined.

(** *** The soft deck rule without key *)

Lemma softDeckOn_skipped (p : BoatModelProps) (meshName : string) (k : nat) (mat : Material) :
  softDeckColor p = None -> softDeckOn p meshName k mat = mat.
Proof. unfold softDeckOn. now intros ->. Qed.

Lemma hullColorRule_iter_fields (p : BoatModelProps) (oc : OriginalColors) (k : nat)
    (mat : Material) :
  metalness (Nat.iter k (hullColorRule p oc) mat) = metalness mat /\
  roughness (Nat.iter k (hullColorRule p oc) mat) = roughness mat /\
  opacity (Nat.iter k (hullColorRule p oc) mat) = opacity mat /\
  transparent (Nat.iter k (hullColorRule p oc) mat) = transparent mat.
Proof.
  apply (iter_invariant (hullColorRule p oc)
           (fun x => metalness x = metalness mat /\ roughness x = roughness mat /\
                     opacity x = opacity mat /\ transparent x = transparent mat)).
  - intros y (Hm & Hr & Ho & Ht).
    destruct (hullColorRule_slot p oc y) as (_ & _ & -> & -> & -> & ->).
    now repeat split.
  - now repeat split.
Qed.

Lemma hullColorRule_iter_other (p : BoatModelProps) (oc : OriginalColors) (k : nat)
    (mat : Material) :
  isHullMaterial mat = false -> Nat.iter k (hullColorRule p oc) mat = mat.
Proof.
  intros Hother.
  apply (iter_invariant (hullColorRule p oc) (fun x => x = mat)); [| reflexivity].
  intros y ->. now apply hullColorRule_other.
Qed.

Lemma deck_or_strip_not_materialType (modelId meshName : string) :
  JS.includes (softDeckMeshes modelId) meshName = true \/
  JS.includes (stripMeshes modelId) meshName = true ->
  isMaterialTypeMesh modelId meshName = false.
Proof.
  unfold isMaterialTypeMesh. intros [-> | ->]; cbn [negb].
  - now rewrite andb_false_r.
  - now rewrite andb_false_r.
Qed.

(** C10. Without soft deck key the soft deck block changes no material, for
    every mesh and model; the rules then leave the metalness, roughness,
    opacity and transparency of every material of a soft deck or strip mesh
    as they are, and the whole material unless it is a hull slot.  The
    configurator passes no key when the option [soft-deck] is not
    selected. *)
Theorem soft_deck_rule_skipped (p : BoatModelProps) (oc : OriginalColors)
    (mesh : Object3D) (store : list Material) :
  softDeckColor p = None ->
  (forall meshName mats st, applySoftDeck p meshName mats st = st) /\
  (JS.includes (softDeckMeshes (modelId p)) (JS.toLowerCase (name mesh)) = true \/
   JS.includes (stripMeshes (modelId p)) (JS.toLowerCase (name mesh)) = true ->
   forall m mat,
     store !! m = Some mat ->
     exists mat',
       colorMesh p oc mesh store !! m = Some mat' /\
       metalness mat' = metalness mat /\ roughness mat' = roughness mat /\
       opacity mat' = opacity mat /\ transparent mat' = transparent mat /\
       (isHullMaterial mat = false -> mat' = mat)) /\
  (forall optionIds state,
      JS.includes optionIds "soft-deck" = false ->
      softDeckColorProp optionIds state = None).
Proof.
  intros Hnone. split; [| split].
  - intros meshName mats st. unfold applySoftDeck. now rewrite Hnone.
  - intros Hmesh m mat Hmat.
    rewrite colorMesh_lookup, Hmat. cbn [fmap option_fmap option_map].
    eexists. split; [reflexivity |].
    unfold colorMaterialOn.
    rewrite (deck_or_strip_not_materialType _ _ Hmesh).
    rewrite softDeckOn_skipped by exact Hnone.
    destruct (hullColorRule_iter_fields p oc
                (count_occ Nat.eq_dec (materialsOf (material mesh)) m) mat)
      as (-> & -> & -> & ->).
    repeat split. apply hullColorRule_iter_other.
  - intros optionIds state Hopt. unfold softDeckColorProp. now rewrite Hopt.
Qed.

Lemma soft_deck_rule_skipped_witness :
  exists mat',
    colorMesh seatsHidden (mkOriginalColors None None)
              (meshOf "mesh304" (SingleMaterial 0))
              [standardMaterial "deck" 0x112233] !! 0 = Some mat' /\
    mat' = standardMaterial "deck" 0x112233.
Proof.
  destruct (soft_deck_rule_skipped seatsHidden (mkOriginalColors None None)
              (meshOf "mesh304" (SingleMaterial 0))
              [standardMaterial "deck" 0x112233] eq_refl)
    as (_ & Hmesh & _).
  destruct (Hmesh (or_introl eq_refl) 0 (standardMaterial "deck" 0x112233) eq_refl)
    as (mat' & Hmat' & _ & _ & _ & _ & Hsame).
  exists mat'. split; [exact Hmat' | now apply Hsame].
Defined.

(** ** The hull rule and the material-type rule *)

Lemma colorCallback_step (p : BoatModelProps) (oc : OriginalColors) (n : Tree) (h : Heap) :
  objects (colorCallback p oc n h) = objects h /\
  forall m, materials (colorCallback p oc n h) !! m
            = colorNodeOn p oc (objects h) n m <$> materials h !! m.
Proof.
  unfold colorCallback, colorNodeOn.
  destruct (objects h !! self n) as [o |]; [| split; [reflexivity |]].
  - destruct (isMesh o); cbn [negb]; split; try reflexivity.
    + intros m. cbn [materials]. apply colorMesh_lookup.
    + intros m. now destruct (materials h !! m).
  - intros m. now destruct (materials h !! m).
Qed.

Lemma colorPass_fold (p : BoatModelProps) (oc : OriginalColors) (ns : list Tree) :
  forall h,
    objects (fold_left (fun h' n => colorCallback p oc n h') ns h) = objects h /\
    forall m, materials (fold_left (fun h' n => colorCallback p oc n h') ns h) !! m
              = colorPassOn p oc (objects h) ns m <$> materials h !! m.
Proof.
  induction ns as [| n ns IH]; intros h.
  - split; [reflexivity |]. intros m. cbn. now destruct (materials h !! m).
  - cbn [fold_left]. destruct (IH (colorCallback p oc n h)) as [Hobj Hmat].
    destruct (colorCallback_step p oc n h) as [Hobj1 Hmat1].
    split; [now rewrite Hobj |].
    intros m. rewrite Hmat, Hmat1, Hobj1, <- option_fmap_compose.
    now destruct (materials h !! m).
Qed.

Lemma applyColors_objects (p : BoatModelProps) (oc : OriginalColors) (scene : Tree) (h : Heap) :
  objects (applyColors p oc scene h) = objects h.
Proof. unfold applyColors. rewrite traverse_preorder. apply colorPass_fold. Qed.

Lemma applyColors_lookup (p : BoatModelProps) (oc : OriginalColors) (scene : Tree)
    (h : Heap) (m : ref) :
  materials (applyColors p oc scene h) !! m
  = colorPassOn p oc (objects h) (preorder scene) m <$> materials h !! m.
Proof. unfold applyColors. rewrite traverse_preorder. apply colorPass_fold. Qed.

Lemma materialTypeRule_ext (p p' : BoatModelProps) (mat : Material) :
  materialType p = materialType p' -> materialTypeRule p mat = materialTypeRule p' mat.
Proof. unfold materialTypeRule. now intros ->. Qed.

Lemma iter_ext {A : Type} (f g : A -> A) (k : nat) (x : A) :
  (forall y, f y = g y) -> Nat.iter k f x = Nat.iter k g x.
Proof.
  intros Hfg. induction k as [| k IH]; [reflexivity |].
  now rewrite !Nat.iter_succ, IH, Hfg.
Qed.

Lemma softDeckOn_ext (p p' : BoatModelProps) (meshName : string) (k : nat) (mat : Material) :
  modelId p = modelId p' -> softDeckColor p = softDeckColor p' ->
  softDeckOn p meshName k mat = softDeckOn p' meshName k mat.
Proof. unfold softDeckOn. now intros -> ->. Qed.

(** A material that is no hull slot is treated alike under all hull
    settings. *)
Lemma colorMaterialOn_other (p p' : BoatModelProps) (oc oc' : OriginalColors)
    (meshName : string) (k : nat) (mat : Material) :
  sameButHull p p' -> isHullMaterial mat = false ->
  colorMaterialOn p oc meshName k mat = colorMaterialOn p' oc' meshName k mat.
Proof.
  intros (Hmodel & Htype & Hdeck) Hother. unfold colorMaterialOn.
  rewrite !hullColorRule_iter_other by exact Hother.
  rewrite <- Hmodel.
  rewrite (iter_ext (materialTypeRule p) (materialTypeRule p') k mat)
    by (intros y; now apply materialTypeRule_ext).
  now apply softDeckOn_ext.
Qed.

Lemma colorNodeOn_slot (p : BoatModelProps) (oc : OriginalColors) (objs : list Object3D)
    (n : Tree) (m : ref) (mat : Material) :
  isHullMaterial (colorNodeOn p oc objs n m mat) = isHullMaterial mat.
Proof.
  unfold colorNodeOn.
  destruct (objs !! self n) as [o |]; [| reflexivity].
  destruct (isMesh o); cbn [negb]; [| reflexivity].
  destruct (colorMaterialOn_slot p oc (JS.toLowerCase (name o))
              (count_occ Nat.eq_dec (materialsOf (material o)) m) mat) as [Hc Hn].
  now apply isHullMaterial_slot.
Qed.

Lemma colorPassOn_other (p p' : BoatModelProps) (oc oc' : OriginalColors)
    (objs : list Object3D) (ns : list Tree) (m : ref) :
  sameButHull p p' ->
  forall mat, isHullMaterial mat = false ->
              colorPassOn p oc objs ns m mat = colorPassOn p' oc' objs ns m mat.
Proof.
  intros Hsame. unfold colorPassOn.
  induction ns as [| n ns IH]; intros mat Hother; [reflexivity |].
  cbn [fold_left].
  assert (Hstep : colorNodeOn p oc objs n m mat = colorNodeOn p' oc' objs n m mat).
  { unfold colorNodeOn. destruct (objs !! self n) as [o |]; [| reflexivity].
    destruct (isMesh o); cbn [negb]; [| reflexivity].
    now apply colorMaterialOn_other. }
  rewrite <- Hstep. apply IH. now rewrite colorNodeOn_slot.
Qed.

Lemma colorMaterialOn_unbound (p : BoatModelProps) (oc : OriginalColors)
    (meshName : string) (mat : Material) :
  colorMaterialOn p oc meshName 0 mat = mat.
Proof.
  unfold colorMaterialOn, softDeckOn. cbn [Nat.iter nat_rect].
  destruct (isMaterialTypeMesh (modelId p) meshName);
    destruct (softDeckColor p) as [key |]; try reflexivity;
    destruct (JS.truthy key); try reflexivity;
    destruct (softDeckPalette key) as [d s];
    destruct (JS.includes (softDeckMeshes (modelId p)) meshName),
             (JS.includes (stripMeshes (modelId p)) meshName); reflexivity.
Qed.

(** Off the meshes of the material-type list, the material type is not
    read. *)
Lemma colorMaterialOn_materialType (p p' : BoatModelProps) (oc : OriginalColors)
    (meshName : string) (k : nat) (mat : Material) :
  sameButMaterialType p p' ->
  isMaterialTypeMesh (modelId p) meshName = false ->
  colorMaterialOn p oc meshName k mat = colorMaterialOn p' oc meshName k mat.
Proof.
  intros (Hmodel & Hcolor & Hcustom & Hmode & Hdeck) Hmesh. unfold colorMaterialOn.
  rewrite <- Hmodel, Hmesh.
  rewrite (iter_ext (hullColorRule p oc) (hullColorRule p' oc) k mat).
  - now apply softDeckOn_ext.
  - intros y. unfold hullColorRule. now rewrite Hcolor, Hcustom, Hmode.
Qed.

Lemma colorPassOn_hull (p p' : BoatModelProps) (oc : OriginalColors)
    (objs : list Object3D) (ns : list Tree) (m : ref) :
  sameButMaterialType p p' ->
  (forall n o, n ∈ ns -> objs !! self n = Some o -> isMesh o = true ->
               isMaterialTypeMesh (modelId p) (JS.toLowerCase (name o)) = true ->
               m ∉ materialsOf (material o)) ->
  forall mat, colorPassOn p oc objs ns m mat = colorPassOn p' oc objs ns m mat.
Proof.
  intros Hsame. unfold colorPassOn.
  induction ns as [| n ns IH]; intros Hapart mat; [reflexivity |].
  cbn [fold_left].
  assert (Hstep : colorNodeOn p oc objs n m mat = colorNodeOn p' oc objs n m mat).
  { unfold colorNodeOn. destruct (objs !! self n) as [o |] eqn:Ho; [| reflexivity].
    destruct (isMesh o) eqn:Hmesh; cbn [negb]; [| reflexivity].
    destruct (isMaterialTypeMesh (modelId p) (JS.toLowerCase (name o))) eqn:Htype.
    - assert (Hm : m ∉ materialsOf (material o)).
      { apply (Hapart n o); [left | exact Ho | exact Hmesh | exact Htype]. }
      rewrite list_elem_of_In in Hm. apply (count_occ_not_In Nat.eq_dec) in Hm.
      rewrite Hm. now rewrite !colorMaterialOn_unbound.
    - now apply colorMaterialOn_materialType. }
  rewrite <- Hstep. apply IH.
  intros n' o' Hn'. apply Hapart. now right.
Qed.

Lemma materialTypeRule_iter_color (p : BoatModelProps) (k : nat) (mat : Material) :
  isStandard mat = true ->
  color (Nat.iter (S k) (materialTypeRule p) mat)
  = match materialType p with
    | fiberglass => ColorHex 0xC7C7C7
    | fullCarbon => ColorHex 0x0A0C10
    end.
Proof.
  intros Hstd. cbn [Nat.iter nat_rect].
  change (nat_rect (fun _ => Material) mat (fun _ => materialTypeRule p) k)
    with (Nat.iter k (materialTypeRule p) mat).
  destruct (iter_slot (materialTypeRule p) k mat (materialTypeRule_slot p)) as [Hclass _].
  unfold materialTypeRule at 1. unfold isStandard in *. rewrite Hclass, Hstd.
  cbn. now destruct (materialType p).
Qed.

(** *** Running the colour effect again *)

Lemma colorSettled_id (mat0 : Material) : colorSettled mat0 (fun x => x).
Proof. split; [auto | right; auto]. Qed.

Lemma colorSettled_compose (mat0 : Material) (f g : Material -> Material) :
  colorSettled mat0 f -> colorSettled mat0 g -> colorSettled mat0 (fun x => g (f x)).
Proof.
  intros [Hf Hfc] [Hg Hgc]. split; [auto |].
  destruct Hgc as [Hgc | Hgc]; [left; auto |].
  destruct Hfc as [Hfc | Hfc].
  - left. intros x x' Hx Hx'. rewrite !Hgc by auto. auto.
  - right. intros x Hx. rewrite Hgc by auto. auto.
Qed.

Lemma colorSettled_ext (mat0 : Material) (f g : Material -> Material) :
  (forall x, f x = g x) -> colorSettled mat0 f -> colorSettled mat0 g.
Proof.
  intros Hfg [Hf Hfc]. split.
  - intros x Hx. rewrite <- Hfg. auto.
  - destruct Hfc as [Hfc | Hfc]; [left | right].
    + intros x x' Hx Hx'. rewrite <- !Hfg. auto.
    + intros x Hx. rewrite <- Hfg. auto.
Qed.

Lemma colorSettled_iter (mat0 : Material) (f : Material -> Material) (k : nat) :
  colorSettled mat0 f -> colorSettled mat0 (Nat.iter k f).
Proof.
  intros Hf. induction k as [| k IH].
  - apply colorSettled_id.
  - apply (colorSettled_ext mat0 (fun x => f (Nat.iter k f x))); [reflexivity |].
    now apply colorSettled_compose.
Qed.

Lemma colorSettled_idempotent (mat0 : Material) (f : Material -> Material) (x : Material) :
  colorSettled mat0 f -> sameSlot x mat0 -> color (f (f x)) = color (f x).
Proof.
  intros [Hf [Hc | Hc]] Hx; [apply Hc | apply Hc]; auto.
Qed.

Lemma Color_set_settled (style : string) :
  (forall c c', Color_set style c = Color_set style c') \/
  (forall c, Color_set style c = c).
Proof.
  unfold Color_set. destruct (parseHexStyle style); [left | right]; reflexivity.
Qed.

Lemma sameSlot_standard (x y : Material) :
  sameSlot x y -> isStandard x = isStandard y.
Proof. unfold isStandard. now intros [-> _]. Qed.

Lemma sameSlot_hull (x y : Material) :
  sameSlot x y -> isHullMaterial x = isHullMaterial y.
Proof. intros [Hc Hn]. now apply isHullMaterial_slot. Qed.

Lemma hullColorRule_settled (p : BoatModelProps) (oc : OriginalColors) (mat0 : Material) :
  colorSettled mat0 (hullColorRule p oc).
Proof.
  split.
  - intros x [Hc Hn]. destruct (hullColorRule_slot p oc x) as (Hc' & Hn' & _).
    split; congruence.
  - destruct (isHullMaterial mat0) eqn:Hhull.
    + assert (Hcol : forall x, sameSlot x mat0 ->
                color (hullColorRule p oc x)
                = if useCustomColor p then Color_set (hullColor p) (color x)
                  else match hullColorMode p with
                       | white => default (Color_new "#ECECE8") (originalWhite oc)
                       | grey => default (Color_new "#9EA0A1") (originalGrey oc)
                       end).
      { intros x Hx. apply hullColorRule_color. now rewrite (sameSlot_hull x mat0 Hx). }
      destruct (useCustomColor p).
      * destruct (Color_set_settled (hullColor p)) as [Hset | Hset]; [left | right].
        -- intros x x' Hx Hx'. rewrite !Hcol by assumption. apply Hset.
        -- intros x Hx. rewrite Hcol by assumption. apply Hset.
      * left. intros x x' Hx Hx'. now rewrite !Hcol by assumption.
    + right. intros x Hx. rewrite hullColorRule_other; [reflexivity |].
      now rewrite (sameSlot_hull x mat0 Hx).
Qed.

Lemma materialTypeRule_settled (p : BoatModelProps) (mat0 : Material) :
  colorSettled mat0 (materialTypeRule p).
Proof.
  split.
  - intros x [Hc Hn]. destruct (materialTypeRule_slot p x) as (Hc' & Hn').
    split; congruence.
  - destruct (isStandard mat0) eqn:Hstd.
    + left. intros x x' Hx Hx'. unfold materialTypeRule.
      rewrite (sameSlot_standard x mat0 Hx), (sameSlot_standard x' mat0 Hx'), Hstd.
      cbn. now destruct (materialType p).
    + right. intros x Hx. unfold materialTypeRule.
      now rewrite (sameSlot_standard x mat0 Hx), Hstd.
Qed.

Lemma accentRule_settled (accentHex : string) (mat0 : Material) :
  colorSettled mat0 (accentRule accentHex).
Proof.
  split.
  - intros x [Hc Hn]. destruct (accentRule_slot accentHex x) as (Hc' & Hn').
    split; congruence.
  - destruct (isStandard mat0) eqn:Hstd.
    + destruct (Color_set_settled accentHex) as [Hset | Hset]; [left | right].
      * intros x x' Hx Hx'. unfold accentRule.
        rewrite (sameSlot_standard x mat0 Hx), (sameSlot_standard x' mat0 Hx'), Hstd.
        cbn. apply Hset.
      * intros x Hx. unfold accentRule.
        rewrite (sameSlot_standard x mat0 Hx), Hstd. cbn. apply Hset.
    + right. intros x Hx. unfold accentRule.
      now rewrite (sameSlot_standard x mat0 Hx), Hstd.
Qed.

Lemma softDeckOn_settled (p : BoatModelProps) (meshName : string) (k : nat)
    (mat0 : Material) :
  colorSettled mat0 (softDeckOn p meshName k).
Proof.
  unfold softDeckOn.
  destruct (softDeckColor p) as [key |]; [| apply colorSettled_id].
  destruct (JS.truthy key); [| apply colorSettled_id].
  destruct (softDeckPalette key) as [d s].
  destruct (JS.includes (softDeckMeshes (modelId p)) meshName),
           (JS.includes (stripMeshes (modelId p)) meshName).
  - apply (colorSettled_compose mat0 (Nat.iter k (accentRule d)) (Nat.iter k (accentRule s)));
      apply colorSettled_iter, accentRule_settled.
  - apply colorSettled_iter, accentRule_settled.
  - apply colorSettled_iter, accentRule_settled.
  - apply colorSettled_id.
Qed.

Lemma colorMaterialOn_settled (p : BoatModelProps) (oc : OriginalColors)
    (meshName : string) (k : nat) (mat0 : Material) :
  colorSettled mat0 (colorMaterialOn p oc meshName k).
Proof.
  unfold colorMaterialOn.
  apply (colorSettled_compose mat0
           (fun x => if isMaterialTypeMesh (modelId p) meshName
                     then Nat.iter k (materialTypeRule p) (Nat.iter k (hullColorRule p oc) x)
                     else Nat.iter k (hullColorRule p oc) x)
           (softDeckOn p meshName k)); [| apply softDeckOn_settled].
  destruct (isMaterialTypeMesh (modelId p) meshName).
  - apply (colorSettled_compose mat0 (Nat.iter k (hullColorRule p oc))
             (Nat.iter k (materialTypeRule p))).
    + apply colorSettled_iter, hullColorRule_settled.
    + apply colorSettled_iter, materialTypeRule_settled.
  - apply colorSettled_iter, hullColorRule_settled.
Qed.

Lemma colorNodeOn_settled (p : BoatModelProps) (oc : OriginalColors)
    (objs : list Object3D) (n : Tree) (m : ref) (mat0 : Material) :
  colorSettled mat0 (colorNodeOn p oc objs n m).
Proof.
  unfold colorNodeOn.
  destruct (objs !! self n) as [o |]; [| apply colorSettled_id].
  destruct (isMesh o); cbn [negb]; [| apply colorSettled_id].
  apply colorMaterialOn_settled.
Qed.

Lemma colorPassOn_settled (p : BoatModelProps) (oc : OriginalColors)
    (objs : list Object3D) (ns : list Tree) (m : ref) (mat0 : Material) :
  colorSettled mat0 (colorPassOn p oc objs ns m).
Proof.
  unfold colorPassOn. induction ns as [| n ns IH].
  - apply colorSettled_id.
  - cbn [fold_left].
    apply (colorSettled_compose mat0 (colorNodeOn p oc objs n m)
             (fun x => fold_left (fun y n' => colorNodeOn p oc objs n' m y) ns x)).
    + apply colorNodeOn_settled.
    + exact IH.
Qed.

(** The colour effect run a second time, on the heap it left, gives every
    material the colour it has. *)
Lemma applyColors_again (p : BoatModelProps) (oc : OriginalColors) (scene : Tree)
    (h : Heap) (m : ref) :
  color <$> materials (applyColors p oc scene (applyColors p oc scene h)) !! m
  = color <$> materials (applyColors p oc scene h) !! m.
Proof.
  rewrite (applyColors_lookup p oc scene (applyColors p oc scene h)).
  rewrite applyColors_objects, applyColors_lookup.
  destruct (materials h !! m) as [mat |]; [| reflexivity].
  cbn [fmap option_fmap option_map]. f_equal.
  apply (colorSettled_idempotent mat); [apply colorPassOn_settled | now split].
Qed.

Lemma hullSlotsApart_unbound (p : BoatModelProps) (scene : Tree) (h : Heap)
    (m : ref) (mat : Material) :
  hullSlotsApart (modelId p) scene h ->
  materials h !! m = Some mat -> isHullMaterial mat = true ->
  forall n o, n ∈ preorder scene -> objects h !! self n = Some o -> isMesh o = true ->
              isMaterialTypeMesh (modelId p) (JS.toLowerCase (name o)) = true ->
              m ∉ materialsOf (material o).
Proof.
  intros Hapart Hmat Hhull n o Hn Ho Hmesh Htype Hm.
  assert (Hnode : self n ∈ nodes scene).
  { unfold nodes. rewrite list_elem_of_In. apply in_map.
    now rewrite <- list_elem_of_In. }
  rewrite (Hapart (self n) o m mat Hnode Ho Hmesh Htype Hm Hmat) in Hhull.
  discriminate.
Qed.

Lemma colorPassOn_sameSlot (p : BoatModelProps) (oc : OriginalColors)
    (objs : list Object3D) (ns : list Tree) (m : ref) (mat : Material) :
  sameSlot (colorPassOn p oc objs ns m mat) mat.
Proof.
  destruct (colorPassOn_settled p oc objs ns m mat) as [Hslot _].
  apply Hslot. now split.
Qed.

(** C8 (amended). Two property sets that differ in the hull settings only
    give every material that is no hull slot the same final state, and
    running the effect with the other hull settings on the heap the first
    run left keeps the colour of such a material.  After the rules ran on a
    mesh of the material-type list, its standard materials have the colour
    of the material type, #C7C7C7 for fiberglass and #0A0C10 for full
    carbon.  In a scene where no mesh of the material-type list carries a
    hull slot, two property sets that differ in the material type only give
    every hull slot the same final state, and running the effect with the
    other material type on the heap the first run left keeps the colour of
    every hull slot. *)
Theorem hull_and_material_type_rules_apart (p : BoatModelProps) (oc : OriginalColors)
    (scene : Tree) (h : Heap) :
  (forall p' oc' m mat,
      sameButHull p p' -> materials h !! m = Some mat -> isHullMaterial mat = false ->
      materials (applyColors p oc scene h) !! m
      = materials (applyColors p' oc' scene h) !! m /\
      color <$> materials (applyColors p' oc' scene (applyColors p oc scene h)) !! m
      = color <$> materials (applyColors p oc scene h) !! m) /\
  (forall mesh store m mat,
      isMaterialTypeMesh (modelId p) (JS.toLowerCase (name mesh)) = true ->
      m ∈ materialsOf (material mesh) -> store !! m = Some mat -> isStandard mat = true ->
      exists mat',
        colorMesh p oc mesh store !! m = Some mat' /\
        color mat' = match materialType p with
                     | fiberglass => ColorHex 0xC7C7C7
                     | fullCarbon => ColorHex 0x0A0C10
                     end) /\
  (hullSlotsApart (modelId p) scene h ->
   forall p' m mat,
     sameButMaterialType p p' -> materials h !! m = Some mat -> isHullMaterial mat = true ->
     materials (applyColors p oc scene h) !! m
     = materials (applyColors p' oc scene h) !! m /\
     color <$> materials (applyColors p' oc scene (applyColors p oc scene h)) !! m
     = color <$> materials (applyColors p oc scene h) !! m).
Proof.
  split; [| split].
  - intros p' oc' m mat Hsame Hmat Hother. split.
    + rewrite !applyColors_lookup, Hmat. cbn [fmap option_fmap option_map].
      f_equal. now apply colorPassOn_other.
    + rewrite <- (applyColors_again p oc scene h m).
      rewrite (applyColors_lookup p' oc' scene (applyColors p oc scene h)).
      rewrite (applyColors_lookup p oc scene (applyColors p oc scene h)).
      rewrite applyColors_objects, applyColors_lookup, Hmat.
      cbn [fmap option_fmap option_map]. do 2 f_equal.
      symmetry. apply colorPassOn_other; [exact Hsame |].
      rewrite <- Hother. apply sameSlot_hull, colorPassOn_sameSlot.
  - intros mesh store m mat Hmesh Hm Hmat Hstd.
    rewrite colorMesh_lookup, Hmat. cbn [fmap option_fmap option_map].
    eexists. split; [reflexivity |].
    apply count_occ_elem_of in Hm.
    destruct (count_occ Nat.eq_dec (materialsOf (material mesh)) m) as [| k]; [lia |].
    unfold colorMaterialOn. rewrite Hmesh.
    assert (Hstd1 : isStandard (Nat.iter (S k) (hullColorRule p oc) mat) = true).
    { unfold isStandard in *.
      now destruct (hullColorRule_iter_slot p oc (S k) mat) as [-> _]. }
    unfold isMaterialTypeMesh in Hmesh.
    apply andb_true_iff in Hmesh as [Hmesh Hstrip].
    apply andb_true_iff in Hmesh as [_ Hdeck].
    apply negb_true_iff in Hstrip, Hdeck.
    unfold softDeckOn. rewrite Hdeck, Hstrip.
    rewrite <- (materialTypeRule_iter_color p k _ Hstd1).
    destruct (softDeckColor p) as [key |]; [| reflexivity].
    destruct (JS.truthy key); [| reflexivity].
    now destruct (softDeckPalette key).
  - intros Hapart p' m mat Hsame Hmat Hhull.
    pose proof (hullSlotsApart_unbound p scene h m mat Hapart Hmat Hhull) as Hunbound.
    split.
    + rewrite !applyColors_lookup, Hmat. cbn [fmap option_fmap option_map].
      f_equal. now apply colorPassOn_hull.
    + rewrite <- (applyColors_again p oc scene h m).
      rewrite (applyColors_lookup p' oc scene (applyColors p oc scene h)).
      rewrite (applyColors_lookup p oc scene (applyColors p oc scene h)).
      rewrite applyColors_objects, applyColors_lookup, Hmat.
      cbn [fmap option_fmap option_map]. do 2 f_equal.
      symmetry. now apply colorPassOn_hull.
Qed.

Lemma apartScene_hullSlotsApart : hullSlotsApart "2.9" apartScene apartHeap.
Proof.
  intros n o m mat Hn Ho Hmesh Htype Hm Hmat.
  vm_compute in Hn.
  repeat (apply elem_of_cons in Hn as [-> | Hn]);
    [| | | inversion Hn];
    vm_compute in Ho; injection Ho as <-; try discriminate.
  vm_compute in Hm. apply elem_of_cons in Hm as [-> | Hm]; [| inversion Hm].
  vm_compute in Hmat. now injection Hmat as <-.
Qed.

Lemma hull_and_material_type_rules_apart_witness :
  materials (applyColors whiteFiberglass (mkOriginalColors None None)
                         apartScene apartHeap) !! 0
  = materials (applyColors whiteCarbon (mkOriginalColors None None)
                           apartScene apartHeap) !! 0.
Proof.
  destruct (hull_and_material_type_rules_apart whiteFiberglass
              (mkOriginalColors None None) apartScene apartHeap) as (_ & _ & Hhull).
  apply (Hhull apartScene_hullSlotsApart whiteCarbon 0
           (standardMaterial "hull_white" 0xECECE8)).
  - repeat split; reflexivity.
  - reflexivity.
  - reflexivity.
Defined.

(** C8, as stated, fails: in [leakScene] the hull slot [hull_white] is the
    material of a mesh of the material-type list; switching the material
    type changes its colour, which is never the white hull colour. *)
Lemma material_type_toggle_alters_hull_slot :
  let oc := captureOriginalColors leakScene leakHeap in
  (isHullMaterial <$> materials leakHeap !! 0) = Some true /\
  originalWhite oc = Some (ColorHex 0xECECE8) /\
  (color <$> materials (applyColors whiteFiberglass oc leakScene leakHeap) !! 0)
  = Some (ColorHex 0xC7C7C7) /\
  (color <$> materials (applyColors whiteCarbon oc leakScene leakHeap) !! 0)
  = Some (ColorHex 0x0A0C10).
Proof. vm_compute. repeat split; reflexivity. Qed.

(** ** The cached scene and its clone *)

(** A clone allocates nodes only: the material store is the one of the
    source, and the clone of a node has the material references of the
    node. *)
Lemma Object3D_clone_materials (t : Tree) :
  forall h, materials (snd (Object3D_clone t h)) = materials h.
Proof.
  induction t as [i cs IH] using Tree_ind. intros h.
  cbn [Object3D_clone].
  set (go := fix cloneChildren (cs0 : list Tree) (h0 : Heap) : list Tree * Heap :=
               match cs0 with
               | [] => ([], h0)
               | c :: r =>
                   let '(c', h') := Object3D_clone c h0 in
                   let '(r', h'') := cloneChildren r h' in
                   (c' :: r', h'')
               end).
  assert (Hgo : forall h0, materials (snd (go cs h0)) = materials h0).
  { induction IH as [| c r Hc _ IHr]; intros h0; [reflexivity |].
    cbn [go]. fold go. specialize (Hc h0).
    destruct (Object3D_clone c h0) as [c' h']. specialize (IHr h').
    destruct (go r h') as [r' h'']. cbn [snd] in *. congruence. }
  specialize (Hgo (mkHeap (objects h ++ [default emptyObject3D (objects h !! i)])
                          (materials h))).
  destruct (go cs _) as [cs' h2]. exact Hgo.
Qed.

Lemma Object3D_clone_extends (t : Tree) :
  forall h, exists l,
    objects (snd (Object3D_clone t h))
    = objects h ++ default emptyObject3D (objects h !! self t) :: l.
Proof.
  induction t as [i cs IH] using Tree_ind. intros h.
  cbn [Object3D_clone self].
  set (go := fix cloneChildren (cs0 : list Tree) (h0 : Heap) : list Tree * Heap :=
               match cs0 with
               | [] => ([], h0)
               | c :: r =>
                   let '(c', h') := Object3D_clone c h0 in
                   let '(r', h'') := cloneChildren r h' in
                   (c' :: r', h'')
               end).
  assert (Hgo : forall h0, exists l, objects (snd (go cs h0)) = objects h0 ++ l).
  { induction IH as [| c r Hc _ IHr]; intros h0.
    - exists []. cbn. now rewrite app_nil_r.
    - cbn [go]. fold go. destruct (Hc h0) as [l1 Hl1].
      destruct (Object3D_clone c h0) as [c' h']. destruct (IHr h') as [l2 Hl2].
      destruct (go r h') as [r' h'']. cbn [snd] in *.
      eexists. now rewrite Hl2, Hl1, <- app_assoc. }
  destruct (Hgo (mkHeap (objects h ++ [default emptyObject3D (objects h !! i)])
                        (materials h))) as [l Hl].
  destruct (go cs _) as [cs' h2]. cbn [snd objects] in *.
  exists l. now rewrite Hl, <- app_assoc.
Qed.

(** The clone of the root is a new node with the fields of the root, its
    material references among them; the root is as it was. *)
Lemma Object3D_clone_root (i : ref) (cs : list Tree) (h : Heap) (o : Object3D) :
  objects h !! i = Some o ->
  let '(scene, h') := Object3D_clone (TNode i cs) h in
  self scene = length (objects h) /\
  objects h' !! self scene = Some o /\
  objects h' !! i = Some o.
Proof.
  intros Ho.
  destruct (Object3D_clone_extends (TNode i cs) h) as [l Hl].
  assert (Hself : self (fst (Object3D_clone (TNode i cs) h)) = length (objects h)).
  { cbn [Object3D_clone].
    now destruct ((fix cloneChildren (cs0 : list Tree) (h0 : Heap) := _) cs _). }
  destruct (Object3D_clone (TNode i cs) h) as [scene h']. cbn [fst snd self] in *.
  rewrite Ho in Hl. cbn [default] in Hl.
  split; [exact Hself |]. rewrite Hl, Hself. split.
  - now rewrite list_lookup_middle.
  - rewrite lookup_app_l; [exact Ho |]. eapply lookup_lt_Some, Ho.
Qed.

(** C6. The cached scene of [cachedHeap] is loaded and the custom hull
    colour #FF6B00 is applied to the clone.  The node of the cached scene is
    as it was, and it refers to the material 0, which the clone refers to as
    well: the colour of that material of the cached scene is now #FF6B00,
    and a second load of the cached scene captures #FF6B00 as its original
    white. *)
Theorem cached_material_mutated_through_clone :
  let '(scene, h1) := loadScene cachedScene cachedHeap in
  let oc := captureOriginalColors scene h1 in
  let h2 := applyColors customOrange oc scene h1 in
  let '(scene', h3) := loadScene cachedScene h2 in
  self scene <> self cachedScene /\
  objects h2 !! 1 = objects cachedHeap !! 1 /\
  (material <$> objects h2 !! 1) = Some (SingleMaterial 0) /\
  (color <$> materials cachedHeap !! 0) = Some (ColorHex 0xECECE8) /\
  (color <$> materials h2 !! 0) = Some (ColorHex 0xFF6B00) /\
  originalWhite oc = Some (ColorHex 0xECECE8) /\
  originalWhite (captureOriginalColors scene' h3) = Some (ColorHex 0xFF6B00).
Proof. vm_compute. repeat split; try reflexivity. discriminate. Qed.

(** ** Camera controller *)

Section CameraFacts.
Import Camera.
Local Open Scope Q_scope.

Lemma differs_false (a b : Q) : differs a b = false -> Qabs (a - b) <= 1 # 1000000.
Proof.
  unfold differs. intros H. apply negb_false_iff in H.
  now apply Qle_bool_iff.
Qed.

(** After a frame during a hold, the camera height is within [1e-6] of
    the height stored in [initialCameraYRef]. *)
Lemma frame_pins_camera (s : State) (c : OrbitControls) (y0 : Q) :
  controls s = Some c -> rmbActive s = true -> initialCameraY s = Some y0 ->
  Qabs (cameraY (onFrame s) - y0) <= 1 # 1000000.
Proof.
  intros Hc Hr Hy. unfold onFrame. rewrite Hc, Hy, Hr. cbn [cameraY andb].
  destruct (differs (cameraY s) y0) eqn:Hd.
  - apply Qabs_Qle_condition.
    split; destruct y0 as [n d]; unfold Qle, Qminus, Qplus, Qopp; cbn; lia.
  - now apply differs_false.
Qed.

(** The stored height is written on the first press only: no handler
    clears it. *)
Lemma initialCameraY_kept (e : Event) (s : State) (y0 : Q) :
  initialCameraY s = Some y0 -> initialCameraY (step s e) = Some y0.
Proof.
  intros Hy. destruct e as [b | b | | y]; cbn.
  - unfold onDown. destruct (b =? 1)%Z; [exact Hy |].
    destruct (b =? 2)%Z; [| exact Hy]. cbn. now rewrite Hy.
  - unfold onUp. destruct (b =? 2)%Z; [| exact Hy]. exact Hy.
  - unfold onFrame. destruct (controls s); [| exact Hy]. exact Hy.
  - exact Hy.
Qed.

(** Pressing the right button turns rotate and zoom off and pan on;
    releasing it turns rotate and zoom on. *)
Lemma press_and_release_flags (s : State) (c : OrbitControls) :
  controls s = Some c ->
  (exists c1, controls (onDown 2 s) = Some c1 /\
              enableRotate c1 = false /\ enableZoom c1 = false /\ enablePan c1 = true) /\
  (exists c2, controls (onUp 2 s) = Some c2 /\
              enableRotate c2 = true /\ enableZoom c2 = true).
Proof.
  intros Hc. unfold onDown, onUp. cbn. rewrite Hc.
  split; eexists; (split; [reflexivity |]); now repeat split.
Qed.

(** No event but the release of the right button ends a hold or turns
    rotate or zoom on. *)
Lemma hold_kept (e : Event) (s : State) (c : OrbitControls) :
  (forall b, e = Up b -> b <> 2%Z) ->
  controls s = Some c -> rmbActive s = true ->
  enableRotate c = false -> enableZoom c = false -> enablePan c = true ->
  rmbActive (step s e) = true /\
  exists c', controls (step s e) = Some c' /\
             enableRotate c' = false /\ enableZoom c' = false /\ enablePan c' = true.
Proof.
  intros Hup Hc Hr Hrot Hzoom Hpan. destruct e as [b | b | | y]; cbn [step].
  - unfold onDown. destruct (b =? 1)%Z; [eauto 10 |].
    destruct (b =? 2)%Z; [| eauto 10]. rewrite Hc. cbn. eauto 10.
  - unfold onUp. destruct (Z.eqb_spec b 2) as [-> | _]; [| eauto 10].
    now destruct (Hup 2%Z eq_refl).
  - unfold onFrame. rewrite Hc. cbn. eauto 10.
  - cbn. eauto 10.
Qed.

(** A press while a height is stored keeps that height, and the next frame
    moves the camera to it from wherever it was. *)
Lemma stale_height_restored (s : State) (c : OrbitControls) (y0 : Q) :
  controls s = Some c -> initialCameraY s = Some y0 ->
  differs (cameraY s) y0 = true ->
  cameraY (onFrame (onDown 2 s)) = y0.
Proof.
  intros Hc Hy Hd. unfold onDown. cbn. rewrite Hc, Hy.
  unfold onFrame. cbn. now rewrite Hd.
Qed.

(** C5. A second hold of the right button: the camera was moved to the
    height 5 between the holds, the button is pressed there, and the next
    frame of the hold puts the camera back at 5/2, the height of the first
    press, with rotate and zoom disabled and pan enabled. *)
Theorem second_pan_hold_snaps_to_first_press :
  let pressed := run [Down 2; Frame; Up 2; ControlsMove 5; Down 2] initial in
  let held := run [Frame] pressed in
  cameraY pressed == 5 /\
  rmbActive held = true /\
  (enableRotate <$> controls held) = Some false /\
  (enableZoom <$> controls held) = Some false /\
  (enablePan <$> controls held) = Some true /\
  initialCameraY held = Some (5 # 2) /\
  cameraY held == 5 # 2 /\
  ~ Qabs (cameraY held - cameraY pressed) <= 1 # 1000000.
Proof.
  cbv zeta. vm_compute. repeat split; try reflexivity; try discriminate.
  intros H. apply H. reflexivity.
Qed.

End CameraFacts.

(** ** Motion animator *)

(** C9. In ocean mode every frame sets a pitch [sin (1.2 t) * 0.0075] on one
    axis and a roll [cos (1.1 t) * 0.00625] on another, the roll amplitude
    below the pitch amplitude, at the height 0.32, and the water surface is
    rendered; in dry-dock mode every rotation is zero, the height is 0.34 and
    no water surface is rendered. *)
Theorem wave_mode_motion (t : R) (groups : Animator.Pose) :
  (exists pose,
      Animator.rockingFrame Animator.ocean t (Some groups) = Some pose /\
      Animator.pitchRotationX pose = (sin (t * 1.2) * 0.0075)%R /\
      Animator.boatRotationZ pose = (cos (t * 1.1) * 0.00625)%R /\
      (Rabs (Animator.pitchRotationX pose) <= 0.0075)%R /\
      (Rabs (Animator.boatRotationZ pose) <= 0.00625)%R /\
      (0.00625 < 0.0075)%R /\
      Animator.boatPositionY pose = 0.32%R /\
      Animator.boatRotationX pose = 0%R /\ Animator.boatRotationY pose = 0%R /\
      Animator.pitchRotationY pose = 0%R /\ Animator.pitchRotationZ pose = 0%R) /\
  Animator.rendersOceanWater Animator.ocean = true /\
  (exists pose,
      Animator.rockingFrame Animator.dryDock t (Some groups) = Some pose /\
      Animator.pitchRotationX pose = 0%R /\
      Animator.boatRotationZ pose = 0%R /\
      Animator.boatPositionY pose = 0.34%R /\
      Animator.boatRotationX pose = 0%R /\ Animator.boatRotationY pose = 0%R /\
      Animator.pitchRotationY pose = 0%R /\ Animator.pitchRotationZ pose = 0%R) /\
  Animator.rendersOceanWater Animator.dryDock = false.
Proof.
  split; [| split; [reflexivity | split; [| reflexivity]]].
  - eexists. split; [reflexivity |]. cbn.
    unfold Animator.pitchOffset.
    pose proof (SIN_bound (t * 1.2)) as [Hs1 Hs2].
    pose proof (COS_bound (t * 1.1)) as [Hc1 Hc2].
    repeat split; try lra.
    + apply Rabs_le. lra.
    + apply Rabs_le. lra.
  - eexists. split; [reflexivity |]. cbn. unfold Animator.pitchOffset.
    repeat split; reflexivity.
Qed.

(* ================================================================== *)
(** * Further properties *)
(* ================================================================== *)

(** ** The asset of a model *)

Lemma startsWith_three (c1 c2 c3 : ascii) (r : string) :
  JS.startsWith (String c1 (String c2 (String c3 r))) "2.9"
  = Ascii.eqb c1 "2" && (Ascii.eqb c2 "." && Ascii.eqb c3 "9").
Proof. destruct r; cbn; now rewrite andb_true_r. Qed.

Lemma startsWith_29_base (modelId : string) :
  JS.startsWith (getBaseModelId modelId) "2.9" = JS.startsWith modelId "2.9".
Proof.
  destruct modelId as [| c1 [| c2 [| c3 r]]].
  - reflexivity.
  - cbn [getBaseModelId]. destruct (Ascii.eqb c1 "E"); cbn; [| reflexivity].
    now rewrite andb_false_r.
  - cbn [getBaseModelId]. destruct (Ascii.eqb c2 "E"); cbn; [| reflexivity].
    now rewrite !andb_false_r.
  - change (getBaseModelId (String c1 (String c2 (String c3 r))))
      with (String c1 (String c2 (getBaseModelId (String c3 r)))).
    destruct r as [| c4 r].
    + cbn [getBaseModelId]. destruct (Ascii.eqb_spec c3 "E") as [-> | _]; [| reflexivity].
      cbn. now rewrite !andb_false_r.
    + change (getBaseModelId (String c3 (String c4 r)))
        with (String c3 (getBaseModelId (String c4 r))).
      now rewrite !startsWith_three.
Qed.

(** X1. A model id and the id without its electric suffix resolve to the
    same asset, for every id; and every id resolves to one of the two
    assets, 29.glb for the ids that start with 2.9 and 33.glb for all
    others. *)
Theorem resolveModelPath_shared (modelId basePath : string) :
  resolveModelPath (getBaseModelId modelId) basePath = resolveModelPath modelId basePath /\
  (resolveModelPath modelId basePath = (basePath ++ "models/29.glb")%string \/
   resolveModelPath modelId basePath = (basePath ++ "models/33.glb")%string).
Proof.
  unfold resolveModelPath. rewrite startsWith_29_base.
  split; [reflexivity |].
  destruct (JS.startsWith modelId "2.9"); [left | right]; reflexivity.
Qed.

Lemma endsWith_E_one (c : ascii) :
  JS.endsWith (String c EmptyString) "E" = Ascii.eqb c "E".
Proof.
  unfold JS.endsWith. cbn. now destruct (Ascii.eqb c "E").
Qed.

Lemma endsWith_E_more (c c' : ascii) (r : string) :
  JS.endsWith (String c (String c' r)) "E" = JS.endsWith (String c' r) "E".
Proof.
  unfold JS.endsWith. cbn [String.length Nat.leb Nat.sub andb].
  now rewrite Nat.sub_0_r.
Qed.

Lemma getBaseModelId_more (c c' : ascii) (r : string) :
  getBaseModelId (String c (String c' r)) = String c (getBaseModelId (String c' r)).
Proof. reflexivity. Qed.

Lemma getBaseModelId_append_E (modelId : string) :
  getBaseModelId (modelId ++ "E") = modelId.
Proof.
  induction modelId as [| c r IH]; [reflexivity |].
  destruct r as [| c' r'].
  - reflexivity.
  - change ((String c (String c' r') ++ "E")%string)
      with (String c (String c' (r' ++ "E")%string)).
    rewrite getBaseModelId_more. f_equal. exact IH.
Qed.

Lemma getBaseModelId_electric (modelId : string) :
  (isElectricModel modelId = true -> (getBaseModelId modelId ++ "E")%string = modelId) /\
  (isElectricModel modelId = false -> getBaseModelId modelId = modelId).
Proof.
  unfold isElectricModel.
  induction modelId as [| c r IH]; [split; [discriminate | reflexivity] |].
  destruct r as [| c' r'].
  - rewrite endsWith_E_one. cbn [getBaseModelId].
    destruct (Ascii.eqb_spec c "E") as [-> | Hc]; split; try discriminate; reflexivity.
  - rewrite endsWith_E_more, getBaseModelId_more. destruct IH as [IH1 IH2]. split.
    + intros H. cbn [append]. f_equal. now apply IH1.
    + intros H. f_equal. now apply IH2.
Qed.

(** X2. The two tests on a model id agree: removing the electric suffix
    from an id with the suffix added gives the id back; an id is electric
    exactly when it is its base id followed by E, and an id that is not
    electric is its own base id.  So every model that is not electric, not
    only 2.9 and 3.3, shares the resolution of each node that is not
    auto-managed with its electric variant. *)
Theorem base_model_id_round_trip (m : string) :
  getBaseModelId (m ++ "E") = m /\
  (isElectricModel m = true -> (getBaseModelId m ++ "E")%string = m) /\
  (isElectricModel m = false -> getBaseModelId m = m) /\
  (forall p childName,
      isElectricModel m = false -> autoManaged childName = false ->
      resolveVisibility (withModelId m p) childName
      = resolveVisibility (withModelId (m ++ "E") p) childName).
Proof.
  split; [apply getBaseModelId_append_E |].
  split; [apply getBaseModelId_electric |].
  split; [apply getBaseModelId_electric |].
  intros p childName Hel Hauto.
  rewrite !resolveVisibility_mapped by exact Hauto.
  cbn [withModelId modelId groupVisibilityMappings selectedOptions].
  rewrite getBaseModelId_append_E.
  now rewrite (proj2 (getBaseModelId_electric m) Hel).
Qed.

(** ** What the visibility effect touches *)

Lemma isDepthMask_same (o o' : Object3D) :
  name o' = name o -> userDataDepthMask o' = userDataDepthMask o ->
  isDepthMask o' = isDepthMask o.
Proof. unfold isDepthMask. now intros -> ->. Qed.

Lemma sameButVisibility_refl (o : Object3D) : sameButVisibility o o.
Proof. unfold sameButVisibility. now repeat split. Qed.

Lemma sameButVisibility_trans (a b c : Object3D) :
  sameButVisibility a b -> sameButVisibility b c -> sameButVisibility a c.
Proof.
  intros (Hn & Hm & Hr & Hmat & Hu & Hro & Hf & Hc)
         (Hn' & Hm' & Hr' & Hmat' & Hu' & Hro' & Hf' & Hc').
  unfold sameButVisibility. repeat split; try congruence.
  intros Hmask. rewrite Hc', Hc; [reflexivity | exact Hmask |].
  now rewrite Hm, (isDepthMask_same a b Hn Hu).
Qed.

Lemma set_visible_same (v : bool) (o : Object3D) : sameButVisibility o (set_visible v o).
Proof. unfold sameButVisibility. now repeat split. Qed.

Lemma setVisibilityOfChild_same (v : bool) (o : Object3D) :
  sameButVisibility o (setVisibilityOfChild v o).
Proof.
  unfold setVisibilityOfChild, sameButVisibility.
  change (isMesh (set_visible v o)) with (isMesh o).
  change (isDepthMask (set_visible v o)) with (isDepthMask o).
  destruct (isMesh o) eqn:Hm; [| now repeat split].
  destruct (isDepthMask o) eqn:Hd; [now repeat split |].
  repeat split; try assumption. intros H. cbn in H. discriminate.
Qed.

Lemma setVisibilityOfChild_castShadow (v : bool) (o : Object3D) :
  isMesh o = true -> isDepthMask o = false ->
  castShadow (setVisibilityOfChild v o) = v.
Proof.
  unfold setVisibilityOfChild.
  change (isMesh (set_visible v o)) with (isMesh o).
  change (isDepthMask (set_visible v o)) with (isDepthMask o).
  now intros -> ->.
Qed.

Lemma setVisibilityOfChild_iter_same (v : bool) (k : nat) (o x : Object3D) :
  sameButVisibility o x -> sameButVisibility o (Nat.iter k (setVisibilityOfChild v) x).
Proof.
  intros Hx. apply (iter_invariant _ (sameButVisibility o)); [| exact Hx].
  intros y Hy. eapply sameButVisibility_trans; [exact Hy |].
  apply setVisibilityOfChild_same.
Qed.

Lemma setGroupVisibility_node (object : Tree) (v : bool) (h : Heap)
    (j : ref) (o : Object3D) :
  objects h !! j = Some o ->
  materials (setGroupVisibility object v h) = materials h /\
  exists o',
    objects (setGroupVisibility object v h) !! j = Some o' /\
    sameButVisibility o o' /\
    (j ∈ nodes object ->
     visible o' = v /\
     (isMesh o = true -> isDepthMask o = false -> castShadow o' = v)) /\
    (j ∉ nodes object -> o' = o).
Proof.
  intros Ho. split; [apply setGroupVisibility_materials |].
  destruct (decide (j ∈ nodes object)) as [Hin | Hout].
  - rewrite setGroupVisibility_lookup.
    set (x := if decide (self object = j) then set_visible v o else o).
    assert (Hx : alter (set_visible v) (self object) (objects h) !! j = Some x).
    { rewrite list_lookup_alter. unfold x.
      destruct (decide (self object = j)) as [-> |]; now rewrite Ho. }
    assert (Hsame : sameButVisibility o x).
    { unfold x. destruct (decide (self object = j));
        [apply set_visible_same | apply sameButVisibility_refl]. }
    rewrite Hx. cbn [fmap option_fmap option_map].
    eexists. split; [reflexivity |].
    split; [now apply setVisibilityOfChild_iter_same |].
    split; [| intros Hout; now destruct Hout].
    intros _. apply count_occ_elem_of in Hin.
    destruct (count_occ Nat.eq_dec (nodes object) j) as [| k]; [lia |].
    rewrite Nat.iter_succ. split; [apply setVisibilityOfChild_visible |].
    intros Hmesh Hmask.
    pose proof (setVisibilityOfChild_iter_same v k o x Hsame)
      as (Hn & Hm & _ & _ & Hu & _).
    apply setVisibilityOfChild_castShadow; [congruence |].
    now rewrite (isDepthMask_same _ _ Hn Hu).
  - exists o. rewrite setGroupVisibility_outside by exact Hout.
    split; [exact Ho |]. split; [apply sameButVisibility_refl |].
    split; [intros Hin; now destruct Hout | reflexivity].
Qed.

(** X3. [setGroupVisibility(object, visible)] leaves the materials alone and
    a node outside the subtree of [object] as it is.  A node of the
    subtree becomes [visible]; when it is a mesh that is no depth mask it
    casts shadows exactly when [visible]; when it is a group or a depth
    mask its shadow casting is kept.  No other field of a node changes. *)
Theorem setGroupVisibility_contract (object : Tree) (v : bool) (h : Heap)
    (j : ref) (o : Object3D) :
  objects h !! j = Some o ->
  materials (setGroupVisibility object v h) = materials h /\
  exists o',
    objects (setGroupVisibility object v h) !! j = Some o' /\
    sameButVisibility o o' /\
    (j ∈ nodes object ->
     visible o' = v /\
     (isMesh o = true -> isDepthMask o = false -> castShadow o' = v)) /\
    (j ∉ nodes object -> o' = o).
Proof. exact (setGroupVisibility_node object v h j o). Qed.

Lemma setGroupVisibility_contract_witness :
  exists o',
    objects (setGroupVisibility (TNode 1 [TNode 2 []]) false deckHeap) !! 2 = Some o' /\
    visible o' = false /\ castShadow o' = false.
Proof.
  destruct (setGroupVisibility_contract (TNode 1 [TNode 2 []]) false deckHeap 2
              (meshOf "cushion" (SingleMaterial 0)) eq_refl)
    as (_ & o' & Ho' & _ & Hin & _).
  destruct Hin as [Hv Hc].
  - apply (bool_decide_unpack _). vm_compute. exact I.
  - exists o'. split; [exact Ho' |]. split; [exact Hv |]. now apply Hc.
Defined.

Lemma preorder_nodes_sub (t : Tree) :
  forall n j, n ∈ preorder t -> j ∈ nodes n -> j ∈ nodes t.
Proof.
  induction t as [i cs IH] using Tree_ind. intros n j.
  cbn [preorder]. rewrite elem_of_cons. intros [-> | Hn] Hj; [exact Hj |].
  rewrite nodes_TNode. right.
  rewrite list_elem_of_In in Hn. apply in_flat_map in Hn as (c & Hc & Hn).
  rewrite list_elem_of_In. apply in_flat_map. exists c. split; [exact Hc |].
  rewrite Forall_forall in IH.
  rewrite <- list_elem_of_In in Hc. rewrite <- list_elem_of_In in Hn.
  rewrite <- list_elem_of_In. exact (IH c Hc n j Hn Hj).
Qed.

Lemma groupVisibilityCallback_same (p : BoatModelProps) (n : Tree) (h : Heap)
    (j : ref) (o : Object3D) :
  objects h !! j = Some o ->
  exists o',
    objects (groupVisibilityCallback p n h) !! j = Some o' /\
    sameButVisibility o o' /\ (j ∉ nodes n -> o' = o).
Proof.
  intros Ho. rewrite groupVisibilityCallback_cases.
  destruct (ownResolution p h (self n)) as [v |].
  - destruct (setGroupVisibility_node n v h j o Ho) as (_ & o' & Ho' & Hs & _ & Hout).
    now exists o'.
  - exists o. split; [exact Ho |]. split; [apply sameButVisibility_refl | reflexivity].
Qed.

Lemma groupVisibilityCallback_materials (p : BoatModelProps) (n : Tree) (h : Heap) :
  materials (groupVisibilityCallback p n h) = materials h.
Proof.
  rewrite groupVisibilityCallback_cases.
  destruct (ownResolution p h (self n)); [apply setGroupVisibility_materials | reflexivity].
Qed.

Lemma visibility_fold_same (p : BoatModelProps) (ns : list Tree) :
  forall h j o,
    objects h !! j = Some o ->
    materials (fold_left (fun h' n => groupVisibilityCallback p n h') ns h) = materials h /\
    exists o',
      objects (fold_left (fun h' n => groupVisibilityCallback p n h') ns h) !! j = Some o' /\
      sameButVisibility o o' /\ ((forall n, n ∈ ns -> j ∉ nodes n) -> o' = o).
Proof.
  induction ns as [| n ns IH]; intros h j o Ho.
  - split; [reflexivity |]. exists o.
    split; [exact Ho |]. split; [apply sameButVisibility_refl | reflexivity].
  - cbn [fold_left].
    destruct (groupVisibilityCallback_same p n h j o Ho) as (o1 & Ho1 & Hs1 & Hout1).
    destruct (IH (groupVisibilityCallback p n h) j o1 Ho1) as (Hm & o2 & Ho2 & Hs2 & Hout2).
    split; [now rewrite Hm, groupVisibilityCallback_materials |].
    exists o2. split; [exact Ho2 |].
    split; [eapply sameButVisibility_trans; eassumption |].
    intros Hout. rewrite Hout2, Hout1; [reflexivity | |].
    + apply Hout. left.
    + intros n' Hn'. apply Hout. now right.
Qed.

(** X4. The visibility effect changes nothing but the visibility of the
    nodes of the scene and the shadow casting of its meshes that are no
    depth masks: every other field of every node is kept, a node outside
    the scene is as it was, and the material store is as it was. *)
Theorem applyGroupVisibility_frame (p : BoatModelProps) (scene : Tree) (h : Heap)
    (j : ref) (o : Object3D) :
  objects h !! j = Some o ->
  materials (applyGroupVisibility p scene h) = materials h /\
  exists o',
    objects (applyGroupVisibility p scene h) !! j = Some o' /\
    sameButVisibility o o' /\ (j ∉ nodes scene -> o' = o).
Proof.
  intros Ho. unfold applyGroupVisibility. rewrite traverse_preorder.
  destruct (visibility_fold_same p (preorder scene) h j o Ho) as (Hm & o' & Ho' & Hs & Hout).
  split; [exact Hm |]. exists o'. split; [exact Ho' |]. split; [exact Hs |].
  intros Hj. apply Hout. intros n Hn Hjn. apply Hj.
  now apply (preorder_nodes_sub scene n j).
Qed.

Lemma applyGroupVisibility_frame_witness :
  exists o',
    objects (applyGroupVisibility seatsHidden (TNode 1 [TNode 2 []]) deckHeap) !! 4 = Some o' /\
    o' = meshOf "motor_body" (SingleMaterial 1).
Proof.
  destruct (applyGroupVisibility_frame seatsHidden (TNode 1 [TNode 2 []]) deckHeap 4
              (meshOf "motor_body" (SingleMaterial 1)) eq_refl)
    as (_ & o' & Ho' & _ & Hout).
  exists o'. split; [exact Ho' |]. apply Hout.
  apply (bool_decide_unpack _). vm_compute. exact I.
Defined.

(** ** Shadows and depth masks *)

Lemma applyGroupVisibility_same (p : BoatModelProps) (scene : Tree) (h : Heap)
    (j : ref) (o : Object3D) :
  objects h !! j = Some o ->
  exists o', objects (applyGroupVisibility p scene h) !! j = Some o' /\
             sameButVisibility o o'.
Proof.
  intros Ho. unfold applyGroupVisibility. rewrite traverse_preorder.
  destruct (visibility_fold_same p (preorder scene) h j o Ho) as (_ & o' & Ho' & Hs & _).
  now exists o'.
Qed.

Lemma visibilityRuns_same (ps : list BoatModelProps) (scene : Tree) :
  forall h j o,
    objects h !! j = Some o ->
    exists o', objects (visibilityRuns ps scene h) !! j = Some o' /\
               sameButVisibility o o'.
Proof.
  unfold visibilityRuns. induction ps as [| p ps IH]; intros h j o Ho.
  - exists o. split; [exact Ho | apply sameButVisibility_refl].
  - cbn [fold_left].
    destruct (applyGroupVisibility_same p scene h j o Ho) as (o1 & Ho1 & Hs1).
    destruct (IH _ j o1 Ho1) as (o2 & Ho2 & Hs2).
    exists o2. split; [exact Ho2 |]. eapply sameButVisibility_trans; eassumption.
Qed.

Lemma shadowsOff_idem (o : Object3D) : shadowsOff (shadowsOff o) = shadowsOff o.
Proof. reflexivity. Qed.

Lemma disableShadows_step (n : Tree) (h : Heap) (j : ref) (o : Object3D) :
  objects h !! j = Some o ->
  let h1 := match objects h !! self n with
            | Some o0 =>
                if negb (isMesh o0) then h
                else updateObject (self n)
                       (fun o' => set_receiveShadow false (set_castShadow false o')) h
            | None => h
            end in
  materials h1 = materials h /\
  objects h1 !! j = Some (if decide (self n = j)
                          then (if isMesh o then shadowsOff o else o) else o).
Proof.
  intros Ho. cbn zeta.
  destruct (decide (self n = j)) as [-> | Hne].
  - rewrite Ho. destruct (isMesh o); cbn [negb]; [| now split].
    split; [reflexivity |]. cbn [updateObject objects].
    now rewrite list_lookup_alter_eq, Ho.
  - destruct (objects h !! self n) as [o0 |]; [| now split].
    destruct (isMesh o0); cbn [negb]; [| now split].
    split; [reflexivity |]. cbn [updateObject objects].
    now rewrite list_lookup_alter_ne.
Qed.

Lemma disableShadows_fold (ns : list Tree) :
  forall h j o,
    objects h !! j = Some o ->
    let h' := fold_left (fun h' child =>
                match objects h' !! self child with
                | Some o0 =>
                    if negb (isMesh o0) then h'
                    else updateObject (self child)
                           (fun o' => set_receiveShadow false (set_castShadow false o')) h'
                | None => h'
                end) ns h in
    materials h' = materials h /\
    exists o', objects h' !! j = Some o' /\
               (isMesh o = true -> j ∈ map self ns -> o' = shadowsOff o) /\
               (isMesh o = false \/ j ∉ map self ns -> o' = o).
Proof.
  induction ns as [| n ns IH]; intros h j o Ho; cbn zeta.
  - split; [reflexivity |]. exists o. split; [exact Ho |].
    split; [intros _ Hin; inversion Hin | reflexivity].
  - cbn [fold_left map].
    destruct (disableShadows_step n h j o Ho) as [Hm1 Ho1].
    cbn zeta in Hm1, Ho1.
    set (h1 := match objects h !! self n with Some _ => _ | None => _ end) in *.
    set (o1 := if decide (self n = j) then (if isMesh o then shadowsOff o else o) else o) in *.
    assert (Hmesh1 : isMesh o1 = isMesh o).
    { unfold o1. destruct (decide (self n = j)); [| reflexivity].
      destruct (isMesh o) eqn:E; [exact E | exact E]. }
    destruct (IH h1 j o1 Ho1) as (Hm2 & o2 & Ho2 & Hin2 & Hout2).
    split; [now rewrite Hm2 |].
    exists o2. split; [exact Ho2 |]. split.
    + intros Hmesh Hin.
      destruct (decide (j ∈ map self ns)) as [Hr | Hr].
      * rewrite Hin2 by congruence. unfold o1.
        destruct (decide (self n = j)); [| reflexivity]. now rewrite Hmesh.
      * rewrite Hout2 by now right. unfold o1.
        apply elem_of_cons in Hin as [-> | Hin]; [| now destruct Hr].
        destruct (decide (self n = self n)); [| congruence]. now rewrite Hmesh.
    + intros Hcase.
      assert (Ho1eq : o1 = o).
      { unfold o1. destruct (decide (self n = j)) as [Heq |]; [| reflexivity].
        destruct Hcase as [-> | Hout]; [reflexivity |].
        destruct Hout. rewrite <- Heq. left. }
      rewrite Hout2; [exact Ho1eq |].
      destruct Hcase as [Hmesh | Hout]; [left; congruence |].
      right. intros Hin. apply Hout. now right.
Qed.

Lemma disableShadows_lookup (scene : Tree) (h : Heap) (j : ref) (o : Object3D) :
  objects h !! j = Some o ->
  materials (disableShadows scene h) = materials h /\
  exists o', objects (disableShadows scene h) !! j = Some o' /\
             (isMesh o = true -> j ∈ nodes scene -> o' = shadowsOff o) /\
             (isMesh o = false \/ j ∉ nodes scene -> o' = o).
Proof.
  intros Ho. unfold disableShadows. rewrite traverse_preorder.
  exact (disableShadows_fold (preorder scene) h j o Ho).
Qed.

Lemma setGroupVisibility_in_step (object : Tree) (v : bool) (h : Heap)
    (j : ref) (o x : Object3D) :
  isMesh o = true -> shadowsInStep o x -> objects h !! j = Some x ->
  exists x', objects (setGroupVisibility object v h) !! j = Some x' /\
             shadowsInStep o x'.
Proof.
  intros Hmesh (Hs & Hmask & Hsync) Hx.
  destruct (setGroupVisibility_node object v h j x Hx)
    as (_ & x' & Hx' & Hs' & Hin & Hout).
  exists x'. split; [exact Hx' |].
  pose proof Hs as (Hn & Hm & _ & _ & Hu & _).
  pose proof (isDepthMask_same _ _ Hn Hu) as Hdm.
  pose proof Hs' as (_ & _ & _ & _ & _ & _ & _ & Hcast).
  split; [eapply sameButVisibility_trans; eassumption |]. split.
  - intros Ho. rewrite Hcast; [now apply Hmask |].
    rewrite Hdm, Ho. apply andb_false_r.
  - intros Hc. destruct (decide (j ∈ nodes object)) as [Hj | Hj].
    + destruct (Hin Hj) as [Hv Hcv]. rewrite Hv.
      destruct (isDepthMask o) eqn:Eo.
      * rewrite Hcast in Hc by (rewrite Hdm; apply andb_false_r).
        rewrite Hmask in Hc by reflexivity. discriminate.
      * rewrite <- Hcv; [exact Hc | congruence | congruence].
    + rewrite (Hout Hj) in *. now apply Hsync.
Qed.

Lemma visibilityRuns_in_step (ps : list BoatModelProps) (scene : Tree) (o : Object3D)
    (j : ref) :
  isMesh o = true ->
  forall h x,
    shadowsInStep o x -> objects h !! j = Some x ->
    exists x', objects (visibilityRuns ps scene h) !! j = Some x' /\
               shadowsInStep o x'.
Proof.
  intros Hmesh. unfold visibilityRuns.
  assert (Hpass : forall p ns h x,
             shadowsInStep o x -> objects h !! j = Some x ->
             exists x', objects (fold_left (fun h' n => groupVisibilityCallback p n h') ns h) !! j
                        = Some x' /\ shadowsInStep o x').
  { intros p ns. induction ns as [| n ns IH]; intros h x Hs Hx; [now exists x |].
    cbn [fold_left].
    assert (Hstep : exists x1, objects (groupVisibilityCallback p n h) !! j = Some x1 /\
                               shadowsInStep o x1).
    { rewrite groupVisibilityCallback_cases.
      destruct (ownResolution p h (self n)) as [v |]; [| now exists x].
      now apply (setGroupVisibility_in_step n v h j o x). }
    destruct Hstep as (x1 & Hx1 & Hs1). exact (IH _ x1 Hs1 Hx1). }
  induction ps as [| p ps IH]; intros h x Hs Hx; [now exists x |].
  cbn [fold_left]. unfold applyGroupVisibility at 2. rewrite traverse_preorder.
  destruct (Hpass p (preorder scene) h x Hs Hx) as (x1 & Hx1 & Hs1).
  exact (IH _ x1 Hs1 Hx1).
Qed.

(** X5. After the shadows were turned off at load, and through every
    sequence of runs of the visibility effect, whatever the mappings and
    options of each run: every mesh of the scene receives no shadow, a
    depth-mask mesh casts none, and a mesh that casts a shadow is visible
    (a hidden mesh leaves no shadow behind). *)
Theorem shadows_follow_visibility (ps : list BoatModelProps) (scene : Tree)
    (h : Heap) (j : ref) (o : Object3D) :
  objects h !! j = Some o ->
  j ∈ nodes scene ->
  isMesh o = true ->
  exists o',
    objects (visibilityRuns ps scene (disableShadows scene h)) !! j = Some o' /\
    receiveShadow o' = false /\
    (isDepthMask o = true -> castShadow o' = false) /\
    (castShadow o' = true -> visible o' = true).
Proof.
  intros Ho Hj Hmesh.
  destruct (disableShadows_lookup scene h j o Ho) as (_ & o1 & Ho1 & Hin1 & _).
  rewrite (Hin1 Hmesh Hj) in Ho1.
  destruct (visibilityRuns_in_step ps scene (shadowsOff o) j Hmesh
              (disableShadows scene h) (shadowsOff o))
    as (o2 & Ho2 & (_ & _ & Hr & _) & Hmask & Hsync); [| exact Ho1 |].
  { split; [apply sameButVisibility_refl |]. split; [reflexivity | discriminate]. }
  exists o2. split; [exact Ho2 |]. split; [exact Hr |]. split; [exact Hmask | exact Hsync].
Qed.

Lemma shadows_follow_visibility_witness :
  exists o',
    objects (visibilityRuns [seatsHidden; withModelId "2.9E" seatsHidden]
               (TNode 0 [TNode 1 []])
               (disableShadows (TNode 0 [TNode 1 []])
                  (mkHeap [group "seats"; meshOf "WATER_OCCLUDER_1" (SingleMaterial 0)]
                          []))) !! 1 = Some o' /\
    castShadow o' = false.
Proof.
  destruct (shadows_follow_visibility
              [seatsHidden; withModelId "2.9E" seatsHidden]
              (TNode 0 [TNode 1 []])
              (mkHeap [group "seats"; meshOf "WATER_OCCLUDER_1" (SingleMaterial 0)] [])
              1 (meshOf "WATER_OCCLUDER_1" (SingleMaterial 0)) eq_refl)
    as (o' & Ho' & _ & Hc & _).
  - apply (bool_decide_unpack _). vm_compute. exact I.
  - reflexivity.
  - exists o'. split; [exact Ho' |]. now apply Hc.
Defined.

(** ** The visibility effect, node by node *)

Lemma Heap_eq (h h' : Heap) :
  (forall j, objects h !! j = objects h' !! j) -> materials h = materials h' -> h = h'.
Proof.
  destruct h as [objs mats], h' as [objs' mats']. cbn. intros Ho ->.
  f_equal. now apply list_eq.
Qed.

Ltac object_fields :=
  cbn [name isMesh visible castShadow receiveShadow material userDataDepthMask
       renderOrder frustumCulled andb negb].

Ltac object_cases o :=
  destruct o as [n m vi c rs mt u ro f];
  unfold shadowAsVisible, setVisibilityOfChild, set_visible, set_castShadow, isDepthMask;
  object_fields;
  destruct m; object_fields; try reflexivity;
  destruct u; object_fields; try reflexivity;
  destruct (JS.startsWith (JS.toUpperCase n) "WATER_OCCLUDER") eqn:E; object_fields;
  rewrite ?E; object_fields; rewrite ?E; reflexivity.

Lemma setVisibilityOfChild_idem (v : bool) (o : Object3D) :
  setVisibilityOfChild v (setVisibilityOfChild v o) = setVisibilityOfChild v o.
Proof. object_cases o. Qed.

Lemma setVisibilityOfChild_after_visible (v w : bool) (o : Object3D) :
  setVisibilityOfChild v (set_visible w o) = setVisibilityOfChild v o.
Proof. reflexivity. Qed.

Lemma setVisibilityOfChild_iter (v : bool) (k : nat) (o : Object3D) :
  Nat.iter (S k) (setVisibilityOfChild v) o = setVisibilityOfChild v o.
Proof.
  induction k as [| k IH]; [reflexivity |].
  rewrite Nat.iter_succ, IH. apply setVisibilityOfChild_idem.
Qed.

(** [setGroupVisibility] node by node. *)
Lemma setGroupVisibility_exact (t : Tree) (v : bool) (h : Heap) (j : ref) :
  objects (setGroupVisibility t v h) !! j
  = (if decide (j ∈ nodes t) then setVisibilityOfChild v else fun o => o)
      <$> objects h !! j.
Proof.
  destruct (decide (j ∈ nodes t)) as [Hin | Hout].
  - rewrite setGroupVisibility_lookup.
    apply count_occ_elem_of in Hin.
    destruct (count_occ Nat.eq_dec (nodes t) j) as [| k]; [lia |].
    rewrite list_lookup_alter.
    destruct (decide (self t = j)) as [-> | _].
    + rewrite <- option_fmap_compose. apply option_fmap_ext. intros o. unfold compose.
      now rewrite setVisibilityOfChild_iter, setVisibilityOfChild_after_visible.
    + apply option_fmap_ext. intros o. apply setVisibilityOfChild_iter.
  - rewrite setGroupVisibility_outside by exact Hout.
    now destruct (objects h !! j).
Qed.

Lemma shadowAsVisible_name (o : Object3D) : name (shadowAsVisible o) = name o.
Proof. unfold shadowAsVisible. now destruct (_ && _). Qed.

Lemma shadowAsVisible_commute (v : bool) (o : Object3D) :
  shadowAsVisible (setVisibilityOfChild v o) = setVisibilityOfChild v (shadowAsVisible o).
Proof. object_cases o. Qed.

Lemma ownResolution_shadowsAsVisible (p : BoatModelProps) (h : Heap) (j : ref) :
  ownResolution p (shadowsAsVisible h) j = ownResolution p h j.
Proof.
  apply ownResolution_names. cbn [shadowsAsVisible objects].
  rewrite list_lookup_fmap, <- option_fmap_compose.
  apply option_fmap_ext. intros o. apply shadowAsVisible_name.
Qed.

Lemma setGroupVisibility_commute (t : Tree) (v : bool) (h : Heap) :
  setGroupVisibility t v (shadowsAsVisible h) = shadowsAsVisible (setGroupVisibility t v h).
Proof.
  apply Heap_eq.
  - intros j. rewrite setGroupVisibility_exact. cbn [shadowsAsVisible objects].
    rewrite !list_lookup_fmap, setGroupVisibility_exact, <- !option_fmap_compose.
    apply option_fmap_ext. intros o. unfold compose.
    destruct (decide (j ∈ nodes t)); [| reflexivity].
    symmetry. apply shadowAsVisible_commute.
  - cbn [shadowsAsVisible materials]. now rewrite !setGroupVisibility_materials.
Qed.

Lemma applyGroupVisibility_commute (p : BoatModelProps) (scene : Tree) (h : Heap) :
  applyGroupVisibility p scene (shadowsAsVisible h)
  = shadowsAsVisible (applyGroupVisibility p scene h).
Proof.
  unfold applyGroupVisibility. rewrite !traverse_preorder.
  generalize (preorder scene) h. clear.
  induction l as [| n ns IH]; intros h; [reflexivity |].
  cbn [fold_left]. rewrite <- IH. f_equal.
  rewrite !groupVisibilityCallback_cases, ownResolution_shadowsAsVisible.
  destruct (ownResolution p h (self n)); [apply setGroupVisibility_commute | reflexivity].
Qed.

Lemma inForce_ext (own own' : ref -> option bool) (t : Tree) :
  (forall j, own j = own' j) ->
  forall inh, inForce own inh t = inForce own' inh t.
Proof.
  intros Hext. induction t as [i cs IH] using Tree_ind. intros inh.
  cbn [inForce]. rewrite Hext. f_equal.
  generalize (match own' i with Some v => Some v | None => inh end).
  induction IH as [| c r Hc _ IHr]; intros g; [reflexivity |].
  cbn [flat_map]. now rewrite Hc, IHr.
Qed.

Lemma object_after_assignment (o o' : Object3D) (v : bool) :
  sameButVisibility o o' -> visible o' = v ->
  (isMesh o && negb (isDepthMask o) = true -> castShadow o' = v) ->
  o' = setVisibilityOfChild v o.
Proof.
  intros (Hn & Hm & Hrs & Hmat & Hu & Hro & Hf & Hc) Hv Hcast.
  unfold setVisibilityOfChild. cbn [set_visible isMesh].
  change (isDepthMask (set_visible v o)) with (isDepthMask o).
  destruct (isMesh o) eqn:Em; cbn [andb] in Hc, Hcast.
  - destruct (isDepthMask o) eqn:Ed; cbn [negb] in Hc, Hcast.
    + specialize (Hc eq_refl). destruct o, o'. unfold set_visible, set_castShadow. cbn in *. congruence.
    + specialize (Hcast eq_refl). destruct o, o'. unfold set_visible, set_castShadow. cbn in *. congruence.
  - specialize (Hc eq_refl). destruct o, o'. unfold set_visible, set_castShadow. cbn in *. congruence.
Qed.

Lemma object_untouched (o o' : Object3D) :
  sameButVisibility o o' -> visible o' = visible o ->
  (isMesh o && negb (isDepthMask o) = true -> castShadow o' = castShadow o) ->
  o' = o.
Proof.
  intros (Hn & Hm & Hrs & Hmat & Hu & Hro & Hf & Hc) Hv Hcast.
  assert (Hcs : castShadow o' = castShadow o).
  { destruct (isMesh o && negb (isDepthMask o)); [now apply Hcast | now apply Hc]. }
  destruct o, o'. unfold set_visible, set_castShadow. cbn in *. congruence.
Qed.

Lemma applyGroupVisibility_node (p : BoatModelProps) (scene : Tree) (h : Heap)
    (j : ref) (r : option bool) (o : Object3D) :
  wellFormed scene ->
  (j, r) ∈ inForce (ownResolution p h) None scene ->
  objects h !! j = Some o ->
  objects (applyGroupVisibility p scene h) !! j
  = Some (match r with Some v => setVisibilityOfChild v o | None => o end).
Proof.
  intros Hwf Hr Ho.
  destruct (applyGroupVisibility_same p scene h j o Ho) as (o' & Ho' & Hsame).
  destruct (applyGroupVisibility_in_force p scene h j r o Hwf Hr Ho)
    as (o1 & Ho1 & _ & Hvis).
  rewrite Ho' in Ho1. injection Ho1 as <-.
  assert (Hcast : isMesh o && negb (isDepthMask o) = true ->
                  castShadow o' = default (castShadow o) r).
  { intros Hmesh.
    assert (Hr' : (j, r) ∈ inForce (ownResolution p (shadowsAsVisible h)) None scene).
    { rewrite (inForce_ext _ (ownResolution p h)); [exact Hr |].
      intros i. apply ownResolution_shadowsAsVisible. }
    destruct (applyGroupVisibility_in_force p scene (shadowsAsVisible h) j r
                (shadowAsVisible o) Hwf Hr')
      as (o2 & Ho2 & _ & Hvis2).
    { cbn [shadowsAsVisible objects]. now rewrite list_lookup_fmap, Ho. }
    rewrite applyGroupVisibility_commute in Ho2. cbn [shadowsAsVisible objects] in Ho2.
    rewrite list_lookup_fmap, Ho' in Ho2. injection Ho2 as <-.
    destruct Hsame as (Hn & Hm & _ & _ & Hu & _).
    unfold shadowAsVisible in Hvis2.
    rewrite Hm, (isDepthMask_same _ _ Hn Hu), Hmesh in Hvis2. exact Hvis2. }
  rewrite Ho'. f_equal. destruct r as [v |]; simpl in Hvis, Hcast.
  - now apply object_after_assignment.
  - now apply object_untouched.
Qed.

(** X6. The visibility effect node by node, in a well-formed scene: a
    node at which a resolution is in force (its own, or the one of its
    nearest resolved ancestor) ends exactly as one call of the visibility
    assignment with that value leaves it, whatever its ancestors were
    given on the way; a node at which none is in force is exactly as it
    was.  Running the effect a second time changes no node. *)
Theorem visibility_effect_exact (p : BoatModelProps) (scene : Tree) (h : Heap)
    (j : ref) (r : option bool) (o : Object3D) :
  wellFormed scene ->
  (j, r) ∈ inForce (ownResolution p h) None scene ->
  objects h !! j = Some o ->
  objects (applyGroupVisibility p scene h) !! j
  = Some (match r with Some v => setVisibilityOfChild v o | None => o end) /\
  objects (applyGroupVisibility p scene (applyGroupVisibility p scene h)) !! j
  = objects (applyGroupVisibility p scene h) !! j.
Proof.
  intros Hwf Hr Ho.
  pose proof (applyGroupVisibility_node p scene h j r o Hwf Hr Ho) as H1.
  split; [exact H1 |].
  assert (Hr' : (j, r) ∈ inForce (ownResolution p (applyGroupVisibility p scene h))
                                 None scene).
  { rewrite (inForce_ext _ (ownResolution p h)); [exact Hr |].
    intros i. apply ownResolution_names.
    destruct (visibility_traverse p scene (ownResolution p h) None h Hwf) as (Hn & _).
    - reflexivity.
    - intros v j' o' Hv. discriminate.
    - apply Hn. }
  rewrite (applyGroupVisibility_node p scene _ j r _ Hwf Hr' H1), H1.
  destruct r as [v |]; [| reflexivity].
  now rewrite setVisibilityOfChild_idem.
Qed.

Lemma visibility_effect_exact_witness :
  objects (applyGroupVisibility seatsHidden deckScene deckHeap) !! 2
  = Some (setVisibilityOfChild false (meshOf "cushion" (SingleMaterial 0))).
Proof.
  refine (proj1 (visibility_effect_exact seatsHidden deckScene deckHeap 2 (Some false)
                   (meshOf "cushion" (SingleMaterial 0)) _ _ eq_refl)).
  - apply (bool_decide_unpack _). vm_compute. exact I.
  - apply list_elem_of_In. vm_compute. tauto.
Defined.

Lemma applyDepthMasks_maskStep (root : Tree) (h : Heap) :
  applyDepthMasks root h = fold_left (fun h' obj => maskStep obj h') (preorder root) h.
Proof. unfold applyDepthMasks. now rewrite traverse_preorder. Qed.

Lemma masked_masked (m m0 : ref) (o : Object3D) : masked m (masked m0 o) = masked m o.
Proof. reflexivity. Qed.

Lemma isMaskMesh_masked (m : ref) (o : Object3D) : isMaskMesh (masked m o) = isMaskMesh o.
Proof. reflexivity. Qed.

Lemma maskStep_lookup (n : Tree) (h : Heap) (j : ref) (o : Object3D) :
  objects h !! j = Some o ->
  objects (maskStep n h) !! j
  = Some (if decide (self n = j)
          then (if isMaskMesh o then masked (length (materials h)) o else o)
          else o) /\
  (materials (maskStep n h) = materials h \/
   materials (maskStep n h) = materials h ++ [depthMaskMaterial]) /\
  (self n = j -> isMaskMesh o = true ->
   materials (maskStep n h) = materials h ++ [depthMaskMaterial]).
Proof.
  intros Ho. unfold maskStep, isMaskMesh.
  destruct (decide (self n = j)) as [-> | Hne].
  - rewrite Ho. destruct (isMesh o); cbn [negb andb].
    + destruct (isDepthMask o); cbn [negb objects materials].
      * rewrite list_lookup_alter_eq, Ho. repeat split; auto.
      * repeat split; auto. discriminate.
    + repeat split; auto. discriminate.
  - assert (Hj : forall f, alter f (self n) (objects h) !! j = Some o).
    { intros f. now rewrite list_lookup_alter_ne. }
    destruct (objects h !! self n) as [on |]; [| tauto].
    destruct (isMesh on); cbn [negb]; [| tauto].
    destruct (isDepthMask on); cbn [negb objects materials]; [| tauto].
    rewrite Hj. tauto.
Qed.

Lemma maskStep_fold (ns : list Tree) :
  forall h j o,
    objects h !! j = Some o ->
    let h' := fold_left (fun h' obj => maskStep obj h') ns h in
    (exists k, materials h' = materials h ++ replicate k depthMaskMaterial) /\
    exists o', objects h' !! j = Some o' /\
               (isMaskMesh o = true -> j ∈ map self ns ->
                exists m, (length (materials h) <= m)%nat /\
                          materials h' !! m = Some depthMaskMaterial /\
                          o' = masked m o) /\
               (isMaskMesh o = false \/ j ∉ map self ns -> o' = o).
Proof.
  induction ns as [| n ns IH]; intros h j o Ho; cbn zeta.
  - split; [exists 0%nat; cbn; now rewrite app_nil_r |].
    exists o. split; [exact Ho |].
    split; [intros _ Hin; inversion Hin | reflexivity].
  - cbn [fold_left map].
    destruct (maskStep_lookup n h j o Ho) as (Ho1 & Hm1 & Hm1').
    set (h1 := maskStep n h) in *.
    set (o1 := if decide (self n = j)
               then (if isMaskMesh o then masked (length (materials h)) o else o)
               else o) in *.
    assert (Hmask1 : isMaskMesh o1 = isMaskMesh o).
    { unfold o1. destruct (decide (self n = j)); [| reflexivity].
      destruct (isMaskMesh o) eqn:E; [| exact E].
      now rewrite isMaskMesh_masked. }
    destruct (IH h1 j o1 Ho1) as ((k & Hk) & o2 & Ho2 & Hin2 & Hout2).
    assert (Hmats : exists k', materials (fold_left (fun h' obj => maskStep obj h') ns h1)
                               = materials h ++ replicate k' depthMaskMaterial).
    { destruct Hm1 as [E | E]; rewrite Hk, E.
      - now exists k.
      - exists (S k). now rewrite <- app_assoc. }
    split; [exact Hmats |].
    exists o2. split; [exact Ho2 |]. split.
    + intros Hmask Hin.
      destruct (decide (j ∈ map self ns)) as [Hr | Hr].
      * destruct (Hin2 (eq_trans Hmask1 Hmask) Hr) as (m & Hle & Hm & ->).
        exists m. split; [| split; [exact Hm |]].
        -- destruct Hm1 as [E | E]; rewrite E in Hle; [exact Hle |].
           rewrite length_app in Hle. lia.
        -- unfold o1. destruct (decide (self n = j)); [| reflexivity].
           rewrite Hmask. apply masked_masked.
      * rewrite Hout2 by now right.
        apply elem_of_cons in Hin as [Heq | Hin]; [| now destruct Hr].
        symmetry in Heq. exists (length (materials h)).
        split; [lia |]. split.
        -- rewrite Hk, (Hm1' Heq Hmask), <- app_assoc. cbn [app].
           now rewrite list_lookup_middle.
        -- unfold o1. destruct (decide (self n = j)); [| contradiction].
           now rewrite Hmask.
    + intros Hcase.
      assert (Ho1eq : o1 = o).
      { unfold o1. destruct (decide (self n = j)) as [Heq |]; [| reflexivity].
        destruct Hcase as [-> | Hout]; [reflexivity |].
        destruct Hout. rewrite <- Heq. left. }
      rewrite Hout2; [exact Ho1eq |].
      destruct Hcase as [Hmask | Hout]; [left; congruence |].
      right. intros Hin. apply Hout. now right.
Qed.

(** X7. [applyDepthMasks] binds every depth-mask mesh of the scene (marked
    by [userData.depthMask] or a name starting with WATER_OCCLUDER in any
    letter case) to a material that was not in the store before and that
    writes depth but no colour; such a mesh is drawn before the water (its
    render order 50 is below the water's 100) and is never frustum-culled,
    and keeps its name, visibility and shadow flags.  Every other node,
    and every material that existed before, is left as it was. *)
Theorem applyDepthMasks_contract (root : Tree) (h : Heap) (j : ref) (o : Object3D) :
  objects h !! j = Some o ->
  let h' := applyDepthMasks root h in
  (forall m mat, materials h !! m = Some mat -> materials h' !! m = Some mat) /\
  exists o',
    objects h' !! j = Some o' /\
    name o' = name o /\ isMesh o' = isMesh o /\ visible o' = visible o /\
    castShadow o' = castShadow o /\ receiveShadow o' = receiveShadow o /\
    (isMesh o = true -> isDepthMask o = true -> j ∈ nodes root ->
     exists m mat,
       material o' = SingleMaterial m /\
       materials h !! m = None /\
       materials h' !! m = Some mat /\
       colorWrite mat = false /\ depthWrite mat = true /\ depthTest mat = true /\
       renderOrder o' = MASK_RENDER_ORDER /\
       (renderOrder o' < WATER_RENDER_ORDER)%Z /\
       frustumCulled o' = false) /\
    (isMesh o = false \/ isDepthMask o = false \/ j ∉ nodes root -> o' = o).
Proof.
  intros Ho. cbn zeta. rewrite applyDepthMasks_maskStep.
  destruct (maskStep_fold (preorder root) h j o Ho) as ((k & Hk) & o' & Ho' & Hin & Hout).
  split.
  { intros m mat Hm. rewrite Hk. now apply lookup_app_l_Some. }
  exists o'. split; [exact Ho' |].
  assert (Hcases : o' = o \/ exists m, o' = masked m o).
  { destruct (isMaskMesh o) eqn:Emask.
    - destruct (decide (j ∈ map self (preorder root))) as [Hj | Hj].
      + destruct (Hin eq_refl Hj) as (m & _ & _ & ->). right. now exists m.
      + left. apply Hout. now right.
    - left. apply Hout. now left. }
  assert (Hfields : name o' = name o /\ isMesh o' = isMesh o /\ visible o' = visible o /\
                    castShadow o' = castShadow o /\ receiveShadow o' = receiveShadow o).
  { destruct Hcases as [-> | (m & ->)]; repeat split; reflexivity. }
  destruct Hfields as (H1 & H2 & H3 & H4 & H5).
  repeat (split; [assumption |]). split.
  - intros Hmesh Hmask Hj.
    destruct (Hin ltac:(unfold isMaskMesh; now rewrite Hmesh, Hmask) Hj)
      as (m & Hle & Hm & ->).
    exists m, depthMaskMaterial. split; [reflexivity |].
    split; [now apply lookup_ge_None |].
    split; [exact Hm |]. repeat split; reflexivity.
  - intros Hcase. apply Hout. unfold isMaskMesh.
    destruct Hcase as [-> | [-> | Hj]]; [now left | left; apply andb_false_r | now right].
Qed.

Lemma applyDepthMasks_contract_witness :
  exists o',
    objects (applyDepthMasks (TNode 0 [TNode 1 []])
               (mkHeap [group "boat"; meshOf "Water_Occluder_cap" (SingleMaterial 0)]
                       [standardMaterial "hull_white" 0xECECE8])) !! 1
    = Some o' /\
    material o' = SingleMaterial 1 /\ renderOrder o' = 50%Z.
Proof.
  destruct (applyDepthMasks_contract (TNode 0 [TNode 1 []])
              (mkHeap [group "boat"; meshOf "Water_Occluder_cap" (SingleMaterial 0)]
                      [standardMaterial "hull_white" 0xECECE8])
              1 (meshOf "Water_Occluder_cap" (SingleMaterial 0)) eq_refl)
    as (_ & o' & Ho' & _).
  exists o'. split; [exact Ho' |].
  vm_compute in Ho'. injection Ho' as <-. split; reflexivity.
Defined.

Lemma maskStep_first (n : Tree) (r : list Tree) (h : Heap) (j1 j2 : ref)
    (o1 o2 : Object3D) :
  self n = j1 -> j1 ∉ map self r -> j2 ∈ map self r -> j1 <> j2 ->
  objects h !! j1 = Some o1 -> objects h !! j2 = Some o2 ->
  isMaskMesh o1 = true -> isMaskMesh o2 = true ->
  let h' := fold_left (fun h' obj => maskStep obj h') r (maskStep n h) in
  exists o1' o2' m1 m2,
    objects h' !! j1 = Some o1' /\ objects h' !! j2 = Some o2' /\
    material o1' = SingleMaterial m1 /\ material o2' = SingleMaterial m2 /\
    m1 <> m2.
Proof.
  intros Hn Hout1 Hin2 Hne H1 H2 Hm1 Hm2. cbn zeta.
  destruct (maskStep_lookup n h j1 o1 H1) as (Hl1 & _ & Hmat).
  destruct (maskStep_lookup n h j2 o2 H2) as (Hl2 & _ & _).
  destruct (decide (self n = j1)) as [_ |]; [| contradiction].
  destruct (decide (self n = j2)) as [Heq |]; [congruence |].
  rewrite Hm1 in Hl1. specialize (Hmat Hn Hm1).
  destruct (maskStep_fold r (maskStep n h) j1 _ Hl1) as (_ & o1' & Ho1' & _ & Hkeep).
  destruct (maskStep_fold r (maskStep n h) j2 _ Hl2) as (_ & o2' & Ho2' & Hset & _).
  destruct (Hset Hm2 Hin2) as (m & Hle & _ & ->).
  rewrite (Hkeep (or_intror Hout1)) in Ho1'.
  exists (masked (length (materials h)) o1), (masked m o2), (length (materials h)), m.
  repeat split; try assumption.
  rewrite Hmat, length_app in Hle. cbn [length] in Hle. lia.
Qed.

Lemma maskStep_fold_distinct (ns : list Tree) :
  NoDup (map self ns) ->
  forall h j1 j2 o1 o2,
    j1 <> j2 -> j1 ∈ map self ns -> j2 ∈ map self ns ->
    objects h !! j1 = Some o1 -> objects h !! j2 = Some o2 ->
    isMaskMesh o1 = true -> isMaskMesh o2 = true ->
    let h' := fold_left (fun h' obj => maskStep obj h') ns h in
    exists o1' o2' m1 m2,
      objects h' !! j1 = Some o1' /\ objects h' !! j2 = Some o2' /\
      material o1' = SingleMaterial m1 /\ material o2' = SingleMaterial m2 /\
      m1 <> m2.
Proof.
  induction ns as [| n r IH]; intros Hnd h j1 j2 o1 o2 Hne Hin1 Hin2 H1 H2 Hm1 Hm2;
    [inversion Hin1 |].
  cbn [map] in Hnd, Hin1, Hin2. apply NoDup_cons in Hnd as [Hn Hnd].
  cbn zeta. cbn [fold_left].
  apply elem_of_cons in Hin1 as [E1 | Hin1]; apply elem_of_cons in Hin2 as [E2 | Hin2].
  - congruence.
  - apply (maskStep_first n r h j1 j2 o1 o2); auto. now rewrite E1.
  - destruct (maskStep_first n r h j2 j1 o2 o1) as (o2' & o1' & m2 & m1 & A & B & C & D & E);
      auto; [now rewrite E2 |].
    exists o1', o2', m1, m2. repeat split; auto.
  - destruct (maskStep_lookup n h j1 o1 H1) as (Hl1 & _).
    destruct (maskStep_lookup n h j2 o2 H2) as (Hl2 & _).
    destruct (decide (self n = j1)) as [E |]; [rewrite <- E in Hin1; contradiction |].
    destruct (decide (self n = j2)) as [E |]; [rewrite <- E in Hin2; contradiction |].
    exact (IH Hnd (maskStep n h) j1 j2 o1 o2 Hne Hin1 Hin2 Hl1 Hl2 Hm1 Hm2).
Qed.

(** X8. In a well-formed scene every depth-mask mesh gets a mask material
    of its own: two different depth-mask meshes are never bound to the same
    material after [applyDepthMasks]. *)
Theorem depth_masks_do_not_share (root : Tree) (h : Heap) (j1 j2 : ref)
    (o1 o2 : Object3D) :
  wellFormed root ->
  j1 <> j2 -> j1 ∈ nodes root -> j2 ∈ nodes root ->
  objects h !! j1 = Some o1 -> objects h !! j2 = Some o2 ->
  isMesh o1 = true -> isDepthMask o1 = true ->
  isMesh o2 = true -> isDepthMask o2 = true ->
  exists o1' o2' m1 m2,
    objects (applyDepthMasks root h) !! j1 = Some o1' /\
    objects (applyDepthMasks root h) !! j2 = Some o2' /\
    material o1' = SingleMaterial m1 /\ material o2' = SingleMaterial m2 /\
    m1 <> m2.
Proof.
  intros Hwf Hne Hj1 Hj2 H1 H2 Hmesh1 Hmask1 Hmesh2 Hmask2.
  rewrite applyDepthMasks_maskStep.
  apply (maskStep_fold_distinct (preorder root) Hwf h j1 j2 o1 o2); auto;
    unfold isMaskMesh; [now rewrite Hmesh1, Hmask1 | now rewrite Hmesh2, Hmask2].
Qed.

Lemma depth_masks_do_not_share_witness :
  exists o1' o2' m1 m2,
    objects (applyDepthMasks (TNode 0 [TNode 1 []; TNode 2 []])
               (mkHeap [group "boat"; meshOf "WATER_OCCLUDER_bow" (SingleMaterial 0);
                        meshOf "water_occluder_stern" (SingleMaterial 0)]
                       [standardMaterial "cap" 0x000000])) !! 1 = Some o1' /\
    objects (applyDepthMasks (TNode 0 [TNode 1 []; TNode 2 []])
               (mkHeap [group "boat"; meshOf "WATER_OCCLUDER_bow" (SingleMaterial 0);
                        meshOf "water_occluder_stern" (SingleMaterial 0)]
                       [standardMaterial "cap" 0x000000])) !! 2 = Some o2' /\
    material o1' = SingleMaterial m1 /\ material o2' = SingleMaterial m2 /\
    m1 <> m2.
Proof.
  apply (depth_masks_do_not_share (TNode 0 [TNode 1 []; TNode 2 []])
           (mkHeap [group "boat"; meshOf "WATER_OCCLUDER_bow" (SingleMaterial 0);
                    meshOf "water_occluder_stern" (SingleMaterial 0)]
                   [standardMaterial "cap" 0x000000])
           1 2 (meshOf "WATER_OCCLUDER_bow" (SingleMaterial 0))
           (meshOf "water_occluder_stern" (SingleMaterial 0)));
    try reflexivity; apply (bool_decide_unpack _); vm_compute; exact I.
Defined.

(** ** Loading the scene *)

Lemma lookup_map {A B : Type} (f : A -> B) (l : list A) :
  forall k, map f l !! k = f <$> l !! k.
Proof.
  induction l as [| a l IH]; intros [| k]; cbn; try reflexivity. apply IH.
Qed.

Lemma Object3D_clone_spec (t : Tree) :
  forall h,
    allocated t h ->
    objects (snd (Object3D_clone t h))
    = objects h ++ map (fun i => default emptyObject3D (objects h !! i)) (nodes t) /\
    nodes (fst (Object3D_clone t h)) = seq (length (objects h)) (length (nodes t)).
Proof.
  unfold allocated.
  induction t as [i cs IH] using Tree_ind. intros h Hall.
  cbn [Object3D_clone].
  set (go := fix cloneChildren (cs0 : list Tree) (h0 : Heap) : list Tree * Heap :=
               match cs0 with
               | [] => ([], h0)
               | c :: r =>
                   let '(c', h') := Object3D_clone c h0 in
                   let '(r', h'') := cloneChildren r h' in
                   (c' :: r', h'')
               end).
  assert (Hgo : forall h0,
             (forall j, j ∈ flat_map nodes cs -> (j < length (objects h0))%nat) ->
             objects (snd (go cs h0))
             = objects h0 ++ map (fun i => default emptyObject3D (objects h0 !! i))
                                 (flat_map nodes cs) /\
             flat_map nodes (fst (go cs h0))
             = seq (length (objects h0)) (length (flat_map nodes cs))).
  { clear Hall. induction IH as [| c r Hc _ IHr]; intros h0 H0.
    - cbn. now rewrite app_nil_r.
    - cbn [go]. fold go.
      destruct (Hc h0) as [Hc1 Hc2].
      { intros j Hj. apply H0. cbn [flat_map]. apply elem_of_app. now left. }
      destruct (Object3D_clone c h0) as [c' h']. cbn [fst snd] in Hc1, Hc2.
      destruct (IHr h') as [Hr1 Hr2].
      { intros j Hj. rewrite Hc1, length_app.
        assert (j < length (objects h0))%nat; [| lia].
        apply H0. cbn [flat_map]. apply elem_of_app. now right. }
      destruct (go r h') as [r' h'']. cbn [fst snd flat_map] in *.
      split.
      + rewrite Hr1, Hc1, map_app, <- app_assoc. do 2 f_equal.
        apply map_ext_in. intros a Ha. apply list_elem_of_In in Ha.
        rewrite lookup_app_l; [reflexivity |].
        apply H0. apply elem_of_app. now right.
      + rewrite Hc2, Hr2, Hc1, !length_app, length_map.
        now rewrite seq_app. }
  destruct (Hgo (mkHeap (objects h ++ [default emptyObject3D (objects h !! i)])
                        (materials h))) as [H1 H2].
  { intros j Hj. cbn [objects]. rewrite length_app.
    assert (j < length (objects h))%nat; [| lia].
    apply Hall. rewrite nodes_TNode. now right. }
  destruct (go cs _) as [cs' h2]. cbn [fst snd objects] in *.
  rewrite !nodes_TNode. cbn [map length seq]. split.
  - rewrite H1, <- app_assoc. cbn [app]. do 2 f_equal.
    apply map_ext_in. intros a Ha. apply list_elem_of_In in Ha.
    rewrite lookup_app_l; [reflexivity |].
    apply Hall. rewrite nodes_TNode. now right.
  - rewrite H2, length_app. cbn [length]. now rewrite Nat.add_1_r.
Qed.

Lemma Object3D_clone_skeleton (t : Tree) :
  forall h, skeleton (fst (Object3D_clone t h)) = skeleton t.
Proof.
  induction t as [i cs IH] using Tree_ind. intros h.
  cbn [Object3D_clone].
  set (go := fix cloneChildren (cs0 : list Tree) (h0 : Heap) : list Tree * Heap :=
               match cs0 with
               | [] => ([], h0)
               | c :: r =>
                   let '(c', h') := Object3D_clone c h0 in
                   let '(r', h'') := cloneChildren r h' in
                   (c' :: r', h'')
               end).
  assert (Hgo : forall h0, map skeleton (fst (go cs h0)) = map skeleton cs).
  { induction IH as [| c r Hc _ IHr]; intros h0; [reflexivity |].
    cbn [go]. fold go. specialize (Hc h0).
    destruct (Object3D_clone c h0) as [c' h']. specialize (IHr h').
    destruct (go r h') as [r' h'']. cbn [fst map] in *. now rewrite Hc, IHr. }
  specialize (Hgo (mkHeap (objects h ++ [default emptyObject3D (objects h !! i)])
                          (materials h))).
  destruct (go cs _) as [cs' h2]. cbn [fst skeleton] in *. now rewrite Hgo.
Qed.

(** X9. Loading a cached scene whose nodes are all in the heap gives a
    well-formed scene of the same parent/child structure and of as many
    new nodes, the k-th of them a copy of the
    k-th node of the cached scene (in pre-order) with the load-time changes
    and nothing else: a group is an exact copy; a mesh neither casts nor
    receives shadows; a mesh that is no depth mask keeps the material
    references of the cached mesh (it shares its materials); a depth-mask
    mesh is bound to a new depth-mask material.  No node and no material
    that existed before the load is changed by it. *)
Theorem loadScene_contract (originalScene : Tree) (h : Heap) :
  allocated originalScene h ->
  let scene := fst (loadScene originalScene h) in
  let h' := snd (loadScene originalScene h) in
  skeleton scene = skeleton originalScene /\
  nodes scene = seq (length (objects h)) (length (nodes originalScene)) /\
  wellFormed scene /\
  (forall j o, objects h !! j = Some o -> objects h' !! j = Some o) /\
  (forall m mat, materials h !! m = Some mat -> materials h' !! m = Some mat) /\
  (forall k i o,
      nodes originalScene !! k = Some i ->
      objects h !! i = Some o ->
      exists o',
        objects h' !! (length (objects h) + k)%nat = Some o' /\
        name o' = name o /\ isMesh o' = isMesh o /\ visible o' = visible o /\
        (isMesh o = false -> o' = o) /\
        (isMesh o = true -> castShadow o' = false /\ receiveShadow o' = false) /\
        (isMesh o = true -> isDepthMask o = false -> material o' = material o) /\
        (isMesh o = true -> isDepthMask o = true ->
         exists m, material o' = SingleMaterial m /\
                   materials h !! m = None /\
                   materials h' !! m = Some depthMaskMaterial)).
Proof.
  intros Hall. cbn zeta. unfold loadScene.
  destruct (Object3D_clone_spec originalScene h Hall) as [Hobj Hnodes].
  pose proof (Object3D_clone_materials originalScene h) as Hmat.
  pose proof (Object3D_clone_skeleton originalScene h) as Hshape.
  destruct (Object3D_clone originalScene h) as [scene h1]. cbn [fst snd] in *.
  assert (Hstore : forall j o1,
             objects h1 !! j = Some o1 ->
             (exists kk, materials (disableShadows scene (applyDepthMasks scene h1))
                         = materials h ++ replicate kk depthMaskMaterial) /\
             exists o2 o3,
               objects (disableShadows scene (applyDepthMasks scene h1)) !! j = Some o3 /\
               (isMaskMesh o1 = true -> j ∈ nodes scene ->
                exists m, (length (materials h) <= m)%nat /\
                          materials (disableShadows scene (applyDepthMasks scene h1)) !! m
                          = Some depthMaskMaterial /\
                          o2 = masked m o1) /\
               (isMaskMesh o1 = false \/ j ∉ nodes scene -> o2 = o1) /\
               (isMesh o2 = true -> j ∈ nodes scene -> o3 = shadowsOff o2) /\
               (isMesh o2 = false \/ j ∉ nodes scene -> o3 = o2)).
  { intros j o1 Ho1. rewrite applyDepthMasks_maskStep.
    destruct (maskStep_fold (preorder scene) h1 j o1 Ho1) as (Hk & o2 & Ho2 & Hin2 & Hout2).
    destruct (disableShadows_lookup scene _ j o2 Ho2) as (Hm3 & o3 & Ho3 & Hin3 & Hout3).
    rewrite Hm3, <- Hmat. split; [exact Hk |].
    exists o2, o3. repeat split; assumption. }
  split; [exact Hshape |].
  split; [exact Hnodes |].
  split; [unfold wellFormed; rewrite Hnodes; apply NoDup_seq |].
  split; [| split].
  - intros j o Ho.
    assert (Hout : j ∉ nodes scene).
    { rewrite Hnodes, elem_of_seq. apply lookup_lt_Some in Ho. lia. }
    destruct (Hstore j o) as (_ & o2 & o3 & Ho3 & _ & Hout2 & _ & Hout3).
    { rewrite Hobj. now apply lookup_app_l_Some. }
    rewrite Ho3, (Hout3 (or_intror Hout)), (Hout2 (or_intror Hout)). reflexivity.
  - intros m mat Hm.
    destruct (objects h1 !! 0%nat) as [o0 |] eqn:E0.
    + destruct (Hstore 0%nat o0 E0) as ((kk & ->) & _). now apply lookup_app_l_Some.
    + exfalso. apply lookup_ge_None in E0. rewrite Hobj, length_app, length_map in E0.
      assert (0 < length (nodes originalScene))%nat; [| lia].
      destruct originalScene. rewrite nodes_TNode. cbn. lia.
  - intros k i o Hk Ho.
    assert (Hin : (length (objects h) + k)%nat ∈ nodes scene).
    { rewrite Hnodes, elem_of_seq. apply lookup_lt_Some in Hk. lia. }
    destruct (Hstore (length (objects h) + k)%nat o)
      as (_ & o2 & o3 & Ho3 & Hin2 & Hout2 & Hin3 & Hout3).
    { rewrite Hobj, lookup_app_r by lia.
      replace (length (objects h) + k - length (objects h))%nat with k by lia.
      rewrite lookup_map, Hk. cbn. now rewrite Ho. }
    exists o3. split; [exact Ho3 |].
    destruct (isMesh o) eqn:Emesh.
    + destruct (isDepthMask o) eqn:Emask.
      * destruct (Hin2 ltac:(unfold isMaskMesh; now rewrite Emesh, Emask) Hin)
          as (m & Hle & Hm & ->).
        rewrite (Hin3 Emesh Hin).
        do 3 (split; [first [reflexivity | exact Emesh] |]).
        split; [discriminate |]. split; [now split |].
        split; [discriminate |].
        intros _ _. exists m. split; [reflexivity |].
        split; [now apply lookup_ge_None | exact Hm].
      * rewrite (Hout2 ltac:(left; unfold isMaskMesh; now rewrite Emesh, Emask)) in *.
        rewrite (Hin3 Emesh Hin).
        do 3 (split; [first [reflexivity | exact Emesh] |]).
        split; [discriminate |]. split; [now split |].
        split; [reflexivity | discriminate].
    + rewrite (Hout2 ltac:(left; unfold isMaskMesh; now rewrite Emesh)) in *.
      rewrite (Hout3 (or_introl Emesh)).
      do 3 (split; [first [reflexivity | exact Emesh] |]).
      split; [reflexivity |]. repeat split; discriminate.
Qed.

Lemma loadScene_contract_witness :
  nodes (fst (loadScene cachedScene cachedHeap)) = [2; 3]%nat /\
  wellFormed (fst (loadScene cachedScene cachedHeap)).
Proof.
  assert (Hall : allocated cachedScene cachedHeap).
  { intros j Hj. apply list_elem_of_In in Hj. cbn in Hj.
    destruct Hj as [<- | [<- | []]]; cbn; lia. }
  destruct (loadScene_contract cachedScene cachedHeap Hall) as (_ & Hn & Hw & _).
  split; [exact Hn | exact Hw].
Defined.

(** ** The colour snapshot *)

(** X10. The snapshot of the original hull colours takes, for each of the
    two slots, the colour of the first MeshStandardMaterial with that name
    (in any letter case) among the materials of the meshes in traversal
    order; later materials of the same name are ignored, and the slot stays
    empty exactly when no mesh of the scene has such a material. *)
Theorem captureOriginalColors_first_match (scene : Tree) (h : Heap) :
  originalWhite (captureOriginalColors scene h)
  = color <$> List.find (namedStandard "hull_white") (visitedMaterials scene h) /\
  originalGrey (captureOriginalColors scene h)
  = color <$> List.find (namedStandard "hull_grey") (visitedMaterials scene h) /\
  (originalWhite (captureOriginalColors scene h) = None <->
   Forall (fun mat => namedStandard "hull_white" mat = false) (visitedMaterials scene h)) /\
  (originalGrey (captureOriginalColors scene h) = None <->
   Forall (fun mat => namedStandard "hull_grey" mat = false) (visitedMaterials scene h)).
Proof.
  rewrite captureOriginalColors_captureAll, captureAll_white, captureAll_grey.
  cbn [originalWhite originalGrey].
  assert (Hnone : forall slot (l : list Material),
             color <$> List.find (namedStandard slot) l = None <->
             Forall (fun mat => namedStandard slot mat = false) l).
  { intros slot l. induction l as [| mat l IH]; cbn [List.find].
    - split; [constructor | reflexivity].
    - destruct (namedStandard slot mat) eqn:E.
      + split; [discriminate |]. intros HF. apply Forall_cons in HF as [HF _]. congruence.
      + rewrite IH. split; [intros HF; now constructor |].
        intros HF. now apply Forall_cons in HF as [_ HF]. }
  repeat split; try apply Hnone.
Qed.

(** ** The camera over whole event traces *)

Section CameraTraces.
Import Camera.
Local Open Scope Q_scope.

Lemma differs_refl (a : Q) : differs a a = false.
Proof.
  unfold differs. apply negb_false_iff, Qle_bool_iff.
  apply Qabs_Qle_condition.
  split; destruct a as [n d]; unfold Qle, Qminus, Qplus, Qopp; cbn; lia.
Qed.

(** What a hold of the right button looks like. *)
Lemma hold_trace (es : list Event) :
  forall s c y0,
    Forall (fun e => forall b, e = Up b -> b <> 2%Z) es ->
    controls s = Some c -> rmbActive s = true -> initialCameraY s = Some y0 ->
    enableRotate c = false -> enableZoom c = false -> enablePan c = true ->
    rmbActive (run es s) = true /\ initialCameraY (run es s) = Some y0 /\
    exists c', controls (run es s) = Some c' /\
               enableRotate c' = false /\ enableZoom c' = false /\ enablePan c' = true.
Proof.
  unfold run. induction es as [| e es IH]; intros s c y0 Hes Hc Hr Hy Hrot Hzoom Hpan.
  - cbn. eauto 10.
  - apply Forall_cons in Hes as [He Hes]. cbn [fold_left].
    destruct (hold_kept e s c He Hc Hr Hrot Hzoom Hpan) as (Hr1 & c1 & Hc1 & H1 & H2 & H3).
    exact (IH _ c1 y0 Hes Hc1 Hr1 (initialCameraY_kept e s y0 Hy) H1 H2 H3).
Qed.

(** X11. While the right button is held, whatever else happened since the
    press (frames, camera moves by OrbitControls, other buttons pressed or
    released, further presses of the right button), the frame callback
    calls [controls.update()] on a state that passes the callback's own
    tests: the camera height does not differ from the stored height, nor
    the target height from 0.3, by more than 1e-6; the orbit target is at
    the centre of the model in x and z; rotate and zoom are off and pan is
    on.  The stored height is the camera height at the press when none was
    stored before (the first hold), and the height stored earlier
    otherwise.  What [update] then does to the camera is three.js code and
    is left open. *)
Theorem pan_hold_update_starts_pinned (update : State -> State) (es : list Event)
    (s : State) (c : OrbitControls) :
  controls s = Some c ->
  Forall (fun e => forall b, e = Up b -> b <> 2%Z) es ->
  let y0 := default (cameraY s) (initialCameraY s) in
  let held := run es (onDown 2 s) in
  exists handed,
    useFrameCallback update held = update handed /\
    differs (cameraY handed) y0 = false /\
    rmbActive handed = true /\
    initialCameraY handed = Some y0 /\
    exists c', controls handed = Some c' /\
               enableRotate c' = false /\ enableZoom c' = false /\ enablePan c' = true /\
               targetX c' = fst (targetCenter held) /\
               targetZ c' = snd (targetCenter held) /\
               differs (targetY c') targetYConst = false.
Proof.
  intros Hc Hes. cbn zeta.
  assert (Hdown : controls (onDown 2 s)
                  = Some (mkControls false false true (targetX c) (targetY c) (targetZ c)) /\
                  rmbActive (onDown 2 s) = true /\
                  initialCameraY (onDown 2 s)
                  = Some (default (cameraY s) (initialCameraY s))).
  { unfold onDown. cbn. rewrite Hc. now destruct (initialCameraY s). }
  destruct Hdown as (Hc1 & Hr1 & Hy1).
  destruct (hold_trace es _ _ _ Hes Hc1 Hr1 Hy1 eq_refl eq_refl eq_refl)
    as (Hr2 & Hy2 & c2 & Hc2 & H1 & H2 & H3).
  exists (onFrame (run es (onDown 2 s))).
  split; [unfold useFrameCallback; now rewrite Hc2 |].
  unfold onFrame. rewrite Hc2, Hy2, Hr2.
  cbn [rmbActive initialCameraY controls cameraY andb].
  split.
  { destruct (differs (cameraY (run es (onDown 2 s))) _) eqn:Hd;
      [apply differs_refl | exact Hd]. }
  split; [reflexivity |]. split; [reflexivity |].
  eexists. split; [reflexivity |].
  cbn [enableRotate enableZoom enablePan targetX targetY targetZ].
  do 5 (split; [first [assumption | reflexivity] |]).
  destruct (differs (targetY c2) targetYConst) eqn:Hd; [apply differs_refl | exact Hd].
Qed.

Lemma pan_hold_update_starts_pinned_witness :
  let held := run [Frame; ControlsMove 4; Down 0; Up 0; ControlsMove 7]
                  (onDown 2 initial) in
  exists handed,
    useFrameCallback (fun s => step s (ControlsMove 9)) held
    = step handed (ControlsMove 9) /\
    differs (cameraY handed) (5 # 2) = false.
Proof.
  destruct (pan_hold_update_starts_pinned (fun s => step s (ControlsMove 9))
              [Frame; ControlsMove 4; Down 0%Z; Up 0%Z; ControlsMove 7]
              initial _ eq_refl)
    as (handed & Hcall & Hpin & _).
  - repeat constructor; intros b Hb; try discriminate; injection Hb as <-; discriminate.
  - exists handed. split; [exact Hcall | exact Hpin].
Defined.

(** X12. Started with pan on and rotate and zoom off exactly during a hold,
    the controls stay so after every sequence of events: rotate and zoom
    are disabled exactly while the right button is held, and panning is
    never disabled. *)
Theorem controls_flags_follow_hold (es : list Event) :
  forall s c,
    controls s = Some c ->
    enablePan c = true ->
    enableRotate c = negb (rmbActive s) ->
    enableZoom c = negb (rmbActive s) ->
    exists c', controls (run es s) = Some c' /\
               enablePan c' = true /\
               enableRotate c' = negb (rmbActive (run es s)) /\
               enableZoom c' = negb (rmbActive (run es s)).
Proof.
  unfold run. induction es as [| e es IH]; intros s c Hc Hpan Hrot Hzoom.
  - cbn. eauto.
  - cbn [fold_left].
    assert (Hstep : exists c1, controls (step s e) = Some c1 /\
                               enablePan c1 = true /\
                               enableRotate c1 = negb (rmbActive (step s e)) /\
                               enableZoom c1 = negb (rmbActive (step s e))).
    { destruct e as [b | b | | y]; cbn [step].
      - unfold onDown. destruct (b =? 1)%Z; [eauto |].
        destruct (b =? 2)%Z; [| eauto]. rewrite Hc. cbn. eauto.
      - unfold onUp. destruct (b =? 2)%Z; [| eauto]. rewrite Hc. cbn. eauto.
      - unfold onFrame. rewrite Hc. cbn. eauto.
      - cbn. eauto. }
    destruct Hstep as (c1 & Hc1 & H1 & H2 & H3).
    exact (IH _ c1 Hc1 H1 H2 H3).
Qed.

Lemma controls_flags_follow_hold_witness :
  exists c', controls (run [Down 2; Frame; Down 1; Up 2; Up 0; ControlsMove 3] initial)
             = Some c' /\
             enablePan c' = true /\ enableRotate c' = true /\ enableZoom c' = true.
Proof.
  destruct (controls_flags_follow_hold
              [Down 2%Z; Frame; Down 1%Z; Up 2%Z; Up 0%Z; ControlsMove 3]
              initial _ eq_refl eq_refl eq_refl eq_refl)
    as (c' & Hc & H1 & H2 & H3).
  exists c'. repeat split; assumption.
Defined.

End CameraTraces.

(** ** What the colour effect leaves alone *)

Lemma colourFieldsOnly_refl (mat : Material) : colourFieldsOnly mat mat.
Proof. unfold colourFieldsOnly. repeat split; auto. Qed.

Lemma isStandard_class (x y : Material) :
  materialClass x = materialClass y -> isStandard x = isStandard y.
Proof. unfold isStandard. now intros ->. Qed.

Ltac colour_rule_step x H :=
  destruct H as (H1 & H2 & H3 & H4 & H5 & H6 & H7 & H8 & H9 & H10 & H11);
  pose proof (isStandard_class _ _ H1) as Hstd;
  destruct (isStandard x) eqn:Ex; cbn [negb];
  [| unfold colourFieldsOnly; repeat split; auto ].

Lemma hullColorRule_fields (p : BoatModelProps) (oc : OriginalColors) (mat x : Material) :
  colourFieldsOnly mat x -> colourFieldsOnly mat (hullColorRule p oc x).
Proof.
  intros H. unfold hullColorRule. colour_rule_step x H.
  destruct (isHullSlot (JS.toLowerCase (materialName x)));
    [| unfold colourFieldsOnly; repeat split; auto; congruence].
  unfold colourFieldsOnly.
  destruct (useCustomColor p); [| destruct (hullColorMode p)];
    cbn; repeat split; auto; try lia; congruence.
Qed.

Lemma materialTypeRule_fields (p : BoatModelProps) (mat x : Material) :
  colourFieldsOnly mat x -> colourFieldsOnly mat (materialTypeRule p x).
Proof.
  intros H. unfold materialTypeRule. colour_rule_step x H.
  unfold colourFieldsOnly. cbn. repeat split; auto; try lia; congruence.
Qed.

Lemma accentRule_fields (accentHex : string) (mat x : Material) :
  colourFieldsOnly mat x -> colourFieldsOnly mat (accentRule accentHex x).
Proof.
  intros H. unfold accentRule. colour_rule_step x H.
  unfold colourFieldsOnly. cbn. repeat split; auto; try lia; congruence.
Qed.

Lemma colorMaterialOn_fields (p : BoatModelProps) (oc : OriginalColors)
    (meshName : string) (k : nat) (mat x : Material) :
  colourFieldsOnly mat x -> colourFieldsOnly mat (colorMaterialOn p oc meshName k x).
Proof.
  intros H. unfold colorMaterialOn, softDeckOn.
  assert (H1 : colourFieldsOnly mat (Nat.iter k (hullColorRule p oc) x)).
  { apply iter_invariant; [intros y; apply hullColorRule_fields | exact H]. }
  set (x1 := Nat.iter k (hullColorRule p oc) x) in *.
  assert (H2 : colourFieldsOnly mat
                 (if isMaterialTypeMesh (modelId p) meshName
                  then Nat.iter k (materialTypeRule p) x1 else x1)).
  { destruct (isMaterialTypeMesh (modelId p) meshName); [| exact H1].
    apply iter_invariant; [intros y; apply materialTypeRule_fields | exact H1]. }
  set (x2 := if isMaterialTypeMesh (modelId p) meshName
             then Nat.iter k (materialTypeRule p) x1 else x1) in *.
  destruct (softDeckColor p) as [key |]; [| exact H2].
  destruct (JS.truthy key); [| exact H2].
  destruct (softDeckPalette key) as [softDeckHex stripHex].
  assert (H3 : colourFieldsOnly mat
                 (if JS.includes (softDeckMeshes (modelId p)) meshName
                  then Nat.iter k (accentRule softDeckHex) x2 else x2)).
  { destruct (JS.includes (softDeckMeshes (modelId p)) meshName); [| exact H2].
    apply iter_invariant; [intros y; apply accentRule_fields | exact H2]. }
  destruct (JS.includes (stripMeshes (modelId p)) meshName); [| exact H3].
  apply iter_invariant; [intros y; apply accentRule_fields | exact H3].
Qed.

Lemma colorPassOn_fields (p : BoatModelProps) (oc : OriginalColors)
    (objs : list Object3D) (ns : list Tree) (m : ref) (mat : Material) :
  forall x, colourFieldsOnly mat x -> colourFieldsOnly mat (colorPassOn p oc objs ns m x).
Proof.
  unfold colorPassOn. induction ns as [| n ns IH]; intros x H; [exact H |].
  cbn [fold_left]. apply IH. unfold colorNodeOn.
  destruct (objs !! self n) as [o |]; [| exact H].
  destruct (isMesh o); cbn [negb]; [| exact H].
  now apply colorMaterialOn_fields.
Qed.

Lemma colorPassOn_unbound (p : BoatModelProps) (oc : OriginalColors)
    (objs : list Object3D) (ns : list Tree) (m : ref) (mat : Material) :
  (forall n o, n ∈ ns -> objs !! self n = Some o -> isMesh o = true ->
               m ∉ materialsOf (material o)) ->
  colorPassOn p oc objs ns m mat = mat.
Proof.
  unfold colorPassOn. induction ns as [| n ns IH]; intros H; [reflexivity |].
  cbn [fold_left].
  assert (Hn : colorNodeOn p oc objs n m mat = mat).
  { unfold colorNodeOn. destruct (objs !! self n) as [o |] eqn:Eo; [| reflexivity].
    destruct (isMesh o) eqn:Em; cbn [negb]; [| reflexivity].
    assert (Hk : count_occ Nat.eq_dec (materialsOf (material o)) m = 0%nat).
    { pose proof (H n o ltac:(left) Eo Em) as Hout.
      rewrite count_occ_elem_of in Hout. lia. }
    rewrite Hk. apply colorMaterialOn_unbound. }
  rewrite Hn. apply IH. intros n' o Hn'. apply H. now right.
Qed.

(** X14. The colour effect changes no scene node, and of a material only
    the colour, metalness, roughness, opacity and transparency, with a
    version that is never lowered: class, name, and the depth and
    colour-write state stay.  A material that is no MeshStandardMaterial (a
    depth-mask material, say) is left exactly as it was, and so is every
    material that no mesh of the scene is bound to. *)
Theorem applyColors_frame (p : BoatModelProps) (oc : OriginalColors) (scene : Tree)
    (h : Heap) (m : ref) (mat : Material) :
  materials h !! m = Some mat ->
  objects (applyColors p oc scene h) = objects h /\
  exists mat',
    materials (applyColors p oc scene h) !! m = Some mat' /\
    colourFieldsOnly mat mat' /\
    ((forall n o, n ∈ preorder scene -> objects h !! self n = Some o ->
                  isMesh o = true -> m ∉ materialsOf (material o)) ->
     mat' = mat).
Proof.
  intros Hm. split; [apply applyColors_objects |].
  exists (colorPassOn p oc (objects h) (preorder scene) m mat).
  split; [now rewrite applyColors_lookup, Hm |].
  split; [apply colorPassOn_fields, colourFieldsOnly_refl |].
  apply colorPassOn_unbound.
Qed.

Lemma applyColors_frame_witness :
  objects (applyColors customOrange (mkOriginalColors None None) cachedScene cachedHeap)
  = objects cachedHeap.
Proof.
  exact (proj1 (applyColors_frame customOrange (mkOriginalColors None None)
                  cachedScene cachedHeap 0
                  (standardMaterial "hull_white" 0xECECE8) eq_refl)).
Defined.

(** ** The two effects together *)

Lemma applyGroupVisibility_materials (p : BoatModelProps) (scene : Tree) (h : Heap) :
  materials (applyGroupVisibility p scene h) = materials h.
Proof.
  unfold applyGroupVisibility. rewrite traverse_preorder.
  generalize (preorder scene) h. clear.
  induction l as [| n ns IH]; intros h; [reflexivity |].
  cbn [fold_left]. now rewrite IH, groupVisibilityCallback_materials.
Qed.

Lemma applyGroupVisibility_objects_only (p : BoatModelProps) (scene : Tree) (h h' : Heap) :
  objects h = objects h' ->
  objects (applyGroupVisibility p scene h) = objects (applyGroupVisibility p scene h').
Proof.
  unfold applyGroupVisibility. rewrite !traverse_preorder.
  generalize (preorder scene) h h'. clear.
  induction l as [| n ns IH]; intros h h' Heq; [exact Heq |].
  cbn [fold_left]. apply IH.
  rewrite !groupVisibilityCallback_cases.
  assert (Hown : ownResolution p h (self n) = ownResolution p h' (self n))
    by (unfold ownResolution; now rewrite Heq).
  rewrite Hown. destruct (ownResolution p h' (self n)); [| exact Heq].
  now rewrite !setGroupVisibility_objects, Heq.
Qed.

Lemma applyGroupVisibility_all_names (p : BoatModelProps) (scene : Tree) (h : Heap)
    (j : ref) :
  name <$> objects (applyGroupVisibility p scene h) !! j = name <$> objects h !! j.
Proof.
  unfold applyGroupVisibility. rewrite traverse_preorder.
  generalize (preorder scene) h. clear.
  induction l as [| n ns IH]; intros h; [reflexivity |].
  cbn [fold_left]. now rewrite IH, groupVisibilityCallback_names.
Qed.

Lemma colorPassOn_objects_ext (p : BoatModelProps) (oc : OriginalColors)
    (objs objs' : list Object3D) (ns : list Tree) (m : ref) :
  (forall j, match objs !! j, objs' !! j with
             | Some o, Some o' =>
                 isMesh o' = isMesh o /\ name o' = name o /\ material o' = material o
             | None, None => True
             | _, _ => False
             end) ->
  forall mat, colorPassOn p oc objs ns m mat = colorPassOn p oc objs' ns m mat.
Proof.
  intros Hobjs. unfold colorPassOn.
  induction ns as [| n ns IH]; intros mat; [reflexivity |].
  cbn [fold_left]. rewrite IH. f_equal.
  unfold colorNodeOn. specialize (Hobjs (self n)).
  destruct (objs !! self n) as [o |], (objs' !! self n) as [o' |];
    try contradiction; [| reflexivity].
  destruct Hobjs as (-> & -> & ->). reflexivity.
Qed.

(** X15. The visibility effect and the colour effect do not interfere:
    run in either order, with whatever properties each, they leave the
    same scene and the same materials. *)
Theorem visibility_and_colour_commute (p p' : BoatModelProps) (oc : OriginalColors)
    (scene : Tree) (h : Heap) :
  applyColors p oc scene (applyGroupVisibility p' scene h)
  = applyGroupVisibility p' scene (applyColors p oc scene h).
Proof.
  apply Heap_eq.
  - intros j. rewrite applyColors_objects.
    now rewrite (applyGroupVisibility_objects_only p' scene (applyColors p oc scene h) h)
      by apply applyColors_objects.
  - apply list_eq. intros m.
    rewrite applyGroupVisibility_materials, !applyColors_lookup,
      applyGroupVisibility_materials.
    apply option_fmap_ext. intros mat. symmetry.
    apply colorPassOn_objects_ext. intros j.
    pose proof (applyGroupVisibility_all_names p' scene h j) as Hn.
    destruct (objects h !! j) as [o |] eqn:Ho.
    + destruct (applyGroupVisibility_same p' scene h j o Ho)
        as (o' & Ho' & Hname & Hmesh & _ & Hmat & _).
      rewrite Ho'. auto.
    + destruct (objects (applyGroupVisibility p' scene h) !! j); [discriminate | exact I].
Qed.

(** ** The configurator: options, price and what the viewer gets *)

Section ConfiguratorFacts.
Import PrimFloat.

Lemma includes_app_one (l : list string) (x y : string) :
  JS.includes (l ++ [x]) y = JS.includes l y || String.eqb y x.
Proof.
  unfold JS.includes. rewrite existsb_app. cbn. now rewrite orb_false_r.
Qed.

Lemma includes_filter_out (l : list string) (x y : string) :
  JS.includes (List.filter (fun id => negb (String.eqb id x)) l) y
  = JS.includes l y && negb (String.eqb y x).
Proof.
  unfold JS.includes. induction l as [| a l IH]; [reflexivity |].
  cbn [List.filter existsb].
  destruct (String.eqb a x) eqn:Eax; cbn [negb].
  - rewrite IH. apply String.eqb_eq in Eax. subst a.
    destruct (String.eqb y x); cbn [negb orb].
    + now rewrite !andb_false_r.
    + now rewrite !andb_true_r.
  - cbn [existsb]. rewrite IH.
    destruct (String.eqb y a) eqn:Eya; cbn [orb]; [| reflexivity].
    apply String.eqb_eq in Eya. subst y. now rewrite Eax.
Qed.

Lemma toggleOption_includes (x y : string) (c : Configurator.Configuration) :
  JS.includes (Configurator.optionIds (Configurator.toggleOption x c)) y
  = if String.eqb x y
    then negb (JS.includes (Configurator.optionIds c) y)
    else JS.includes (Configurator.optionIds c) y.
Proof.
  unfold Configurator.toggleOption. cbn [Configurator.optionIds].
  destruct (JS.includes (Configurator.optionIds c) x) eqn:Ex.
  - rewrite includes_filter_out.
    destruct (String.eqb_spec x y) as [<- | Hxy].
    + now rewrite Ex, String.eqb_refl.
    + destruct (String.eqb_spec y x); [now subst | now rewrite andb_true_r].
  - rewrite includes_app_one.
    destruct (String.eqb_spec x y) as [<- | Hxy].
    + now rewrite Ex, String.eqb_refl.
    + destruct (String.eqb_spec y x); [now subst | now rewrite orb_false_r].
Qed.

Lemma toggleAll_includes (ts : list string) (optionId : string) :
  forall c,
    JS.includes (Configurator.optionIds (toggleAll ts c)) optionId
    = xorb (JS.includes (Configurator.optionIds c) optionId)
           (Nat.odd (count_occ string_dec ts optionId)).
Proof.
  unfold toggleAll. induction ts as [| x ts IH]; intros c.
  - cbn. now rewrite xorb_false_r.
  - cbn [fold_left count_occ]. rewrite IH, toggleOption_includes.
    destruct (string_dec x optionId) as [-> | Hne].
    + rewrite String.eqb_refl, Nat.odd_succ, <- Nat.negb_odd.
      now destruct (JS.includes _ _), (Nat.odd _).
    + destruct (String.eqb_spec x optionId); [contradiction | reflexivity].
Qed.

Lemma toggleAll_modelId (ts : list string) :
  forall c, Configurator.modelId (toggleAll ts c) = Configurator.modelId c.
Proof.
  unfold toggleAll. induction ts as [| x ts IH]; intros c; [reflexivity |].
  cbn [fold_left]. now rewrite IH.
Qed.

(** X16. An option is selected after a sequence of toggles exactly when it
    was selected before and toggled an even number of times, or not
    selected before and toggled an odd number of times; toggles of other
    options do not matter. *)
Theorem option_selected_by_parity (ts : list string) (optionId : string)
    (c : Configurator.Configuration) :
  JS.includes (Configurator.optionIds (toggleAll ts c)) optionId
  = xorb (JS.includes (Configurator.optionIds c) optionId)
         (Nat.odd (count_occ string_dec ts optionId)).
Proof. apply toggleAll_includes. Qed.

Lemma toggleOption_NoDup (x : string) (c : Configurator.Configuration) :
  NoDup (Configurator.optionIds c) ->
  NoDup (Configurator.optionIds (Configurator.toggleOption x c)).
Proof.
  intros Hnd. unfold Configurator.toggleOption. cbn [Configurator.optionIds].
  destruct (JS.includes (Configurator.optionIds c) x) eqn:Ex.
  - apply NoDup_ListNoDup, List.NoDup_filter. now apply NoDup_ListNoDup.
  - apply NoDup_app. split; [exact Hnd |]. split; [| apply NoDup_singleton].
    intros y Hy Hy'. apply list_elem_of_singleton in Hy'. subst y.
    apply list_elem_of_In, includes_elem in Hy. congruence.
Qed.

(** X17. Through every sequence of the actions of the context (options
    toggled, model, material, colour or wave mode set, the configuration
    reset), starting from a configuration without repeated option ids, no
    option id occurs twice among the selected options, so that no option
    is priced twice. *)
Theorem optionIds_never_repeat (actions : list Configurator.Action) :
  forall c,
    NoDup (Configurator.optionIds c) ->
    NoDup (Configurator.optionIds (fold_left Configurator.dispatch actions c)).
Proof.
  induction actions as [| a actions IH]; intros c Hnd; [exact Hnd |].
  cbn [fold_left]. apply IH.
  destruct a; cbn [Configurator.dispatch]; try exact Hnd.
  - now apply toggleOption_NoDup.
  - apply NoDup_singleton.
Qed.

Lemma optionIds_never_repeat_witness :
  NoDup (Configurator.optionIds
           (fold_left Configurator.dispatch
              [Configurator.ToggleOption "t-top"; Configurator.SetModel "3.3E";
               Configurator.ToggleOption "soft-deck"; Configurator.ToggleOption "soft-deck"]
              Configurator.DEFAULT_CONFIG)).
Proof.
  apply (optionIds_never_repeat _ Configurator.DEFAULT_CONFIG).
  apply NoDup_singleton.
Defined.

(** *** The price *)

Lemma addOptions_app (catalog : Configurator.Catalog) (l1 l2 : list string) (acc : PrimFloat.float) :
  Configurator.addOptions catalog (l1 ++ l2) acc
  = Configurator.addOptions catalog l2 (Configurator.addOptions catalog l1 acc).
Proof. unfold Configurator.addOptions. apply fold_left_app. Qed.

Lemma filter_out_absent (l : list string) (x : string) :
  ~ In x l -> List.filter (fun id => negb (String.eqb id x)) l = l.
Proof.
  induction l as [| a l IH]; intros Hx; [reflexivity |].
  cbn [List.filter]. destruct (String.eqb_spec a x) as [-> | _].
  - destruct Hx. now left.
  - cbn [negb]. f_equal. apply IH. intros H. apply Hx. now right.
Qed.

Lemma addOptions_filter_unknown (catalog : Configurator.Catalog) (x : string)
    (l : list string) :
  Configurator.getOption catalog x = None ->
  forall acc,
    Configurator.addOptions catalog
      (List.filter (fun id => negb (String.eqb id x)) l) acc
    = Configurator.addOptions catalog l acc.
Proof.
  intros Hnone. unfold Configurator.addOptions.
  induction l as [| a l IH]; intros acc; [reflexivity |].
  cbn [List.filter]. destruct (String.eqb_spec a x) as [-> | _]; cbn [negb fold_left].
  - rewrite Hnone. apply IH.
  - apply IH.
Qed.

Lemma toggleOption_twice (optionId : string) (c : Configurator.Configuration) :
  JS.includes (Configurator.optionIds c) optionId = false ->
  Configurator.toggleOption optionId (Configurator.toggleOption optionId c) = c.
Proof.
  intros Hout.
  assert (Hin : JS.includes (Configurator.optionIds (Configurator.toggleOption optionId c))
                            optionId = true).
  { now rewrite toggleOption_includes, String.eqb_refl, Hout. }
  unfold Configurator.toggleOption at 1. rewrite Hin.
  unfold Configurator.toggleOption. rewrite Hout.
  cbn [Configurator.modelId Configurator.materialId Configurator.colour
       Configurator.optionIds Configurator.waveMode].
  rewrite List.filter_app, filter_out_absent.
  - cbn [List.filter]. rewrite String.eqb_refl. cbn [negb]. rewrite app_nil_r.
    now destruct c.
  - intros Hx. apply includes_elem in Hx. congruence.
Qed.

(** X18. Toggling an option and the price, in the arithmetic of the code
    (doubles).  The base price and the custom colour price are not
    touched.  The id of an option the catalogue does not have changes
    nothing in the price breakdown.  Selecting an option that was not
    selected adds its price to the sum of the options by one more addition
    at the end of the loop, and deselecting it again gives back the
    configuration, hence exactly the breakdown there was before. *)
Theorem toggleOption_and_price (catalog : Configurator.Catalog)
    (c : Configurator.Configuration) (optionId : string) :
  let before := Configurator.calculatePrice catalog c in
  let after := Configurator.calculatePrice catalog (Configurator.toggleOption optionId c) in
  Configurator.basePrice after = Configurator.basePrice before /\
  Configurator.customColorPrice after = Configurator.customColorPrice before /\
  (Configurator.getOption catalog optionId = None -> after = before) /\
  (JS.includes (Configurator.optionIds c) optionId = false ->
   Configurator.calculatePrice catalog
     (Configurator.toggleOption optionId (Configurator.toggleOption optionId c))
   = before /\
   forall option,
     Configurator.getOption catalog optionId = Some option ->
     Configurator.addOptions catalog
       (Configurator.optionIds (Configurator.toggleOption optionId c)) 0%float
     = PrimFloat.add
         (Configurator.addOptions catalog (Configurator.optionIds c) 0%float)
         (Configurator.priceUsd option) /\
     (Configurator.colourType (Configurator.colour c) = Configurator.palette ->
      Configurator.total after
      = PrimFloat.add (Configurator.basePrice before)
          (PrimFloat.add (Configurator.optionsTotal before)
                         (Configurator.priceUsd option)))).
Proof.
  cbn zeta. split; [reflexivity |]. split; [reflexivity |]. split.
  - intros Hnone. unfold Configurator.calculatePrice, Configurator.toggleOption.
    cbn [Configurator.modelId Configurator.materialId Configurator.colour
         Configurator.optionIds].
    assert (Hsum : Configurator.addOptions catalog
                     (if JS.includes (Configurator.optionIds c) optionId
                      then List.filter (fun id => negb (String.eqb id optionId))
                             (Configurator.optionIds c)
                      else Configurator.optionIds c ++ [optionId]) 0%float
                   = Configurator.addOptions catalog (Configurator.optionIds c)
                       0%float).
    { destruct (JS.includes (Configurator.optionIds c) optionId).
      - now apply addOptions_filter_unknown.
      - rewrite addOptions_app. unfold Configurator.addOptions at 1.
        cbn [fold_left]. now rewrite Hnone. }
    now rewrite Hsum.
  - intros Hout. split; [now rewrite toggleOption_twice |].
    intros option Hsome.
    assert (Hsum : Configurator.addOptions catalog
                     (Configurator.optionIds (Configurator.toggleOption optionId c))
                     0%float
                   = PrimFloat.add
                       (Configurator.addOptions catalog (Configurator.optionIds c)
                          0%float)
                       (Configurator.priceUsd option)).
    { unfold Configurator.toggleOption. rewrite Hout. cbn [Configurator.optionIds].
      rewrite addOptions_app. unfold Configurator.addOptions at 1.
      cbn [fold_left]. now rewrite Hsome. }
    split; [exact Hsum |].
    intros Hpalette. unfold Configurator.calculatePrice.
    cbn [Configurator.total Configurator.basePrice Configurator.optionsTotal].
    change (Configurator.colour (Configurator.toggleOption optionId c))
      with (Configurator.colour c).
    change (Configurator.modelId (Configurator.toggleOption optionId c))
      with (Configurator.modelId c).
    change (Configurator.materialId (Configurator.toggleOption optionId c))
      with (Configurator.materialId c).
    now rewrite Hpalette, Hsum.
Qed.

(** The sum of the prices 0.1 and 0.2 is the double 0.30000000000000004. *)
Lemma toggleOption_and_price_witness :
  let catalog := Configurator.mkCatalog []
                   [Configurator.mkOption "soft-deck" 0x1.999999999999ap-4%float;
                    Configurator.mkOption "t-top" 0x1.999999999999ap-3%float]
                   0%float in
  Configurator.total
    (Configurator.calculatePrice catalog
       (Configurator.toggleOption "t-top" Configurator.DEFAULT_CONFIG))
  = 0x1.3333333333334p-2%float /\
  PrimFloat.eqb 0x1.3333333333334p-2%float 0x1.3333333333333p-2%float = false.
Proof.
  destruct (toggleOption_and_price
              (Configurator.mkCatalog []
                 [Configurator.mkOption "soft-deck" 0x1.999999999999ap-4%float;
                  Configurator.mkOption "t-top" 0x1.999999999999ap-3%float]
                 0%float)
              Configurator.DEFAULT_CONFIG "t-top")
    as (_ & _ & _ & Hon).
  destruct (Hon eq_refl) as (_ & Hadd).
  destruct (Hadd (Configurator.mkOption "t-top" 0x1.999999999999ap-3%float) eq_refl)
    as (_ & Htotal).
  split; [| reflexivity].
  rewrite (Htotal eq_refl). vm_compute. reflexivity.
Defined.

End ConfiguratorFacts.

Section ConfiguratorViewer.

(** X19. Toggling an option changes what the viewer gets in two places
    only.  The visibility resolution of a node name changes only when the
    mapping found for it is hidden by default and linked to the toggled
    option, and for such a name (not auto-managed, option id not empty) it
    flips between shown and hidden.  The soft deck colour changes only when
    the toggled option is soft-deck: it is withheld when the option was
    selected and passed on when it was not.  Model, hull colour, material
    type and mappings are as before. *)
Theorem toggleOption_reaches_viewer (app : Configurator.AppState)
    (optionId childName : string) :
  let ids := Configurator.optionIds (Configurator.configuration app) in
  let p := Configurator.viewerProps app in
  let p' := Configurator.viewerProps
              (Configurator.withConfiguration
                 (Configurator.toggleOption optionId (Configurator.configuration app))
                 app) in
  (modelId p' = modelId p /\ hullColor p' = hullColor p /\
   materialType p' = materialType p /\ useCustomColor p' = useCustomColor p /\
   hullColorMode p' = hullColorMode p /\
   groupVisibilityMappings p' = groupVisibilityMappings p) /\
  softDeckColor p'
  = (if String.eqb optionId "soft-deck"
     then (if JS.includes ids "soft-deck" then None else Configurator.softDeckColor app)
     else softDeckColor p) /\
  (resolveVisibility p' childName <> resolveVisibility p childName ->
   exists mapping,
     findMapping (groupVisibilityMappings p) childName (getBaseModelId (modelId p))
     = Some mapping /\
     hiddenByDefault mapping = true /\ linkedOptionId mapping = Some optionId) /\
  (forall mapping,
      findMapping (groupVisibilityMappings p) childName (getBaseModelId (modelId p))
      = Some mapping ->
      hiddenByDefault mapping = true -> linkedOptionId mapping = Some optionId ->
      JS.truthy optionId = true -> JS.truthy childName = true ->
      autoManaged childName = false ->
      resolveVisibility p childName = Some (JS.includes ids optionId) /\
      resolveVisibility p' childName = Some (negb (JS.includes ids optionId))).
Proof.
  cbn zeta. split; [repeat split |]. split; [| split].
  - unfold Configurator.viewerProps, Configurator.withConfiguration, softDeckColorProp.
    cbn [softDeckColor Configurator.configuration Configurator.softDeckColor].
    rewrite toggleOption_includes.
    destruct (String.eqb optionId "soft-deck"); [| reflexivity].
    now destruct (JS.includes _ _).
  - unfold resolveVisibility, Configurator.viewerProps, Configurator.withConfiguration.
    cbn [modelId groupVisibilityMappings selectedOptions Configurator.configuration
         Configurator.groupVisibilityMappings Configurator.toggleOption
         Configurator.modelId].
    destruct (negb (JS.truthy childName)); [congruence |].
    destruct (String.eqb childName "el_motor"); [congruence |].
    destruct (String.eqb childName "battary_V_4_new"); [congruence |].
    destruct (findMapping _ _ _) as [mapping |]; [| congruence].
    destruct (hiddenByDefault mapping) eqn:Ehid; [| congruence].
    destruct (linkedOptionId mapping) as [oid |] eqn:Elink; [| congruence].
    destruct (JS.truthy oid); [| congruence].
    intros Hne. exists mapping. split; [reflexivity |]. split; [exact Ehid |].
    rewrite Elink. f_equal. destruct (String.eqb_spec optionId oid) as [Heq | Hneq]; [now subst |].
    destruct Hne. f_equal.
    change (JS.includes
              (Configurator.optionIds
                 (Configurator.toggleOption optionId (Configurator.configuration app))) oid
            = JS.includes (Configurator.optionIds (Configurator.configuration app)) oid).
    rewrite toggleOption_includes.
    destruct (String.eqb_spec optionId oid); [contradiction | reflexivity].
  - intros mapping Hfind Hhid Hlink Hopt Hname Hauto.
    unfold autoManaged in Hauto. apply orb_false_iff in Hauto as [Ha1 Ha2].
    unfold resolveVisibility. rewrite Hname, Ha1, Ha2. cbn [negb].
    change (modelId (Configurator.viewerProps
                       (Configurator.withConfiguration
                          (Configurator.toggleOption optionId
                             (Configurator.configuration app)) app)))
      with (modelId (Configurator.viewerProps app)).
    change (groupVisibilityMappings
              (Configurator.viewerProps
                 (Configurator.withConfiguration
                    (Configurator.toggleOption optionId
                       (Configurator.configuration app)) app)))
      with (groupVisibilityMappings (Configurator.viewerProps app)).
    rewrite Hfind, Hhid, Hlink, Hopt. split; [reflexivity |]. f_equal.
    change (selectedOptions
              (Configurator.viewerProps
                 (Configurator.withConfiguration
                    (Configurator.toggleOption optionId
                       (Configurator.configuration app)) app)))
      with (Configurator.optionIds
              (Configurator.toggleOption optionId (Configurator.configuration app))).
    rewrite toggleOption_includes. now rewrite String.eqb_refl.
Qed.

End ConfiguratorViewer.

Section TogglesToScene.

(** X22. From the clicks to the picture: in a well-formed scene, a named
    node that is not auto-managed and whose mapping is hidden by default
    and linked to an option is shown by the visibility effect, run with
    the properties the configurator passes after a sequence of toggles,
    exactly when the option ends selected: selected at the start and
    toggled an even number of times, or not selected and toggled an odd
    number of times. *)
Theorem linked_group_follows_toggles (app : Configurator.AppState) (ts : list string)
    (scene : Tree) (h : Heap) (j : ref) (o : Object3D)
    (mapping : GroupVisibilityMapping) (optionId : string) :
  wellFormed scene ->
  j ∈ nodes scene ->
  objects h !! j = Some o ->
  JS.truthy (name o) = true ->
  autoManaged (name o) = false ->
  findMapping (Configurator.groupVisibilityMappings app) (name o)
              (getBaseModelId (Configurator.modelId (Configurator.configuration app)))
  = Some mapping ->
  hiddenByDefault mapping = true ->
  linkedOptionId mapping = Some optionId ->
  JS.truthy optionId = true ->
  let app' := Configurator.withConfiguration
                (toggleAll ts (Configurator.configuration app)) app in
  exists o',
    objects (applyGroupVisibility (Configurator.viewerProps app') scene h) !! j = Some o' /\
    visible o'
    = xorb (JS.includes (Configurator.optionIds (Configurator.configuration app)) optionId)
           (Nat.odd (count_occ string_dec ts optionId)).
Proof.
  intros Hwf Hj Ho Hnamed Hauto Hfind Hhid Hlink Hopt. cbn zeta.
  set (p := Configurator.viewerProps _).
  assert (Hown : ownResolution p h j
                 = Some (xorb (JS.includes (Configurator.optionIds
                                              (Configurator.configuration app)) optionId)
                              (Nat.odd (count_occ string_dec ts optionId)))).
  { unfold ownResolution. rewrite Ho, (resolveVisibility_mapped p (name o) Hauto), Hnamed.
    cbn [negb]. unfold p, Configurator.viewerProps, Configurator.withConfiguration.
    cbn [modelId groupVisibilityMappings selectedOptions Configurator.configuration
         Configurator.groupVisibilityMappings].
    rewrite toggleAll_modelId, Hfind, Hhid, Hlink, Hopt.
    now rewrite toggleAll_includes. }
  destruct (nodes_inForce (ownResolution p h) None scene j Hj) as [r Hr].
  pose proof (inForce_own _ _ _ _ _ _ Hr Hown) as ->.
  destruct (applyGroupVisibility_in_force p scene h j _ o Hwf Hr Ho) as (o' & Ho' & _ & Hv).
  exists o'. split; [exact Ho' | exact Hv].
Qed.

Lemma linked_group_follows_toggles_witness :
  exists o',
    objects (applyGroupVisibility
               (Configurator.viewerProps
                  (Configurator.withConfiguration
                     (toggleAll ["seat-pack"; "t-top"; "seat-pack"; "seat-pack"]
                        Configurator.DEFAULT_CONFIG)
                     (Configurator.mkAppState Configurator.DEFAULT_CONFIG
                        [mkMapping "seats" "2.9" true (Some "seat-pack")]
                        false white "#FF6B00" None)))
               deckScene deckHeap) !! 1 = Some o' /\
    visible o' = true.
Proof.
  destruct (linked_group_follows_toggles
              (Configurator.mkAppState Configurator.DEFAULT_CONFIG
                 [mkMapping "seats" "2.9" true (Some "seat-pack")]
                 false white "#FF6B00" None)
              ["seat-pack"; "t-top"; "seat-pack"; "seat-pack"]
              deckScene deckHeap 1 (group "seats")
              (mkMapping "seats" "2.9" true (Some "seat-pack")) "seat-pack")
    as (o' & Ho' & Hv); try reflexivity.
  - apply (bool_decide_unpack _). vm_compute. exact I.
  - apply (bool_decide_unpack _). vm_compute. exact I.
  - exists o'. split; [exact Ho' | exact Hv].
Defined.

End TogglesToScene.
